(** * qmpy_rester.phase_diagram.phase : Phase and PhaseData

    A shallow embedding of [src/qmpy_rester/phase_diagram/phase.py] and the
    properties of its specification.

    Conventions of the embedding.
    - Python numbers (int and float amounts and energies) are rationals [Q],
      a float being the rational it denotes; [==] on [Q] is Python's numeric
      [==].  True division raises [ZeroDivisionError] on a zero divisor, as
      it does for Python ints and floats.  The first embedding computes
      with exact results; the module [Fl] repeats the bodies that do
      arithmetic with every result rounded, and the properties that depend
      on the arithmetic are stated there.  Infinities and NaN are not
      modelled.
    - A composition [dict] is an association list in insertion order (the
      iteration order of a Python 3 dict); keys are looked up and updated at
      their first occurrence.
    - The functions that [from ..utils import *] brings in are parameters:
      they are the fields of the class [Env].  What the specification says
      about them is the class [EnvSpec], and [spec_env] is an instance
      written from the specification.
    - The file is Python 3: text is [str], a [dict] iterates in insertion
      order, and [dict.keys()] returns a view.
    - Methods that assign attributes of [self] are programs of the monad
      [M S], which threads the object and may raise; a raise keeps the
      assignments made before it.
    - [amt] and [fraction] update a dictionary in place while they read
      others: they run on a store of objects.  The other operations work
      on values. *)

From Stdlib Require Import Ascii String QArith Qabs Qround Qpower Lia Lqa.
From stdpp Require Import base option list strings pretty gmap.

Open Scope Q_scope.

(** ** Exceptions and results *)

Inductive exn : Type :=
  | PhaseError
  | PhaseDataError
  | ZeroDivisionError
  | TypeError
  | KeyError
  | ValueError.

Inductive result (A : Type) : Type :=
  | Ok (a : A)
  | Raise (e : exn).
Arguments Ok {A} a.
Arguments Raise {A} e.

#[global] Instance result_ret : MRet result := fun A a => Ok a.
#[global] Instance result_bind : MBind result := fun A B k r =>
  match r with
  | Ok a => k a
  | Raise e => Raise e
  end.

(** ** Methods that assign to [self]

    A program over an object of type [S]: it returns the object as the
    assignments left it, and a value or the exception raised. *)

Definition M (S A : Type) : Type := S -> S * result A.

#[global] Instance M_ret {S} : MRet (M S) := fun A a s => (s, Ok a).
#[global] Instance M_bind {S} : MBind (M S) := fun A B k m s =>
  match m s with
  | (s', Ok a) => k a s'
  | (s', Raise e) => (s', Raise e)
  end.

Definition get {S} : M S S := fun s => (s, Ok s).
Definition put {S} (s : S) : M S unit := fun _ => (s, Ok tt).
Definition modify {S} (f : S -> S) : M S unit := fun s => (f s, Ok tt).
Definition lift {S A} (r : result A) : M S A := fun s => (s, r).
Definition raise {S A} (e : exn) : M S A := fun s => (s, Raise e).

(** [for x in xs: body(x)]. *)
Fixpoint for_each {S A} (xs : list A) (body : A -> M S unit) : M S unit :=
  match xs with
  | [] => mret tt
  | x :: xs' => body x;; for_each xs' body
  end.

(** ** Numbers *)

(** [x / y] on Python numbers. *)
Definition pydiv (x y : Q) : result Q :=
  if Qeq_bool y 0 then Raise ZeroDivisionError else Ok (x / y).

(** [x < y]. *)
Definition Qltb (x y : Q) : bool := negb (Qle_bool y x).

(** The tolerance [1e-6] of [Phase.__eq__] and [Phase.space]. *)
Definition tol : Q := 1 # 1000000.

(** ** Dictionaries keyed by strings *)

Definition dict : Type := list (string * Q).

Fixpoint dget (d : dict) (k : string) : option Q :=
  match d with
  | [] => None
  | (k', v) :: d' => if String.eqb k' k then Some v else dget d' k
  end.

(** [d[k] = v]: overwrite in place, or append a new key. *)
Fixpoint dset (d : dict) (k : string) (v : Q) : dict :=
  match d with
  | [] => [(k, v)]
  | (k', v') :: d' =>
      if String.eqb k' k then (k', v) :: d' else (k', v') :: dset d' k v
  end.

Definition dkeys (d : dict) : list string := map fst d.
Definition dvalues (d : dict) : list Q := map snd d.

(** [sum(xs)]. *)
Definition qsum (xs : list Q) : Q := fold_right Qplus 0 xs.

(** [sum(d.values())]. *)
Definition dsum (d : dict) : Q := qsum (dvalues d).

(** [d[k]] on a [defaultdict(float)]: a missing key is inserted with [0.0];
    the value read and the dictionary after the read. *)
Definition dget_default (d : dict) (k : string) : Q * dict :=
  match dget d k with
  | Some v => (v, d)
  | None => (0, dset d k 0)
  end.

(** [d[k]] on a plain [dict]. *)
Definition dgetitem (d : dict) (k : string) : result Q :=
  match dget d k with
  | Some v => Ok v
  | None => Raise KeyError
  end.

(** [set(a) == set(b)] on key lists. *)
Definition keyset_eqb (a b : list string) : bool :=
  forallb (fun k => existsb (String.eqb k) b) a
  && forallb (fun k => existsb (String.eqb k) a) b.

(** ** The imported environment

    [from ..utils import *] supplies [parse_comp], [unit_comp],
    [reduce_comp] and [format_comp]; ['%.3g' % v] is Python's formatting of
    a number to three significant digits; [pyhash] is the built-in [hash]
    on a tuple of a string and a number, which differs from one process to
    the next and may give one integer for two tuples. *)

Class Env : Type := {
  parse_comp : string -> result dict;
  unit_comp : dict -> result dict;
  reduce_comp : dict -> result dict;
  format_comp : dict -> result string;
  fmt_3g : Q -> string;
  pyhash : string * Q -> Z
}.

(** ** Phase *)

Set Warnings "-register-all".

(** The attributes of a [Phase] object.  [custom_name] and [phase_dict] are
    the class attributes [None] and [{}] until an instance overrides them;
    [index] is unset until [PhaseData.add_phase] assigns it.  [phase_dict]
    lists the items of the mapping in its iteration order. *)
Inductive Phase : Type := mkPhase {
  description : string;
  _comp : dict;
  _unit_comp : dict;
  _nom_comp : dict;
  stability : option Q;
  custom_name : option string;
  _energy : Q;
  _total_energy : Q;
  _energy_pfu : Q;
  index : option nat;
  phase_dict : list (Phase * Q)
}.

Definition set_energy_field (e : Q) (p : Phase) : Phase :=
  mkPhase (description p) (_comp p) (_unit_comp p) (_nom_comp p) (stability p)
    (custom_name p) e (_total_energy p) (_energy_pfu p) (index p) (phase_dict p).
Definition set_total_energy_field (e : Q) (p : Phase) : Phase :=
  mkPhase (description p) (_comp p) (_unit_comp p) (_nom_comp p) (stability p)
    (custom_name p) (_energy p) e (_energy_pfu p) (index p) (phase_dict p).
Definition set_energy_pfu_field (e : Q) (p : Phase) : Phase :=
  mkPhase (description p) (_comp p) (_unit_comp p) (_nom_comp p) (stability p)
    (custom_name p) (_energy p) (_total_energy p) e (index p) (phase_dict p).
Definition set_index (i : nat) (p : Phase) : Phase :=
  mkPhase (description p) (_comp p) (_unit_comp p) (_nom_comp p) (stability p)
    (custom_name p) (_energy p) (_total_energy p) (_energy_pfu p) (Some i)
    (phase_dict p).
Definition set_phase_dict (d : list (Phase * Q)) (p : Phase) : Phase :=
  mkPhase (description p) (_comp p) (_unit_comp p) (_nom_comp p) (stability p)
    (custom_name p) (_energy p) (_total_energy p) (_energy_pfu p) (index p) d.

(** The property getters. *)
Definition comp (p : Phase) : dict := _comp p.
Definition energy (p : Phase) : Q := _energy p.
Definition total_energy (p : Phase) : Q := _total_energy p.
Definition energy_pfu (p : Phase) : Q := _energy_pfu p.

(** [Phase.natoms]: [sum(self.nom_comp.values())]. *)
Definition natoms (p : Phase) : Q := dsum (_nom_comp p).

(** [Phase.n]: [sum(self._comp.values())]. *)
Definition Phase_n (p : Phase) : Q := dsum (_comp p).

(** The [energy] setter. *)
Definition energy_set (e : Q) : M Phase unit :=
  modify (set_energy_field e);;
  self ← get;
  modify (set_total_energy_field (e * dsum (comp self)));;
  self ← get;
  pfu ← lift (pydiv e (dsum (_nom_comp self)));
  modify (set_energy_pfu_field pfu).

(** The [total_energy] setter. *)
Definition total_energy_set (e : Q) : M Phase unit :=
  modify (set_total_energy_field e);;
  self ← get;
  per_atom ← lift (pydiv e (dsum (comp self)));
  modify (set_energy_field per_atom);;
  self ← get;
  pfu ← lift (pydiv e (dsum (_nom_comp self)));
  modify (set_energy_pfu_field pfu).

(** The [energy_pfu] setter. *)
Definition energy_pfu_set (e : Q) : M Phase unit :=
  modify (set_energy_pfu_field e).

(** The [composition] argument of the constructor: a formula or a mapping. *)
Inductive comp_arg : Type :=
  | CompStr (s : string)
  | CompDict (d : dict).

(** [if s:] on a string. *)
Definition nonempty (s : string) : bool :=
  match s with EmptyString => false | _ => true end.

(** [if isinstance(composition, str): composition = parse_comp(composition)]. *)
Definition as_mapping `{Env} (c : comp_arg) : result dict :=
  match c with
  | CompStr s => parse_comp s
  | CompDict d => Ok d
  end.

(** [Phase.__init__].  [defaultdict(float, composition)] copies the mapping;
    the [comp] setter stores the copy with its unit and nominal forms.  The
    arguments [description], [stability] and [name] default to [''], [None]
    and ['']; [total] is not used by the body. *)
Definition Phase_init `{Env} (composition : option comp_arg) (e : option Q)
    (descr : string) (per_atom : bool) (stab : option Q) (nm : string)
    : result Phase :=
  match composition, e with
  | Some c, Some e =>
      composition ← as_mapping c;
      u ← unit_comp composition;
      r ← reduce_comp composition;
      let self :=
        mkPhase descr composition u r stab
          (if nonempty nm then Some nm else None) 0 0 0 None [] in
      match (if per_atom then energy_set e else total_energy_set e) self with
      | (self, Ok _) => Ok self
      | (_, Raise x) => Raise x
      end
  | _, _ => Raise PhaseError
  end.

(** [if self.custom_name:] holds for a string that is not empty. *)
Definition truthy (s : option string) : option string :=
  match s with
  | Some s => if nonempty s then Some s else None
  | None => None
  end.

(** [Phase.name].  For a composite phase [name_dict] pairs each constituent
    with its amount per formula unit, and the terms are joined in the order
    of the mapping. *)
Fixpoint name `{Env} (p : Phase) : result string :=
  match p with
  | mkPhase _ _ _ nom _ cname _ _ _ _ pd =>
      match truthy cname with
      | Some s => Ok s
      | None =>
          match pd with
          | [] => format_comp nom
          | _ =>
              terms ← (fix terms (l : list (Phase * Q)) : result (list string) :=
                         match l with
                         | [] => Ok []
                         | (q, v) :: l' =>
                             x ← pydiv v (natoms q);
                             nq ← name q;
                             rest ← terms l';
                             Ok ((fmt_3g x +:+ " " +:+ nq) :: rest)
                         end) pd;
              Ok (String.concat " + " terms)
          end
      end
  end.

(** [Phase.__hash__]: [hash((self.name, self.energy))].  What is hashed is
    the tuple of the name and the energy; [pyhash] is the integer the
    built-in [hash] gives for it, and two hashes are equal when these
    integers are. *)
Definition hash_key : Type := string * Q.

Definition Phase_hash `{Env} (p : Phase) : result hash_key :=
  nm ← name p; Ok (nm, energy p).

Definition hash_eqb `{Env} (a b : hash_key) : bool :=
  Z.eqb (pyhash a) (pyhash b).

(** The loop of [Phase.__eq__] over the keys of [self.comp].  [self.unit_comp]
    and [other.unit_comp] are plain mappings: a key they lack raises
    [KeyError]. *)
Fixpoint unit_comps_close (mine theirs : dict) (ks : list string) : result bool :=
  match ks with
  | [] => Ok true
  | key :: ks' =>
      u ← dgetitem mine key;
      v ← dgetitem theirs key;
      if Qltb tol (Qabs (u - v)) then Ok false
      else unit_comps_close mine theirs ks'
  end.

(** [Phase.__eq__]. *)
Definition Phase_eq (self other : Phase) : result bool :=
  if negb (keyset_eqb (dkeys (comp self)) (dkeys (comp other))) then Ok false
  else if Qltb tol (Qabs (energy self - energy other)) then Ok false
  else unit_comps_close (_unit_comp self) (_unit_comp other) (dkeys (comp self)).

(** [Phase.space]: the elements whose unit amount exceeds the tolerance. *)
Definition Phase_space (p : Phase) : gset string :=
  list_to_set (map fst (filter (fun kv => Qltb tol (Qabs kv.2) = true)
                               (_unit_comp p))).

(** [view[i]] on the view returned by [dict.keys()]: a [dict_keys] object
    has no [__getitem__], so the subscript raises [TypeError]. *)
Definition dict_keys_getitem {A} (view : list A) (i : nat) : result A :=
  Raise TypeError.

(** [comp[e] += x] on a [defaultdict(float)]. *)
Definition dadd (d : dict) (e : string) (x : Q) : dict :=
  let (old, d') := dget_default d e in dset d' e (old + x).

(** [Phase.from_phases].  [sorted(..., key=lambda x: x.name)] evaluates the
    name of every key; its result [pkeys] is not used afterwards. *)
Definition from_phases `{Env} (phase_dict : list (Phase * Q)) : result Phase :=
  if Nat.eqb (length phase_dict) 1 then
    dict_keys_getitem (map fst phase_dict) 0
  else
    _ ← mapM name (map fst phase_dict);
    let energy := qsum (map (fun pa => pa.2 * energy pa.1) phase_dict) in
    let comp :=
      fold_left (fun comp pf =>
                   fold_left (fun comp ea => dadd comp ea.1 (ea.2 * pf.2))
                             (_unit_comp pf.1) comp)
                phase_dict [] in
    phase ← Phase_init (Some (CompDict comp)) (Some energy) "" false None "";
    Ok (set_phase_dict phase_dict phase).

(** ** Sets of phases

    A Python [set] keeps, for each element, the hash it had when it was
    inserted; a lookup visits the entries with an equal hash and asks the
    stored element's [__eq__].  Entries are listed in insertion order.
    CPython tries object identity before [__eq__]; a phase compares equal
    to itself whenever its unit composition has the keys of its
    composition, so the identity test is not modelled. *)

Abbreviation pyset := (list (hash_key * Phase)).

Fixpoint set_find `{Env} (entries : pyset) (h : hash_key) (p : Phase)
    : result bool :=
  match entries with
  | [] => Ok false
  | (h', q) :: rest =>
      if hash_eqb h' h then
        same ← Phase_eq q p;
        if (same : bool) then Ok true else set_find rest h p
      else set_find rest h p
  end.

(** [p in s]. *)
Definition set_contains `{Env} (s : pyset) (p : Phase) : result bool :=
  h ← Phase_hash p; set_find s h p.

(** [s.add(p)]. *)
Definition set_add `{Env} (s : pyset) (p : Phase) : result pyset :=
  h ← Phase_hash p;
  found ← set_find s h p;
  Ok (if (found : bool) then s else s ++ [(h, p)]).

(** The elements of a set. *)
Definition set_elements (s : pyset) : list Phase := map snd s.

(** ** PhaseData *)

Module PhaseData.

Record t : Type := mk {
  _phases : list Phase;
  phases_by_elt : gmap string pyset;
  phases_by_dim : gmap nat pyset;
  phase_dict : gmap string Phase;
  space : gset string
}.

(** The state [clear] leaves, which is also the state after [__init__]. *)
Definition empty : t := mk [] ∅ ∅ ∅ ∅.

Definition clear : M t unit := put empty.

Definition init : t := (clear empty).1.

(** The [phases] getter. *)
Definition phases (self : t) : list Phase := _phases self.

(** [self.phases_by_elt[elt]] and [self.phases_by_dim[d]] read a
    [defaultdict(set)]: a missing key is inserted with the empty set. *)
Definition by_elt_default (elt : string) (self : t) : t :=
  match phases_by_elt self !! elt with
  | Some _ => self
  | None => mk (_phases self) (<[elt := []]> (phases_by_elt self))
               (phases_by_dim self) (phase_dict self) (space self)
  end.

Definition by_dim_default (d : nat) (self : t) : t :=
  match phases_by_dim self !! d with
  | Some _ => self
  | None => mk (_phases self) (phases_by_elt self)
               (<[d := []]> (phases_by_dim self)) (phase_dict self) (space self)
  end.

Definition set_by_elt (elt : string) (s : pyset) (self : t) : t :=
  mk (_phases self) (<[elt := s]> (phases_by_elt self)) (phases_by_dim self)
     (phase_dict self) (space self).

Definition set_by_dim (d : nat) (s : pyset) (self : t) : t :=
  mk (_phases self) (phases_by_elt self) (<[d := s]> (phases_by_dim self))
     (phase_dict self) (space self).

Definition set_phase_dict_item (nm : string) (p : Phase) (self : t) : t :=
  mk (_phases self) (phases_by_elt self) (phases_by_dim self)
     (<[nm := p]> (phase_dict self)) (space self).

Definition append_phase (p : Phase) (self : t) : t :=
  mk (_phases self ++ [p]) (phases_by_elt self) (phases_by_dim self)
     (phase_dict self) (space self).

Definition union_space (ks : list string) (self : t) : t :=
  mk (_phases self) (phases_by_elt self) (phases_by_dim self)
     (phase_dict self) (space self ∪ list_to_set ks).

(** The [if]/[else] on [self.phase_dict]: a name not yet held takes the
    phase; a name already held takes it when its energy is lower. *)
Definition keep_lowest (nm : string) (phase : Phase) : M t unit :=
  self ← get;
  match phase_dict self !! nm with
  | None => modify (set_phase_dict_item nm phase)
  | Some held =>
      if Qltb (energy phase) (energy held)
      then modify (set_phase_dict_item nm phase)
      else mret tt
  end.

(** [self.phases_by_elt[elt].add(phase)]. *)
Definition by_elt_add `{Env} (elt : string) (phase : Phase) : M t unit :=
  modify (by_elt_default elt);;
  self ← get;
  s ← lift (set_add (default [] (phases_by_elt self !! elt)) phase);
  modify (set_by_elt elt s).

(** [self.phases_by_dim[d].add(phase)]. *)
Definition by_dim_add `{Env} (d : nat) (phase : Phase) : M t unit :=
  modify (by_dim_default d);;
  self ← get;
  s ← lift (set_add (default [] (phases_by_dim self !! d)) phase);
  modify (set_by_dim d s).

(** [add_phase].  Every container holds a reference to the one object
    [phase], so the index assigned after the append shows through each of
    them: the record stored is the phase with that index.  When an object
    is added a second time Python shows its new index through the earlier
    entries too; the properties of the containers are therefore stated up
    to the index a record carries. *)
Definition add_phase `{Env} (phase : Phase) : M t unit :=
  nm ← lift (name phase);
  self ← get;
  let phase := set_index (S (length (_phases self))) phase in
  keep_lowest nm phase;;
  modify (append_phase phase);;
  for_each (dkeys (comp phase)) (fun elt => by_elt_add elt phase);;
  by_dim_add (length (comp phase)) phase;;
  modify (union_space (dkeys (comp phase))).

(** [add_phases]. *)
Definition add_phases `{Env} (ps : list Phase) : M t unit :=
  for_each ps add_phase.

(** The [phases] setter. *)
Definition phases_set `{Env} (ps : list Phase) : M t unit :=
  clear;; for_each ps add_phase.

(** A record of the batch handed to [read_api_data]: [d.get('name')] and
    [d.get('delta_e')].  A name is a formula and an energy a number; either
    is [None] when the record lacks the key. *)
Record api_record : Type := mk_record {
  rec_name : option string;
  rec_delta_e : option Q
}.

(** [float(x)] on a number or [None]: [float(None)] raises [TypeError]. *)
Definition pyfloat (x : option Q) : result Q :=
  match x with
  | Some v => Ok v
  | None => Raise TypeError
  end.

(** [read_api_data].  [data] is [jsondata.get('data', [])], [None] standing
    for a batch without the key.  The arguments of [Phase(...)] are
    evaluated before the call, so [float] runs before the constructor; the
    two [print] calls write to the terminal and are left out. *)
Definition read_api_data `{Env} (data : option (list api_record))
    (per_atom : bool) : M t unit :=
  match data with
  | None | Some [] => mret tt
  | Some ds =>
      for_each ds (fun d =>
        e ← lift (pyfloat (rec_delta_e d));
        phase ← lift (Phase_init (option_map CompStr (rec_name d)) (Some e)
                                 "" per_atom None "");
        add_phase phase)
  end.

End PhaseData.

(** ** The records of a batch *)

(** The phase [read_api_data] builds from a record. *)
Definition record_phase `{Env} (per_atom : bool) (d : PhaseData.api_record)
    : result Phase :=
  e ← PhaseData.pyfloat (PhaseData.rec_delta_e d);
  Phase_init (option_map CompStr (PhaseData.rec_name d)) (Some e)
             "" per_atom None "".

(** The body of the loop of [read_api_data]. *)
Definition ingest `{Env} (per_atom : bool) (d : PhaseData.api_record)
    : M PhaseData.t unit :=
  e ← lift (PhaseData.pyfloat (PhaseData.rec_delta_e d));
  phase ← lift (Phase_init (option_map CompStr (PhaseData.rec_name d)) (Some e)
                           "" per_atom None "");
  PhaseData.add_phase phase.

(** ** An environment written from the specification *)

Definition is_upper (c : ascii) : bool :=
  let k := nat_of_ascii c in ((65 <=? k) && (k <=? 90))%nat.
Definition is_lower (c : ascii) : bool :=
  let k := nat_of_ascii c in ((97 <=? k) && (k <=? 122))%nat.
Definition is_digit (c : ascii) : bool :=
  let k := nat_of_ascii c in ((48 <=? k) && (k <=? 57))%nat.

(** Close the term being read: an element without a count stands for one
    atom, and a repeated element adds up. *)
Definition flush_term (elt : string) (count : option N) (acc : dict) : dict :=
  if nonempty elt
  then dadd acc elt (inject_Z (Z.of_N (default 1%N count)))
  else acc.

Fixpoint parse_terms (cs : string) (elt : string) (count : option N)
    (acc : dict) : result dict :=
  match cs with
  | EmptyString => Ok (flush_term elt count acc)
  | String c cs' =>
      if is_upper c then
        parse_terms cs' (String c EmptyString) None (flush_term elt count acc)
      else if is_lower c then
        match count with
        | None => if nonempty elt
                  then parse_terms cs' (elt +:+ String c EmptyString) None acc
                  else Raise ValueError
        | Some _ => Raise ValueError
        end
      else if is_digit c then
        if nonempty elt then
          let d := N.of_nat (nat_of_ascii c - 48) in
          parse_terms cs' elt (Some (10 * default 0%N count + d)%N) acc
        else Raise ValueError
      else Raise ValueError
  end.

(** Modelled from the spec: the composition parser of [..utils], "string →
    mapping from element symbol to amount", for formulas of element symbols
    with whole counts such as [Fe2O3] and [Li2O]. *)
Definition spec_parse_comp (s : string) : result dict :=
  parse_terms s EmptyString None [].

(** Every amount of [d] divided by [x]. *)
Definition scale_down (d : dict) (x : Q) : result dict :=
  mapM (fun kv => v ← pydiv kv.2 x; Ok (kv.1, Qred v)) d.

(** Modelled from the spec: the composition normalizer of [..utils],
    "mapping → mapping rescaled to sum to 1". *)
Definition spec_unit_comp (d : dict) : result dict :=
  scale_down d (dsum d).

(** The greatest common divisor of two rationals: the largest rational of
    which both are whole multiples. *)
Definition Qgcd (a b : Q) : Q :=
  Z.gcd (Qnum a * Zpos (Qden b)) (Qnum b * Zpos (Qden a))
    # (Qden a * Qden b).

(** Modelled from the spec: the composition reducer of [..utils], "mapping →
    mapping divided by the GCD of its values". *)
Definition spec_reduce_comp (d : dict) : result dict :=
  scale_down d (fold_right Qgcd 0 (dvalues d)).

(** A number printed exactly, as an integer or a fraction. *)
Definition show_Q (q : Q) : string :=
  let q := Qred q in
  if Pos.eqb (Qden q) 1 then pretty (Qnum q)
  else pretty (Qnum q) +:+ "/" +:+ pretty (Zpos (Qden q)).

(** Modelled from the spec: the composition formatter of [..utils],
    "mapping → canonical display string (e.g., {Fe:2, O:3} → "Fe2O3")"; an
    amount of one is left out. *)
Definition spec_format_comp (d : dict) : result string :=
  Ok (String.concat ""
        (map (fun kv => kv.1 +:+ (if Qeq_bool kv.2 1 then "" else show_Q kv.2)) d)).

(** A hash that tells two tuples apart whenever their names or their
    energies differ. *)
Definition spec_hash (k : string * Q) : Z :=
  Z.pos (encode (k.1, Qnum (Qred k.2), Qden (Qred k.2))).

(** The instance.  Numbers in composite names are printed by [show_Q]
    where Python prints three significant digits. *)
#[global] Instance spec_env : Env := {|
  parse_comp := spec_parse_comp;
  unit_comp := spec_unit_comp;
  reduce_comp := spec_reduce_comp;
  format_comp := spec_format_comp;
  fmt_3g := show_Q;
  pyhash := spec_hash
|}.

(** ** The object store, for [amt] and [fraction]

    [amt] and [fraction] build a dictionary and update it in place while
    they read the dictionaries of [self] and of their argument.  Here the
    dictionaries and the phases are objects of a store, named by their
    position; a [Phase] object holds references to its three compositions.
    Objects that are dropped as soon as they are read ([dict(comp)], the
    parsed formula inside [unit_comp(parse_comp(comp))]) stay values. *)

Abbreviation loc := nat.

Record PhaseObj : Type := mkPhaseObj {
  comp_ref : loc;
  unit_comp_ref : loc;
  nom_comp_ref : loc;
  energy_attr : Q;
  total_energy_attr : Q;
  energy_pfu_attr : Q
}.

Inductive obj : Type :=
  | ODict (d : dict)
  | OPhase (p : PhaseObj).

Abbreviation heap := (list obj).

(** A new object, at the first free position. *)
Definition alloc (o : obj) : M heap loc :=
  h ← get; put (h ++ [o]);; mret (length h).

Definition read_dict (l : loc) : M heap dict :=
  h ← get;
  match h !! l with
  | Some (ODict d) => mret d
  | _ => raise TypeError
  end.

Definition read_phase (l : loc) : M heap PhaseObj :=
  h ← get;
  match h !! l with
  | Some (OPhase p) => mret p
  | _ => raise TypeError
  end.

Definition write_dict (l : loc) (d : dict) : M heap unit :=
  modify (fun h : heap => <[l := ODict d]> h).

(** [d[k]] on a [defaultdict(float)] object. *)
Definition getitem_default (l : loc) (k : string) : M heap Q :=
  d ← read_dict l;
  let (v, d') := dget_default d k in
  write_dict l d';; mret v.

(** [d[k] = v]. *)
Definition setitem (l : loc) (k : string) (v : Q) : M heap unit :=
  d ← read_dict l; write_dict l (dset d k v).

(** [sum(d.values())]. *)
Definition sum_values (l : loc) : M heap Q :=
  d ← read_dict l; mret (dsum d).

(** The body shared by [amt] and [fraction], from [residual = ...] to the
    [return]: the two differ in the dictionary [src] that [residual]
    copies, [self.comp] or [self.unit_comp].  The outer loop runs over the
    copy [dict(comp)]; the inner loop runs over [comp] itself. *)
Definition pull_out (src comp : loc) : M heap loc :=
  d ← read_dict src;
  residual ← alloc (ODict d);
  tot ← sum_values residual;
  outer ← read_dict comp;
  for_each outer (fun ca =>
    x ← getitem_default residual ca.1;
    pres ← lift (pydiv x ca.2);
    inner ← read_dict comp;
    for_each inner (fun ca2 =>
      y ← getitem_default residual ca2.1;
      setitem residual ca2.1 (y - pres * ca2.2)));;
  s ← sum_values residual;
  setitem residual "var" (tot - s);;
  v ← getitem_default residual "var";
  total ← sum_values comp;
  q ← lift (pydiv v total);
  setitem residual "var" q;;
  mret residual.

(** The argument of [amt] and [fraction]: a [Phase], a formula, or a
    mapping. *)
Inductive target : Type :=
  | TPhase (l : loc)
  | TStr (s : string)
  | TDict (l : loc).

(** [Phase.amt]. *)
Definition amt `{Env} (self : loc) (t : target) : M heap loc :=
  comp ← match t with
         | TPhase l => q ← read_phase l; mret (comp_ref q)
         | TStr s => d ← lift (parse_comp s); alloc (ODict d)
         | TDict l => mret l
         end;
  me ← read_phase self;
  pull_out (comp_ref me) comp.

(** [Phase.fraction]. *)
Definition fraction `{Env} (self : loc) (t : target) : M heap loc :=
  comp ← match t with
         | TPhase l => q ← read_phase l; mret (unit_comp_ref q)
         | TStr s => d ← lift (parse_comp s);
                     u ← lift (unit_comp d);
                     alloc (ODict u)
         | TDict l => mret l
         end;
  me ← read_phase self;
  pull_out (unit_comp_ref me) comp.

(** A [Phase] value placed in the store: its three dictionaries, then the
    object that refers to them. *)
Definition store_phase (p : Phase) : M heap loc :=
  c ← alloc (ODict (_comp p));
  u ← alloc (ODict (_unit_comp p));
  r ← alloc (ODict (_nom_comp p));
  alloc (OPhase (mkPhaseObj c u r (_energy p) (_total_energy p) (_energy_pfu p))).

(** ** Binary floating point

    A Python [float] is an IEEE 754 binary64 number, and every operation
    on floats returns the exact result rounded to the nearest such number.
    The definitions above compute with the exact results; their sums and
    products stand for the operations the code performs.  The module [Fl]
    repeats the bodies that do arithmetic, the energy setters with the
    constructor and [amt] and [fraction], with every result rounded by a
    function [rnd]; a float is the rational it denotes, and an [int]
    amount is the float of the same value.  [round64] is the rounding of
    binary64, to nearest and to even on a tie.  Results beyond the largest
    binary64 number, infinities and NaN are not modelled. *)

(** [floor(log2(a))] for a positive [a]. *)
Definition Qfloor_log2 (a : Q) : Z :=
  let e0 := (Z.log2 (Qnum a) - Z.log2 (Z.pos (Qden a)))%Z in
  if Qle_bool (2 ^ e0) a then e0 else (e0 - 1)%Z.

(** The nearest integer, the even one of two that are equally near. *)
Definition round_half_even (m : Q) : Z :=
  let f := Qfloor m in
  match Qcompare (m - inject_Z f) (1 # 2) with
  | Lt => f
  | Gt => (f + 1)%Z
  | Eq => if Z.even f then f else (f + 1)%Z
  end.

(** The binary64 number nearest to [x]: 53 significant bits, no bit below
    [2 ** -1074]; a number that is representable is returned as it is. *)
Definition round64 (x : Q) : Q :=
  if Qeq_bool x 0 then x else
  let a := Qabs x in
  let q := Z.max (Qfloor_log2 a - 52) (-1074) in
  let m := round_half_even (a / 2 ^ q) in
  let y := inject_Z (Z.sgn (Qnum x) * m) * 2 ^ q in
  if Qeq_bool y x then x else y.

(** The unit roundoff of binary64, [2 ** -53]. *)
Definition u64 : Q := 1 # 9007199254740992.

(** Whether two rationals are the same fraction. *)
Definition Qsame (x y : Q) : bool :=
  Z.eqb (Qnum x) (Qnum y) && Pos.eqb (Qden x) (Qden y).

Module Fl.

Section rounded.

Variable rnd : Q -> Q.

(** [x * y]. *)
Definition mul (x y : Q) : Q := rnd (x * y).

(** [x / y]. *)
Definition div (x y : Q) : result Q :=
  if Qeq_bool y 0 then Raise ZeroDivisionError else Ok (rnd (x / y)).

(** [sum(xs)]: from 0, one addition after the other, as CPython adds
    floats up to version 3.11; later versions compensate the rounding
    errors of the additions, which gives the same number whenever no
    addition rounds. *)
Definition sum (xs : list Q) : Q := fold_left (fun acc x => rnd (acc + x)) xs 0.

(** The [energy] setter. *)
Definition energy_set (e : Q) : M Phase unit :=
  modify (set_energy_field e);;
  self ← get;
  modify (set_total_energy_field (mul e (sum (dvalues (comp self)))));;
  self ← get;
  pfu ← lift (div e (sum (dvalues (_nom_comp self))));
  modify (set_energy_pfu_field pfu).

(** The [total_energy] setter. *)
Definition total_energy_set (e : Q) : M Phase unit :=
  modify (set_total_energy_field e);;
  self ← get;
  per_atom ← lift (div e (sum (dvalues (comp self))));
  modify (set_energy_field per_atom);;
  self ← get;
  pfu ← lift (div e (sum (dvalues (_nom_comp self))));
  modify (set_energy_pfu_field pfu).

(** [Phase.__init__]. *)
Definition Phase_init `{Env} (composition : option comp_arg) (e : option Q)
    (descr : string) (per_atom : bool) (stab : option Q) (nm : string)
    : result Phase :=
  match composition, e with
  | Some c, Some e =>
      composition ← as_mapping c;
      u ← unit_comp composition;
      r ← reduce_comp composition;
      let self :=
        mkPhase descr composition u r stab
          (if nonempty nm then Some nm else None) 0 0 0 None [] in
      match (if per_atom then energy_set e else total_energy_set e) self with
      | (self, Ok _) => Ok self
      | (_, Raise x) => Raise x
      end
  | _, _ => Raise PhaseError
  end.

(** The store together with the status of the arithmetic: [exact] holds
    as long as every operation has returned its exact result. *)
Record machine : Type := mk_machine {
  store : heap;
  exact : bool
}.

(** An operation on the store. *)
Definition on_store {A} (m : M heap A) : M machine A :=
  fun s => let (h, r) := m (store s) in (mk_machine h (exact s), r).

(** The result [x] of an operation, rounded. *)
Definition round (x : Q) : M machine Q :=
  fun s => (mk_machine (store s) (exact s && Qsame (rnd x) x), Ok (rnd x)).

(** [x / y]. *)
Definition fdiv (x y : Q) : M machine Q :=
  if Qeq_bool y 0 then raise ZeroDivisionError else round (x / y).

(** [sum(xs)], continued from [acc]. *)
Fixpoint sum_from (acc : Q) (xs : list Q) : M machine Q :=
  match xs with
  | [] => mret acc
  | x :: xs' => acc' ← round (acc + x); sum_from acc' xs'
  end.

(** [sum(d.values())]. *)
Definition sum_values (l : loc) : M machine Q :=
  d ← on_store (read_dict l); sum_from 0 (dvalues d).

(** The body shared by [amt] and [fraction]. *)
Definition pull_out (src comp : loc) : M machine loc :=
  d ← on_store (read_dict src);
  residual ← on_store (alloc (ODict d));
  tot ← sum_values residual;
  outer ← on_store (read_dict comp);
  for_each outer (fun ca =>
    x ← on_store (getitem_default residual ca.1);
    pres ← fdiv x ca.2;
    inner ← on_store (read_dict comp);
    for_each inner (fun ca2 =>
      y ← on_store (getitem_default residual ca2.1);
      taken ← round (pres * ca2.2);
      left ← round (y - taken);
      on_store (setitem residual ca2.1 left)));;
  s ← sum_values residual;
  pulled ← round (tot - s);
  on_store (setitem residual "var" pulled);;
  v ← on_store (getitem_default residual "var");
  total ← sum_values comp;
  q ← fdiv v total;
  on_store (setitem residual "var" q);;
  mret residual.

(** [Phase.amt]. *)
Definition amt `{Env} (self : loc) (t : target) : M machine loc :=
  comp ← on_store (match t with
                   | TPhase l => q ← read_phase l; mret (comp_ref q)
                   | TStr s => d ← lift (parse_comp s); alloc (ODict d)
                   | TDict l => mret l
                   end);
  me ← on_store (read_phase self);
  pull_out (comp_ref me) comp.

(** [Phase.fraction]. *)
Definition fraction `{Env} (self : loc) (t : target) : M machine loc :=
  comp ← on_store (match t with
                   | TPhase l => q ← read_phase l; mret (unit_comp_ref q)
                   | TStr s => d ← lift (parse_comp s);
                               u ← lift (unit_comp d);
                               alloc (ODict u)
                   | TDict l => mret l
                   end);
  me ← on_store (read_phase self);
  pull_out (unit_comp_ref me) comp.

End rounded.

End Fl.

(** A run of the rounded program that has not rounded is a run of the
    exact one. *)
Definition sim {A} (mf : M Fl.machine A) (m : M heap A) : Prop :=
  forall s, Fl.exact (mf s).1 = true ->
            Fl.exact s = true /\ m (Fl.store s) = (Fl.store (mf s).1, (mf s).2).


(** ** What the specification says of the environment *)

Class EnvSpec (E : Env) : Prop := {
  (** A composition with a nonzero total has a unit form. *)
  unit_comp_defined :
    forall d, ~ dsum d == 0 -> exists u, unit_comp d = Ok u;
  (** A composition with a nonzero total has a nominal form. *)
  reduce_comp_defined :
    forall d, ~ dsum d == 0 -> exists r, reduce_comp d = Ok r;
  (** The nominal form is the composition divided by a nonzero number. *)
  reduce_comp_divides :
    forall d r, reduce_comp d = Ok r ->
                exists g, ~ g == 0 /\ dsum d == g * dsum r;
  (** The unit form has the keys of the composition. *)
  unit_comp_keys :
    forall d u, unit_comp d = Ok u -> dkeys u = dkeys d;
  (** Every composition has a display string. *)
  format_comp_defined :
    forall d, exists s, format_comp d = Ok s
}.

(** A phase that [PhaseData] can take in: it has a name, and its unit
    composition has an amount for every key of its composition. *)
Definition comparable `{Env} (p : Phase) : Prop :=
  (exists nm, name p = Ok nm) /\
  (forall k, k ∈ dkeys (comp p) -> is_Some (dget (_unit_comp p) k)).

(** ** Specifications of methods *)

(** From a state that satisfies [P], the method [m] ends in a state and
    with an outcome, a value or an exception, that satisfy [Q]. *)
Definition triple {S A} (P : S -> Prop) (m : M S A)
    (Q : result A -> S -> Prop) : Prop :=
  forall s, P s -> Q (m s).2 (m s).1.

(** ** The loops of [amt] and [fraction] on the residual alone *)

(** The amount a [defaultdict(float)] reads under a key: zero for a
    missing key. *)
Definition getd (d : dict) (k : string) : Q := default 0 (dget d k).

(** [residual[k] -= x]. *)
Definition dsub (d : dict) (k : string) (x : Q) : dict :=
  let (y, d') := dget_default d k in dset d' k (y - x).

(** The inner loop: [pres] times every amount of the target is taken off
    the residual. *)
Definition residual_inner (target : dict) (pres : Q) (d : dict) : dict :=
  fold_left (fun d ca2 => dsub d ca2.1 (pres * ca2.2)) target d.

(** The outer loop over the items still to visit: the residual it leaves
    and whether it ended or raised. *)
Fixpoint residual_outer (target : dict) (items : list (string * Q)) (d : dict)
    : dict * result unit :=
  match items with
  | [] => (d, Ok tt)
  | ca :: rest =>
      let (x, d1) := dget_default d ca.1 in
      match pydiv x ca.2 with
      | Ok pres => residual_outer target rest (residual_inner target pres d1)
      | Raise e => (d1, Raise e)
      end
  end.

(** What the outer loop has reached: the residual is the composition less
    [x] times the target. *)
Record pulled (start target : dict) (x : Q) (d : dict) : Prop := {
  pulled_getd : forall e, getd d e == getd start e - x * getd target e;
  pulled_dsum : dsum d == dsum start - x * dsum target;
  pulled_other : forall e, e ∉ dkeys target -> dget d e = dget start e
}.

(** The method [m], run from a store that extends [h], leaves a store that
    extends [h], and a value it returns satisfies [V]. *)
Definition keeps {A} (h : heap) (m : M heap A) (V : A -> Prop) : Prop :=
  triple (fun s => h `prefix_of` s) m
         (fun r s => h `prefix_of` s /\ forall a, r = Ok a -> V a).

(** ** The loops of [from_phases] *)

(** The inner loop of [from_phases]: [comp[e] += amt * factor] over the
    items of a unit composition. *)
Definition add_scaled (u : dict) (factor : Q) (comp : dict) : dict :=
  fold_left (fun comp ea => dadd comp ea.1 (ea.2 * factor)) u comp.

(** The composition [from_phases] accumulates over a mapping. *)
Definition mixture (phase_dict : list (Phase * Q)) : dict :=
  fold_left (fun comp pf => add_scaled (_unit_comp pf.1) pf.2 comp) phase_dict [].

(** ** The indexes of a PhaseData, stated over the phases added *)

(** The set held under a key of a [defaultdict(set)]. *)
Definition bucket `{Countable K} (m : gmap K pyset) (k : K) : pyset :=
  default [] (m !! k).

(** [q] is in the set [s]: it is an element, or [q in s] finds an element
    that compares equal to it. *)
Definition holds `{Env} (s : pyset) (q : Phase) : Prop :=
  q ∈ set_elements s \/ set_contains s q = Ok true.

(** [q] is the object [p], whatever index it carries. *)
Definition same_phase (p q : Phase) : Prop :=
  exists i, q = set_index i p.

(** [q] is the phase passed by the [j]-th call of [add_phase]. *)
Definition added (ps : list Phase) (j : nat) (q : Phase) : Prop :=
  exists p, ps !! j = Some p /\ same_phase p q.

(** The effect on an index of adding [p] under the keys [ks] in turn. *)
Inductive bucket_adds `{Env} `{Countable K} (p : Phase) :
    list K -> gmap K pyset -> gmap K pyset -> Prop :=
  | bucket_adds_nil m : bucket_adds p [] m m
  | bucket_adds_cons k ks m s m' :
      set_add (bucket m k) p = Ok s ->
      bucket_adds p ks (<[k := s]> m) m' ->
      bucket_adds p (k :: ks) m m'.

(** The state of a PhaseData after [add_phase] was called on the phases
    [ps] in turn. *)
Record indexed `{Env} (ps : list Phase) (pd : PhaseData.t) : Prop := {
  (** the ordered list holds every phase, in the order of the calls *)
  ix_phases : Forall2 same_phase ps (PhaseData._phases pd);
  (** a name is missing from [phase_dict] when no phase has it *)
  ix_dict_none : forall nm,
    PhaseData.phase_dict pd !! nm = None ->
    forall p, p ∈ ps -> name p <> Ok nm;
  (** the phase under a name has that name and the lowest energy of its
      name, and is the first one added with that energy *)
  ix_dict_some : forall nm q,
    PhaseData.phase_dict pd !! nm = Some q ->
    exists j, added ps j q /\ name q = Ok nm /\
      forall k p', ps !! k = Some p' -> name p' = Ok nm ->
        energy q <= energy p' /\ ((k < j)%nat -> energy q < energy p');
  (** the elements of the set of an element are phases that have it as a key *)
  ix_elt_sound : forall elt q,
    q ∈ set_elements (bucket (PhaseData.phases_by_elt pd) elt) ->
    exists j, added ps j q /\ elt ∈ dkeys (comp q);
  (** every phase is in the set of each of its keys *)
  ix_elt_complete : forall elt j p,
    ps !! j = Some p -> elt ∈ dkeys (comp p) ->
    exists q, same_phase p q /\
              holds (bucket (PhaseData.phases_by_elt pd) elt) q;
  (** the same for the number of keys *)
  ix_dim_sound : forall d q,
    q ∈ set_elements (bucket (PhaseData.phases_by_dim pd) d) ->
    exists j, added ps j q /\ length (comp q) = d;
  ix_dim_complete : forall d j p,
    ps !! j = Some p -> length (comp p) = d ->
    exists q, same_phase p q /\
              holds (bucket (PhaseData.phases_by_dim pd) d) q
}.

(** No two entries of a set have equal hashes and compare equal. *)
Definition apart `{Env} (s : pyset) : Prop :=
  forall i j h x h' y,
    (i < j)%nat -> s !! i = Some (h, x) -> s !! j = Some (h', y) ->
    hash_eqb h h' = true -> Phase_eq x y = Ok false.

(** The same of every set of a PhaseData. *)
Definition all_apart `{Env} (pd : PhaseData.t) : Prop :=
  (forall elt, apart (bucket (PhaseData.phases_by_elt pd) elt)) /\
  (forall d, apart (bucket (PhaseData.phases_by_dim pd) d)).

(** Every phase an index holds is in the ordered list. *)
Definition listed (pd : PhaseData.t) : Prop :=
  (forall nm q, PhaseData.phase_dict pd !! nm = Some q ->
                q ∈ PhaseData.phases pd) /\
  (forall elt q, q ∈ set_elements (bucket (PhaseData.phases_by_elt pd) elt) ->
                 q ∈ PhaseData.phases pd) /\
  (forall d q, q ∈ set_elements (bucket (PhaseData.phases_by_dim pd) d) ->
               q ∈ PhaseData.phases pd).

(** The two fields that the loops of [add_phase] leave alone. *)
Definition listing (pd : PhaseData.t) : list Phase * gmap string Phase :=
  (PhaseData._phases pd, PhaseData.phase_dict pd).

(** ** The equality the specification describes *)



(** ** Phases used as examples *)

Definition Fe2O3 : dict := [("Fe"%string, 2); ("O"%string, 3)].

(** [Phase({'Fe': 2, 'O': 3}, e)]. *)
Definition Fe2O3_phase (e : Q) : result Phase :=
  Phase_init (Some (CompDict Fe2O3)) (Some e) "" true None "".

(** [Phase({'Fe': 1, 'O': 0}, -1)] and [Phase({'Fe': 1}, -1)]. *)
Definition Fe_with_zero_O : result Phase :=
  Phase_init (Some (CompDict [("Fe"%string, 1); ("O"%string, 0)])) (Some (-1))
             "" true None "".
Definition Fe_alone : result Phase :=
  Phase_init (Some (CompDict [("Fe"%string, 1)])) (Some (-1)) "" true None "".

(** The phase [Phase({'Fe': 1}, -1)] as the constructor leaves it. *)
Definition Fe_phase : Phase :=
  mkPhase "" [("Fe"%string, 1)] [("Fe"%string, 1)] [("Fe"%string, 1)]
          None None (-1) (-1) (-1) None [].

(** A composite phase whose one constituent has an empty nominal
    composition: its name cannot be computed. *)
Definition no_atoms : Phase :=
  mkPhase "" [] [] [] None None 0 0 0 None [].
Definition nameless : Phase :=
  mkPhase "" [("Fe"%string, 1)] [("Fe"%string, 1)] [("Fe"%string, 1)]
          None None (-1) (-1) (-1) None [(no_atoms, 1)].

(** [Phase({'Fe': 1}, e)] as the constructor leaves it. *)
Definition Fe_at (e : Q) : Phase :=
  mkPhase "" [("Fe"%string, 1)] [("Fe"%string, 1)] [("Fe"%string, 1)]
          None None e e e None [].

(** The phases a constructor call yields: the phase built, or none when
    the call raised. *)
Definition built (r : result Phase) : list Phase :=
  match r with
  | Ok p => [p]
  | Raise _ => []
  end.



(** A batch of two records, [Fe2O3] at -3 and [Fe] at -1. *)
Definition batch : list PhaseData.api_record :=
  [PhaseData.mk_record (Some "Fe2O3"%string) (Some (-3));
   PhaseData.mk_record (Some "Fe"%string) (Some (-1))].

(** The phase a constructor call returned. *)
Definition the_phase (r : result Phase) : Phase :=
  match r with
  | Ok p => p
  | Raise _ => no_atoms
  end.

(** The mapping [{'Li': 3, 'O': 7}], and the mapping of [Li2O] with O
    before Li. *)
Definition Li3O7 : dict := [("Li"%string, 3); ("O"%string, 7)].
Definition O1Li2 : dict := [("O"%string, 1); ("Li"%string, 2)].

(** [Phase({'Fe': 3}, 123456789.1)]: the energy is the binary64 number
    the literal denotes. *)
Definition Fe3 : dict := [("Fe"%string, 3)].
Definition large_energy : Q := round64 (1234567891 # 10).

(** A phase of 49 atoms whose nominal composition is one atom. *)
Definition Fe49 : Phase :=
  mkPhase "" [("Fe"%string, 49)] [("Fe"%string, 1)] [("Fe"%string, 1)]
          None None 0 0 0 None [].

(** [Phase({'Fe': 1, 'O': 3}, -1)] and [Phase({'Fe': 1, 'O': 1}, -1)]: their unit
    compositions are binary fractions. *)
Definition FeO3_phase : result Phase :=
  Phase_init (Some (CompDict [("Fe"%string, 1); ("O"%string, 3)])) (Some (-1))
             "" true None "".
Definition FeO_phase : result Phase :=
  Phase_init (Some (CompDict [("Fe"%string, 1); ("O"%string, 1)])) (Some (-1))
             "" true None "".

(** The store after [p = Phase(...)] and a target mapping are created: the
    three dictionaries of [p] at 0, 1 and 2, [p] at 3, the target at 4. *)
Definition store_of (r : result Phase) (target : dict) : heap :=
  match r with
  | Ok p => ((store_phase p;; alloc (ODict target)) []).1
  | Raise _ => []
  end.

(** [Phase({'Fe': 1, 'Li': 5, 'O': 8}, -1)] and the mapping of [Li2O]. *)
Definition FeLi5O8 : dict := [("Fe"%string, 1); ("Li"%string, 5); ("O"%string, 8)].
Definition FeLi5O8_phase : result Phase :=
  Phase_init (Some (CompDict FeLi5O8)) (Some (-1)) "" true None "".
Definition Li2O : dict := [("Li"%string, 2); ("O"%string, 1)].

(** The store after two phases are created: the first at 3 with its
    dictionaries at 0, 1 and 2, the second at 7 with its dictionaries at 4,
    5 and 6. *)
Definition store_pair (r1 r2 : result Phase) : heap :=
  match r1, r2 with
  | Ok p, Ok q => ((store_phase p;; store_phase q) []).1
  | _, _ => []
  end.


(** ** Running a method *)

(** The object a method leaves, and what it returns. *)
Definition state_after {S A} (m : M S A) (s : S) : S := (m s).1.
Definition outcome {S A} (m : M S A) (s : S) : result A := (m s).2.

(** * Properties *)

(** ** Numbers and dictionaries *)

Lemma pydiv_ok x y : ~ y == 0 -> pydiv x y = Ok (x / y).
Proof.
  intros Hy. unfold pydiv.
  destruct (Qeq_bool y 0) eqn:E; [|reflexivity].
  apply Qeq_bool_iff in E. contradiction.
Qed.

Lemma pydiv_zero x y : y == 0 -> pydiv x y = Raise ZeroDivisionError.
Proof.
  intros Hy. unfold pydiv. apply Qeq_bool_iff in Hy. by rewrite Hy.
Qed.

Lemma pydiv_inv x y v : pydiv x y = Ok v -> ~ y == 0 /\ v = x / y.
Proof.
  unfold pydiv. destruct (Qeq_bool y 0) eqn:E; [discriminate|].
  intros [= <-]. split; [|reflexivity].
  intros Hy. apply Qeq_bool_iff in Hy. congruence.
Qed.

(** ** The energy setters *)

Ltac simpl_fields :=
  unfold comp, energy, total_energy, energy_pfu in *;
  cbn [fst snd description _comp _unit_comp _nom_comp stability custom_name
       _energy _total_energy _energy_pfu index phase_dict set_energy_field
       set_total_energy_field set_energy_pfu_field set_index set_phase_dict]
    in *.

Ltac unfold_M :=
  unfold mbind, mret, M_bind, M_ret, modify, get, put, lift, raise;
  cbv beta iota.

Lemma energy_set_run e p :
  energy_set e p =
    let p1 := set_total_energy_field (e * dsum (comp p)) (set_energy_field e p) in
    match pydiv e (natoms p) with
    | Ok pfu => (set_energy_pfu_field pfu p1, Ok tt)
    | Raise x => (p1, Raise x)
    end.
Proof.
  unfold energy_set, natoms. unfold_M. simpl_fields.
  destruct (pydiv e (dsum (_nom_comp p))); reflexivity.
Qed.

Lemma total_energy_set_run e p :
  total_energy_set e p =
    let p1 := set_total_energy_field e p in
    match pydiv e (dsum (comp p)) with
    | Ok per_atom =>
        let p2 := set_energy_field per_atom p1 in
        match pydiv e (natoms p) with
        | Ok pfu => (set_energy_pfu_field pfu p2, Ok tt)
        | Raise x => (p2, Raise x)
        end
    | Raise x => (p1, Raise x)
    end.
Proof.
  unfold total_energy_set, natoms. unfold_M. simpl_fields.
  destruct (pydiv e (dsum (_comp p))); cbv beta iota; simpl_fields; [|reflexivity].
  destruct (pydiv e (dsum (_nom_comp p))); reflexivity.
Qed.

(** The [total_energy] setter leaves the three views in step. *)
Lemma total_energy_set_synchronized e p :
  outcome (total_energy_set e) p = Ok tt ->
  let p' := state_after (total_energy_set e) p in
  total_energy p' == energy p' * Phase_n p' /\
  total_energy p' == energy_pfu p' * natoms p'.
Proof.
  unfold outcome, state_after. rewrite total_energy_set_run. cbn zeta.
  destruct (pydiv e (dsum (comp p))) as [a|] eqn:Ha; [|discriminate].
  destruct (pydiv e (natoms p)) as [b|] eqn:Hb; [|discriminate].
  intros _. apply pydiv_inv in Ha as [Hn ->], Hb as [Hm ->].
  unfold Phase_n, natoms in *. simpl_fields. split; field; assumption.
Qed.

(** The [energy] setter: the total follows the energy per atom, and the
    energy per formula unit is the energy per atom over the nominal count. *)
Lemma energy_set_views e p :
  outcome (energy_set e) p = Ok tt ->
  let p' := state_after (energy_set e) p in
  energy p' = e /\
  total_energy p' = e * Phase_n p /\
  energy_pfu p' * natoms p' == e.
Proof.
  unfold outcome, state_after. rewrite energy_set_run. cbn zeta.
  destruct (pydiv e (natoms p)) as [b|] eqn:Hb; [|discriminate].
  intros _. apply pydiv_inv in Hb as [Hm ->].
  unfold Phase_n, natoms in *. simpl_fields.
  split; [reflexivity|]. split; [reflexivity|]. field; assumption.
Qed.

(** ** The environment written from the specification meets it *)

Lemma qsum_cons x xs : qsum (x :: xs) = x + qsum xs.
Proof. reflexivity. Qed.

Lemma scale_down_nonzero d x :
  ~ x == 0 ->
  scale_down d x = Ok (map (fun kv => (kv.1, Qred (kv.2 / x))) d).
Proof.
  intros Hx. unfold scale_down. induction d as [|[k v] d IH]; [reflexivity|].
  cbn [mapM map fst snd]. rewrite (pydiv_ok v x Hx).
  cbn [mbind result_bind]. unfold mbind at 1.
  change (mapM ?f d) with (mapM f d) in IH |- *.
  cbn [mapM] in IH. rewrite IH. reflexivity.
Qed.

Lemma dsum_scaled d x :
  ~ x == 0 ->
  dsum (map (fun kv : string * Q => (kv.1, Qred (kv.2 / x))) d) * x == dsum d.
Proof.
  intros Hx. unfold dsum, dvalues.
  induction d as [|[k v] d IH]; cbn [map fst snd]; rewrite ?qsum_cons.
  - cbn. ring.
  - rewrite Qred_correct.
    rewrite Qmult_plus_distr_l, IH. field. assumption.
Qed.

Lemma scale_down_inv d x r :
  scale_down d x = Ok r ->
  (d = [] /\ r = []) \/
  (~ x == 0 /\ r = map (fun kv => (kv.1, Qred (kv.2 / x))) d).
Proof.
  intros H. destruct d as [|[k v] d]; [left; split; [reflexivity|]|right].
  - unfold scale_down in H. cbn in H. unfold mret, result_ret in H. congruence.
  - assert (Hx : ~ x == 0).
    { intros Hx. unfold scale_down in H. cbn [mapM fst snd] in H.
      rewrite (pydiv_zero v x Hx) in H. discriminate. }
    split; [assumption|]. rewrite (scale_down_nonzero _ _ Hx) in H. congruence.
Qed.

Lemma Qgcd_zero a b : Qgcd a b == 0 -> a == 0 /\ b == 0.
Proof.
  unfold Qgcd, Qeq. cbn [Qnum Qden]. rewrite !Z.mul_0_l, Z.mul_1_r.
  intros H. apply Z.gcd_eq_0 in H as [Ha Hb].
  split; rewrite Z.mul_1_r; nia.
Qed.

Lemma fold_Qgcd_zero vs : fold_right Qgcd 0 vs == 0 -> qsum vs == 0.
Proof.
  induction vs as [|v vs IH]; cbn [fold_right]; [reflexivity|].
  intros H. apply Qgcd_zero in H as [Hv Hr].
  rewrite qsum_cons, Hv, (IH Hr). reflexivity.
Qed.

Lemma dsum_zero_scale_down d :
  ~ dsum d == 0 -> exists r, scale_down d (dsum d) = Ok r.
Proof. intros H. eexists. by apply scale_down_nonzero. Qed.

#[global] Instance spec_env_spec : EnvSpec spec_env.
Proof.
  split.
  - intros d Hd. cbn. unfold spec_unit_comp. by apply dsum_zero_scale_down.
  - intros d Hd. cbn. unfold spec_reduce_comp. eexists.
    apply scale_down_nonzero. intros Hg. apply Hd.
    by apply fold_Qgcd_zero in Hg.
  - intros d r H. cbn in H. unfold spec_reduce_comp in H.
    apply scale_down_inv in H as [[-> ->]|[Hg ->]].
    + exists 1. split; [discriminate|reflexivity].
    + eexists. split; [exact Hg|].
      rewrite Qmult_comm. symmetry. by apply dsum_scaled.
  - intros d u H. cbn in H. unfold spec_unit_comp in H.
    apply scale_down_inv in H as [[-> ->]|[_ ->]]; [reflexivity|].
    unfold dkeys. rewrite map_map. reflexivity.
  - intros d. by eexists.
Qed.

(** ** Construction *)

Lemma Phase_init_missing `{Env} c e descr per_atom stab nm :
  c = None \/ e = None ->
  Phase_init c e descr per_atom stab nm = Raise PhaseError.
Proof. intros [-> | ->]; [|destruct c]; reflexivity. Qed.

(** The constructor on a composition and an energy, once the formula is
    parsed and the two derived forms are computed. *)
Lemma Phase_init_run `{Env} c e descr per_atom stab nm d u r :
  as_mapping c = Ok d -> unit_comp d = Ok u -> reduce_comp d = Ok r ->
  Phase_init (Some c) (Some e) descr per_atom stab nm =
    let self := mkPhase descr d u r stab (if nonempty nm then Some nm else None)
                        0 0 0 None [] in
    match (if per_atom then energy_set e else total_energy_set e) self with
    | (self, Ok _) => Ok self
    | (_, Raise x) => Raise x
    end.
Proof.
  intros Hc Hu Hr. unfold Phase_init. rewrite Hc. cbn [mbind result_bind].
  rewrite Hu. cbn [mbind result_bind]. rewrite Hr. reflexivity.
Qed.

Lemma Phase_init_zero_total {E : Env} {ES : EnvSpec E} c e descr per_atom stab nm :
  (forall d, as_mapping c = Ok d -> dsum d == 0) ->
  exists x, Phase_init (Some c) (Some e) descr per_atom stab nm = Raise x.
Proof.
  intros Hz. unfold Phase_init.
  destruct (as_mapping c) as [d|x] eqn:Hc; [|by exists x].
  specialize (Hz d eq_refl). cbn [mbind result_bind].
  destruct (unit_comp d) as [u|x] eqn:Hu; [|by exists x].
  cbn [mbind result_bind].
  destruct (reduce_comp d) as [r|x] eqn:Hr; [|by exists x].
  cbn [mbind result_bind].
  destruct per_atom.
  - rewrite energy_set_run. cbn zeta. unfold natoms. simpl_fields.
    destruct (reduce_comp_divides d r Hr) as (g & Hg & Hsum).
    assert (Hnom : dsum r == 0).
    { rewrite Hz in Hsum. symmetry in Hsum.
      apply Qmult_integral in Hsum as [?|?]; [contradiction|assumption]. }
    rewrite (pydiv_zero _ _ Hnom). by eexists.
  - rewrite total_energy_set_run. cbn zeta. simpl_fields.
    rewrite (pydiv_zero _ _ Hz). by eexists.
Qed.

(** C8. The constructor raises [PhaseError] when the composition or the
    energy is [None], and construction fails (an exception is raised in
    place of a phase) whenever the amounts of the composition, given as a
    mapping or as a formula, add up to zero; an empty composition is the
    case of no amounts at all. *)
Theorem Phase_init_rejects {E : Env} {ES : EnvSpec E} :
  (forall c e descr per_atom stab nm,
      c = None \/ e = None ->
      Phase_init c e descr per_atom stab nm = Raise PhaseError) /\
  (forall c e descr per_atom stab nm,
      (forall d, as_mapping c = Ok d -> dsum d == 0) ->
      exists x, Phase_init (Some c) (Some e) descr per_atom stab nm = Raise x) /\
  (forall e descr per_atom stab nm,
      exists x,
        Phase_init (Some (CompDict [])) (Some e) descr per_atom stab nm = Raise x).
Proof.
  split; [|split].
  - intros. by apply Phase_init_missing.
  - intros. by apply Phase_init_zero_total.
  - intros. apply Phase_init_zero_total. intros d [= <-]. reflexivity.
Qed.

Lemma Phase_init_rejects_witness :
  Phase_init None (Some 1) "" true None "" = Raise PhaseError /\
  Phase_init (Some (CompDict Fe2O3)) None "" true None "" = Raise PhaseError /\
  (exists x, Phase_init (Some (CompDict [("Fe"%string, 0); ("O"%string, 0)]))
               (Some (-1)) "" true None "" = Raise x) /\
  (exists x, Phase_init (Some (CompDict [])) (Some (-1)) "" false None ""
             = Raise x).
Proof.
  destruct (Phase_init_rejects (ES := spec_env_spec)) as (H1 & H2 & H3).
  split; [apply H1; by left|].
  split; [apply H1; by right|].
  split; [|apply H3].
  apply H2. intros d [= <-]. reflexivity.
Defined.

(** C1. [Phase({'Fe': 2, 'O': 3}, -1)] assigns [energy]: afterwards
    [total_energy] is [energy * n_atoms = -5] while
    [energy_pfu * n_nominal_atoms] is [-1].  Assigning [energy_pfu = 7] to
    that phase changes neither [energy] nor [total_energy], and
    [energy_pfu * n_nominal_atoms] is then [35]. *)
Theorem energy_views_out_of_step :
  exists p,
    Fe2O3_phase (-1) = Ok p /\
    total_energy p == -5 /\
    energy p * Phase_n p == -5 /\
    energy_pfu p * natoms p == -1 /\
    ~ total_energy p == energy_pfu p * natoms p /\
    let p' := state_after (energy_pfu_set 7) p in
    outcome (energy_pfu_set 7) p = Ok tt /\
    energy p' = energy p /\
    total_energy p' = total_energy p /\
    energy_pfu p' * natoms p' == 35 /\
    ~ total_energy p' == energy_pfu p' * natoms p'.
Proof.
  eexists. split; [vm_compute; reflexivity|].
  repeat split; try reflexivity; vm_compute; discriminate.
Qed.

(** C6. On a mapping with one entry [from_phases] subscripts the view
    [phase_dict.keys()], which raises [TypeError]: no phase is returned. *)
Theorem from_phases_single_entry `{Env} (p : Phase) (amount : Q) :
  from_phases [(p, amount)] = Raise TypeError.
Proof. reflexivity. Qed.

(** ** Equality of phases *)

Lemma Qltb_true x y : Qltb x y = true <-> x < y.
Proof.
  unfold Qltb. rewrite negb_true_iff, <- not_true_iff_false, Qle_bool_iff.
  split; [apply Qnot_le_lt|apply Qlt_not_le].
Qed.

Lemma Qltb_false x y : Qltb x y = false <-> y <= x.
Proof. unfold Qltb. by rewrite negb_false_iff, Qle_bool_iff. Qed.

Lemma existsb_eqb_elem_of (k : string) (l : list string) :
  existsb (String.eqb k) l = true <-> k ∈ l.
Proof.
  rewrite existsb_exists, list_elem_of_In. split.
  - intros (x & Hx & Heq). apply String.eqb_eq in Heq. by subst.
  - intros Hk. exists k. split; [assumption|apply String.eqb_refl].
Qed.

Lemma keyset_eqb_spec a b :
  keyset_eqb a b = true <-> forall k, k ∈ a <-> k ∈ b.
Proof.
  unfold keyset_eqb. rewrite andb_true_iff, !forallb_forall. split.
  - intros [Hab Hba] k. split; intros Hk.
    + apply existsb_eqb_elem_of, Hab. by apply list_elem_of_In.
    + apply existsb_eqb_elem_of, Hba. by apply list_elem_of_In.
  - intros H. split; intros k Hk; apply existsb_eqb_elem_of, H;
      by apply list_elem_of_In.
Qed.

Lemma unit_comps_close_spec mine theirs ks :
  unit_comps_close mine theirs ks = Ok true <->
  forall k, k ∈ ks ->
    exists u v, dget mine k = Some u /\ dget theirs k = Some v /\
                Qabs (u - v) <= tol.
Proof.
  induction ks as [|key ks IH]; cbn [unit_comps_close].
  - split; [|reflexivity]. intros _ k Hk. by apply elem_of_nil in Hk.
  - unfold dgetitem at 1 2. split.
    + destruct (dget mine key) as [u|] eqn:Hu; [|discriminate].
      destruct (dget theirs key) as [v|] eqn:Hv; [|discriminate].
      cbn [mbind result_bind].
      destruct (Qltb tol (Qabs (u - v))) eqn:Hc; [discriminate|].
      intros Hrest k Hk. apply elem_of_cons in Hk as [->|Hk].
      * exists u, v. by rewrite <- Qltb_false.
      * by apply IH.
    + intros H. destruct (H key) as (u & v & -> & -> & Hclose);
        [apply elem_of_cons; by left|].
      cbn [mbind result_bind]. apply Qltb_false in Hclose. rewrite Hclose.
      apply IH. intros k Hk. apply H, elem_of_cons. by right.
Qed.



(** ** Sets of phases *)

Lemma name_set_index `{Env} i p : name (set_index i p) = name p.
Proof. destruct p. reflexivity. Qed.

Lemma set_find_app_true `{Env} s s' h q :
  set_find s h q = Ok true -> set_find (s ++ s') h q = Ok true.
Proof.
  induction s as [|[h' x] s IH]; cbn [set_find app]; [discriminate|].
  destruct (hash_eqb h' h); [|exact IH].
  destruct (Phase_eq x q) as [[]|]; cbn [mbind result_bind];
    [reflexivity|exact IH|discriminate].
Qed.

Lemma holds_app `{Env} s s' q : holds s q -> holds (s ++ s') q.
Proof.
  unfold holds, set_contains, set_elements. intros [Hq|Hq].
  - left. rewrite map_app. apply elem_of_app. by left.
  - right. destruct (Phase_hash q) as [h|]; [|discriminate].
    cbn [mbind result_bind] in *. by apply set_find_app_true.
Qed.

(** [s.add(p)] leaves the set as it was when it finds [p], and appends [p]
    otherwise. *)
Lemma set_add_inv `{Env} s p s' :
  set_add s p = Ok s' ->
  (s' = s /\ set_contains s p = Ok true) \/
  (exists h, Phase_hash p = Ok h /\ s' = s ++ [(h, p)]).
Proof.
  unfold set_add, set_contains.
  destruct (Phase_hash p) as [h|]; [|discriminate]. cbn [mbind result_bind].
  destruct (set_find s h p) as [[]|]; cbn [mbind result_bind];
    intros [= <-]; [left|right]; eauto.
Qed.

Lemma set_add_prefix `{Env} s p s' : set_add s p = Ok s' -> s `prefix_of` s'.
Proof.
  intros Hadd. apply set_add_inv in Hadd as [[-> _]|(h & _ & ->)].
  - reflexivity.
  - by apply prefix_app_r.
Qed.

Lemma set_add_holds `{Env} s p s' : set_add s p = Ok s' -> holds s' p.
Proof.
  intros Hadd. apply set_add_inv in Hadd as [[-> Hc]|(h & _ & ->)].
  - by right.
  - left. unfold set_elements. rewrite map_app. apply elem_of_app. right.
    apply list_elem_of_singleton. reflexivity.
Qed.

Lemma set_add_elements `{Env} s p s' q :
  set_add s p = Ok s' -> q ∈ set_elements s' -> q ∈ set_elements s \/ q = p.
Proof.
  intros Hadd. apply set_add_inv in Hadd as [[-> _]|(h & _ & ->)]; [by left|].
  unfold set_elements. rewrite map_app. intros Hq.
  apply elem_of_app in Hq as [Hq|Hq]; [by left|right].
  by apply list_elem_of_singleton in Hq.
Qed.

Lemma holds_prefix `{Env} s s' q : s `prefix_of` s' -> holds s q -> holds s' q.
Proof. intros [t ->]. apply holds_app. Qed.

(** ** Adding under a list of keys *)

Section bucket_adds.
Context `{Env} `{Countable K}.

Lemma bucket_insert_eq (m : gmap K pyset) k s : bucket (<[k := s]> m) k = s.
Proof. unfold bucket. by rewrite lookup_insert_eq. Qed.

Lemma bucket_insert_ne (m : gmap K pyset) k k' s :
  k ≠ k' -> bucket (<[k := s]> m) k' = bucket m k'.
Proof. intros Hne. unfold bucket. by rewrite lookup_insert_ne. Qed.

(** Every set only grows, at its end. *)
Lemma bucket_adds_prefix p ks (m m' : gmap K pyset) k :
  bucket_adds p ks m m' -> bucket m k `prefix_of` bucket m' k.
Proof.
  induction 1 as [m|k0 ks m s m' Hadd _ IH]; [reflexivity|].
  etrans; [|exact IH].
  destruct (decide (k0 = k)) as [->|Hne].
  - rewrite bucket_insert_eq. by eapply set_add_prefix.
  - by rewrite bucket_insert_ne.
Qed.

(** Under every listed key the phase is in the set afterwards. *)
Lemma bucket_adds_holds p ks (m m' : gmap K pyset) k :
  bucket_adds p ks m m' -> k ∈ ks -> holds (bucket m' k) p.
Proof.
  induction 1 as [m|k0 ks m s m' Hadd Hrest IH]; intros Hk.
  - by apply elem_of_nil in Hk.
  - destruct (decide (k0 = k)) as [->|Hne].
    + eapply holds_prefix; [eapply bucket_adds_prefix, Hrest|].
      rewrite bucket_insert_eq. by eapply set_add_holds.
    + apply IH. apply elem_of_cons in Hk as [->|Hk]; [done|exact Hk].
Qed.

(** An element of a set afterwards was there before, or is the phase
    added, under a listed key. *)
Lemma bucket_adds_elements p ks (m m' : gmap K pyset) k q :
  bucket_adds p ks m m' ->
  q ∈ set_elements (bucket m' k) ->
  q ∈ set_elements (bucket m k) \/ (q = p /\ k ∈ ks).
Proof.
  induction 1 as [m|k0 ks m s m' Hadd _ IH]; [by left|].
  intros Hq. destruct (IH Hq) as [Hq'|[-> Hk]].
  - destruct (decide (k0 = k)) as [->|Hne].
    + rewrite bucket_insert_eq in Hq'.
      destruct (set_add_elements _ _ _ _ Hadd Hq') as [?| ->]; [by left|].
      right. split; [reflexivity|]. apply elem_of_cons. by left.
    + rewrite bucket_insert_ne in Hq' by done. by left.
  - right. split; [reflexivity|]. apply elem_of_cons. by right.
Qed.
End bucket_adds.

(** ** The steps of [add_phase] *)

Lemma for_each_cons_ok {S A} (x : A) xs (body : A -> M S unit) s s' :
  for_each (x :: xs) body s = (s', Ok tt) ->
  exists s1, body x s = (s1, Ok tt) /\ for_each xs body s1 = (s', Ok tt).
Proof.
  cbn [for_each]. unfold mbind, M_bind.
  destruct (body x s) as [s1 [[]|e]]; [|discriminate]. eauto.
Qed.

Lemma keep_lowest_run nm p pd :
  PhaseData.keep_lowest nm p pd =
    (match PhaseData.phase_dict pd !! nm with
     | None => PhaseData.set_phase_dict_item nm p pd
     | Some held =>
         if Qltb (energy p) (energy held)
         then PhaseData.set_phase_dict_item nm p pd else pd
     end, Ok tt).
Proof.
  unfold PhaseData.keep_lowest. unfold_M.
  destruct (PhaseData.phase_dict pd !! nm) as [held|]; [|reflexivity].
  destruct (Qltb (energy p) (energy held)); reflexivity.
Qed.

Lemma by_elt_add_ok `{Env} elt p pd pd' :
  PhaseData.by_elt_add elt p pd = (pd', Ok tt) ->
  exists s,
    set_add (bucket (PhaseData.phases_by_elt pd) elt) p = Ok s /\
    pd' = PhaseData.mk (PhaseData._phases pd)
            (<[elt := s]> (PhaseData.phases_by_elt pd))
            (PhaseData.phases_by_dim pd) (PhaseData.phase_dict pd)
            (PhaseData.space pd).
Proof.
  unfold PhaseData.by_elt_add, bucket, PhaseData.by_elt_default, PhaseData.set_by_elt.
  unfold_M.
  destruct (PhaseData.phases_by_elt pd !! elt) as [s0|] eqn:Hm;
    cbv beta iota;
    cbn [PhaseData.phases_by_elt PhaseData._phases PhaseData.phases_by_dim
         PhaseData.phase_dict PhaseData.space].
  - rewrite Hm. cbn [default from_option id].
    destruct (set_add s0 p) as [s|]; [|discriminate].
    intros [= <-]. by exists s.
  - rewrite lookup_insert_eq. cbn [default from_option id].
    destruct (set_add [] p) as [s|]; [|discriminate].
    intros [= <-]. exists s. by rewrite insert_insert_eq.
Qed.

Lemma by_dim_add_ok `{Env} d p pd pd' :
  PhaseData.by_dim_add d p pd = (pd', Ok tt) ->
  exists s,
    set_add (bucket (PhaseData.phases_by_dim pd) d) p = Ok s /\
    pd' = PhaseData.mk (PhaseData._phases pd) (PhaseData.phases_by_elt pd)
            (<[d := s]> (PhaseData.phases_by_dim pd)) (PhaseData.phase_dict pd)
            (PhaseData.space pd).
Proof.
  unfold PhaseData.by_dim_add, bucket, PhaseData.by_dim_default, PhaseData.set_by_dim.
  unfold_M.
  destruct (PhaseData.phases_by_dim pd !! d) as [s0|] eqn:Hm;
    cbv beta iota;
    cbn [PhaseData.phases_by_elt PhaseData._phases PhaseData.phases_by_dim
         PhaseData.phase_dict PhaseData.space].
  - rewrite Hm. cbn [default from_option id].
    destruct (set_add s0 p) as [s|]; [|discriminate].
    intros [= <-]. by exists s.
  - rewrite lookup_insert_eq. cbn [default from_option id].
    destruct (set_add [] p) as [s|]; [|discriminate].
    intros [= <-]. exists s. by rewrite insert_insert_eq.
Qed.

Lemma by_elt_loop_ok `{Env} ks p pd pd' :
  for_each ks (fun elt => PhaseData.by_elt_add elt p) pd = (pd', Ok tt) ->
  exists m',
    bucket_adds p ks (PhaseData.phases_by_elt pd) m' /\
    pd' = PhaseData.mk (PhaseData._phases pd) m'
            (PhaseData.phases_by_dim pd) (PhaseData.phase_dict pd)
            (PhaseData.space pd).
Proof.
  revert pd. induction ks as [|k ks IH]; intros pd.
  - cbn. intros [= <-]. exists (PhaseData.phases_by_elt pd).
    split; [constructor|by destruct pd].
  - intros Hrun. apply for_each_cons_ok in Hrun as (pd1 & Hstep & Hrest).
    apply by_elt_add_ok in Hstep as (s & Hadd & ->).
    apply IH in Hrest as (m' & Hadds & ->). cbn in *.
    exists m'. split; [|reflexivity]. econstructor; eassumption.
Qed.

Ltac simpl_pd :=
  cbn [PhaseData._phases PhaseData.phases_by_elt PhaseData.phases_by_dim
       PhaseData.phase_dict PhaseData.space PhaseData.append_phase
       PhaseData.set_phase_dict_item PhaseData.union_space fst snd] in *.

(** [keep_lowest] touches [phase_dict] alone. *)
Lemma keep_lowest_fields nm p pd :
  let pd0 := (PhaseData.keep_lowest nm p pd).1 in
  (PhaseData.keep_lowest nm p pd).2 = Ok tt /\
  PhaseData._phases pd0 = PhaseData._phases pd /\
  PhaseData.phases_by_elt pd0 = PhaseData.phases_by_elt pd /\
  PhaseData.phases_by_dim pd0 = PhaseData.phases_by_dim pd /\
  PhaseData.space pd0 = PhaseData.space pd /\
  PhaseData.phase_dict pd0 =
    match PhaseData.phase_dict pd !! nm with
    | None => <[nm := p]> (PhaseData.phase_dict pd)
    | Some held =>
        if Qltb (energy p) (energy held)
        then <[nm := p]> (PhaseData.phase_dict pd)
        else PhaseData.phase_dict pd
    end.
Proof.
  rewrite keep_lowest_run. simpl_pd.
  destruct (PhaseData.phase_dict pd !! nm) as [held|]; [|by repeat split].
  destruct (Qltb (energy p) (energy held)); by repeat split.
Qed.

(** What a call of [add_phase] that returns has done. *)
Lemma add_phase_ok `{Env} phase pd pd' :
  PhaseData.add_phase phase pd = (pd', Ok tt) ->
  let p := set_index (S (length (PhaseData._phases pd))) phase in
  exists nm by_elt by_dim,
    name phase = Ok nm /\
    bucket_adds p (dkeys (comp p)) (PhaseData.phases_by_elt pd) by_elt /\
    bucket_adds p [length (comp p)] (PhaseData.phases_by_dim pd) by_dim /\
    pd' = PhaseData.mk
            (PhaseData._phases pd ++ [p]) by_elt by_dim
            (match PhaseData.phase_dict pd !! nm with
             | None => <[nm := p]> (PhaseData.phase_dict pd)
             | Some held =>
                 if Qltb (energy p) (energy held)
                 then <[nm := p]> (PhaseData.phase_dict pd)
                 else PhaseData.phase_dict pd
             end)
            (PhaseData.space pd ∪ list_to_set (dkeys (comp p))).
Proof.
  intros Hrun p. unfold PhaseData.add_phase in Hrun.
  unfold mbind at 1, M_bind at 1, lift at 1 in Hrun.
  destruct (name phase) as [nm|] eqn:Hnm; [|discriminate].
  unfold mbind at 1, M_bind at 1, get at 1 in Hrun. cbv zeta in Hrun.
  fold p in Hrun.
  unfold mbind at 1, M_bind at 1 in Hrun.
  destruct (keep_lowest_fields nm p pd) as (Hok & F1 & F2 & F3 & F4 & F5).
  destruct (PhaseData.keep_lowest nm p pd) as [pd0 r0]. simpl_pd. subst r0.
  unfold mbind at 1, M_bind at 1, modify at 1 in Hrun.
  unfold mbind at 1, M_bind at 1 in Hrun.
  match type of Hrun with
  | context [for_each ?ks ?body ?s] =>
      destruct (for_each ks body s) as [pd1 [[]|]] eqn:Hloop; [|discriminate]
  end.
  apply by_elt_loop_ok in Hloop as (by_elt & Helt & ->).
  unfold mbind at 1, M_bind at 1 in Hrun.
  match type of Hrun with
  | context [PhaseData.by_dim_add ?d ?q ?s] =>
      destruct (PhaseData.by_dim_add d q s) as [pd2 [[]|]] eqn:Hdim;
        [|discriminate]
  end.
  apply by_dim_add_ok in Hdim as (s & Hadd & ->).
  unfold modify in Hrun. simpl_pd. injection Hrun as <-.
  rewrite F1, F3, F4, F5. rewrite F2 in Helt. rewrite F3 in Hadd.
  exists nm, by_elt, (<[length (comp p) := s]> (PhaseData.phases_by_dim pd)).
  split; [reflexivity|]. split; [exact Helt|]. split; [|reflexivity].
  econstructor; [exact Hadd|constructor].
Qed.

(** ** The indexes after a sequence of calls *)

Lemma lookup_snoc_Some {A} (l : list A) x k y :
  (l ++ [x]) !! k = Some y <-> l !! k = Some y \/ (k = length l /\ y = x).
Proof.
  rewrite lookup_app_Some, list_lookup_singleton_Some. split.
  - intros [?|(Hle & Hk & ->)]; [by left|right]. split; [lia|reflexivity].
  - intros [?|[-> ->]]; [by left|right]. split; [lia|]. split; [lia|reflexivity].
Qed.

Lemma added_snoc ps p j q :
  added (ps ++ [p]) j q <->
  added ps j q \/ (j = length ps /\ same_phase p q).
Proof.
  unfold added. split.
  - intros (p0 & Hj & Hq). apply lookup_snoc_Some in Hj as [Hj|[-> ->]].
    + left. by exists p0.
    + by right.
  - intros [(p0 & Hj & Hq)|[-> Hq]].
    + exists p0. split; [|exact Hq]. apply lookup_snoc_Some. by left.
    + exists p. split; [|exact Hq]. apply lookup_snoc_Some. by right.
Qed.

Lemma indexed_length `{Env} ps pd :
  indexed ps pd -> length (PhaseData._phases pd) = length ps.
Proof. intros [Hps _ _ _ _ _ _]. symmetry. by eapply Forall2_length. Qed.

Lemma indexed_init `{Env} : indexed [] PhaseData.init.
Proof.
  split; cbn.
  - constructor.
  - intros nm _ p Hp. by apply elem_of_nil in Hp.
  - intros nm q Hq. by rewrite lookup_empty in Hq.
  - intros elt q. unfold bucket. rewrite lookup_empty. cbn.
    intros Hq. by apply elem_of_nil in Hq.
  - intros elt j p Hj. by rewrite lookup_nil in Hj.
  - intros d q. unfold bucket. rewrite lookup_empty. cbn.
    intros Hq. by apply elem_of_nil in Hq.
  - intros d j p Hj. by rewrite lookup_nil in Hj.
Qed.

Lemma added_lt ps j q : added ps j q -> (j < length ps)%nat.
Proof. intros (p & Hj & _). by eapply lookup_lt_Some. Qed.

Lemma same_phase_set_index i p : same_phase p (set_index i p).
Proof. by exists i. Qed.

(** The entry of [phase_dict] under the name of the phase added. *)
Lemma dict_step_same `{Env} ps pd p nm :
  indexed ps pd -> name p = Ok nm ->
  let p' := set_index (S (length ps)) p in
  forall D' q,
    D' = match PhaseData.phase_dict pd !! nm with
         | None => <[nm := p']> (PhaseData.phase_dict pd)
         | Some held =>
             if Qltb (energy p') (energy held)
             then <[nm := p']> (PhaseData.phase_dict pd)
             else PhaseData.phase_dict pd
         end ->
    D' !! nm = Some q ->
    exists j, added (ps ++ [p]) j q /\ name q = Ok nm /\
      forall k p'', (ps ++ [p]) !! k = Some p'' -> name p'' = Ok nm ->
        energy q <= energy p'' /\ ((k < j)%nat -> energy q < energy p'').
Proof.
  intros Hinv Hnm p' D' q -> Hq.
  assert (Hp' : added (ps ++ [p]) (length ps) p').
  { apply added_snoc. right. split; [reflexivity|apply same_phase_set_index]. }
  assert (Hnm' : name p' = Ok nm) by (unfold p'; by rewrite name_set_index).
  destruct (PhaseData.phase_dict pd !! nm) as [held|] eqn:Hheld.
  - destruct (ix_dict_some _ _ Hinv nm held Hheld) as (j0 & Hj0 & Hn0 & Hmin).
    destruct (Qltb (energy p') (energy held)) eqn:Hlt.
    + rewrite lookup_insert_eq in Hq. injection Hq as <-.
      apply Qltb_true in Hlt.
      exists (length ps). split; [exact Hp'|]. split; [exact Hnm'|].
      intros k p'' Hk Hn''. apply lookup_snoc_Some in Hk as [Hk|[-> ->]].
      * destruct (Hmin k p'' Hk Hn'') as [Hle _].
        split; [|intros _]; [apply Qlt_le_weak|]; eapply Qlt_le_trans; eauto.
      * split; [apply Qle_refl|lia].
    + rewrite Hheld in Hq. injection Hq as <-.
      apply Qltb_false in Hlt.
      exists j0. split; [apply added_snoc; by left|]. split; [exact Hn0|].
      intros k p'' Hk Hn''. apply lookup_snoc_Some in Hk as [Hk|[-> ->]].
      * by apply Hmin.
      * split; [exact Hlt|]. apply added_lt in Hj0. lia.
  - rewrite lookup_insert_eq in Hq. injection Hq as <-.
    exists (length ps). split; [exact Hp'|]. split; [exact Hnm'|].
    intros k p'' Hk Hn''. apply lookup_snoc_Some in Hk as [Hk|[-> ->]].
    + exfalso. eapply (ix_dict_none _ _ Hinv nm Hheld p''); [|exact Hn''].
      apply list_elem_of_lookup. by exists k.
    + split; [apply Qle_refl|lia].
Qed.

(** An entry under another name is the one held before. *)
Lemma dict_step_other pd p' nm nm' :
  nm <> nm' ->
  forall D',
    D' = match PhaseData.phase_dict pd !! nm with
         | None => <[nm := p']> (PhaseData.phase_dict pd)
         | Some held =>
             if Qltb (energy p') (energy held)
             then <[nm := p']> (PhaseData.phase_dict pd)
             else PhaseData.phase_dict pd
         end ->
    D' !! nm' = PhaseData.phase_dict pd !! nm'.
Proof.
  intros Hne D' ->.
  destruct (PhaseData.phase_dict pd !! nm) as [held|];
    [destruct (Qltb (energy p') (energy held))|];
    by rewrite ?lookup_insert_ne.
Qed.

(** [add_phase] keeps the indexes in step with the phases added. *)
Lemma indexed_add_phase `{Env} ps pd p pd' :
  indexed ps pd ->
  PhaseData.add_phase p pd = (pd', Ok tt) ->
  indexed (ps ++ [p]) pd'.
Proof.
  intros Hinv Hrun. pose proof (indexed_length _ _ Hinv) as Hlen.
  apply add_phase_ok in Hrun. cbv zeta in Hrun. rewrite Hlen in Hrun.
  destruct Hrun as (nm & by_elt & by_dim & Hnm & Helt & Hdim & ->).
  set (p' := set_index (S (length ps)) p) in *.
  assert (Hsame : same_phase p p') by apply same_phase_set_index.
  assert (Hp' : added (ps ++ [p]) (length ps) p').
  { apply added_snoc. right. by split. }
  split; simpl_pd.
  - apply Forall2_app; [exact (ix_phases _ _ Hinv)|]. by repeat constructor.
  - intros nm' Hnone q Hq.
    destruct (decide (nm = nm')) as [<-|Hne].
    + exfalso. destruct (PhaseData.phase_dict pd !! nm) as [held|] eqn:Hheld;
        [destruct (Qltb (energy p') (energy held))|];
        rewrite ?lookup_insert_eq, ?Hheld in Hnone; discriminate.
    + rewrite (dict_step_other pd p' nm nm' Hne _ eq_refl) in Hnone.
      apply elem_of_app in Hq as [Hq|Hq].
      * by apply (ix_dict_none _ _ Hinv nm' Hnone).
      * apply list_elem_of_singleton in Hq as ->. congruence.
  - intros nm' q Hq. destruct (decide (nm = nm')) as [<-|Hne].
    + by eapply (dict_step_same ps pd p nm Hinv Hnm).
    + rewrite (dict_step_other pd p' nm nm' Hne _ eq_refl) in Hq.
      destruct (ix_dict_some _ _ Hinv nm' q Hq) as (j & Hj & Hn & Hmin).
      exists j. split; [apply added_snoc; by left|]. split; [exact Hn|].
      intros k p'' Hk Hn''. apply lookup_snoc_Some in Hk as [Hk|[-> ->]].
      * by apply Hmin.
      * congruence.
  - intros elt q Hq.
    destruct (bucket_adds_elements _ _ _ _ elt q Helt Hq) as [Hold|[-> Hk]].
    + destruct (ix_elt_sound _ _ Hinv elt q Hold) as (j & Hj & Hin).
      exists j. split; [apply added_snoc; by left|exact Hin].
    + by exists (length ps).
  - intros elt j p0 Hj Hin. apply lookup_snoc_Some in Hj as [Hj|[-> ->]].
    + destruct (ix_elt_complete _ _ Hinv elt j p0 Hj Hin) as (q & Hq & Hholds).
      exists q. split; [exact Hq|].
      eapply holds_prefix; [by eapply bucket_adds_prefix|exact Hholds].
    + exists p'. split; [exact Hsame|]. by eapply bucket_adds_holds.
  - intros d q Hq.
    destruct (bucket_adds_elements _ _ _ _ d q Hdim Hq) as [Hold|[-> Hk]].
    + destruct (ix_dim_sound _ _ Hinv d q Hold) as (j & Hj & Hin).
      exists j. split; [apply added_snoc; by left|exact Hin].
    + exists (length ps). split; [exact Hp'|].
      by apply list_elem_of_singleton in Hk.
  - intros d j p0 Hj Hd. apply lookup_snoc_Some in Hj as [Hj|[-> ->]].
    + destruct (ix_dim_complete _ _ Hinv d j p0 Hj Hd) as (q & Hq & Hholds).
      exists q. split; [exact Hq|].
      eapply holds_prefix; [by eapply bucket_adds_prefix|exact Hholds].
    + exists p'. split; [exact Hsame|].
      eapply bucket_adds_holds; [exact Hdim|].
      apply list_elem_of_singleton. by rewrite <- Hd.
Qed.

Lemma indexed_add_phases `{Env} ps pd ps0 pd0 :
  indexed ps0 pd0 ->
  PhaseData.add_phases ps pd0 = (pd, Ok tt) ->
  indexed (ps0 ++ ps) pd.
Proof.
  unfold PhaseData.add_phases. revert ps0 pd0.
  induction ps as [|p ps IH]; intros ps0 pd0 Hinv Hrun.
  - cbn in Hrun. injection Hrun as <-. by rewrite app_nil_r.
  - apply for_each_cons_ok in Hrun as (pd1 & Hstep & Hrest).
    rewrite (cons_middle p ps0 ps), app_assoc.
    eapply IH; [|exact Hrest]. by eapply indexed_add_phase.
Qed.

Lemma indexed_after `{Env} ps pd :
  PhaseData.add_phases ps PhaseData.init = (pd, Ok tt) -> indexed ps pd.
Proof. intros Hrun. by apply (indexed_add_phases ps pd [] _ indexed_init). Qed.

(** C2. After [add_phase] has been called on the phases [ps] in turn,
    [phases] lists every one of them in the order of the calls; and for
    every name of a phase of [ps], [phase_dict] holds under that name a
    phase of [ps] with that name whose energy is at most that of every
    phase of [ps] with the name, and strictly below that of every one added
    before it: on a tie the earlier phase is kept. *)
Theorem phase_dict_lowest_energy `{Env} (ps : list Phase) (pd : PhaseData.t) :
  PhaseData.add_phases ps PhaseData.init = (pd, Ok tt) ->
  Forall2 same_phase ps (PhaseData.phases pd) /\
  length (PhaseData.phases pd) = length ps /\
  forall i p nm, ps !! i = Some p -> name p = Ok nm ->
    exists j q,
      PhaseData.phase_dict pd !! nm = Some q /\
      added ps j q /\ name q = Ok nm /\
      forall k p', ps !! k = Some p' -> name p' = Ok nm ->
        energy q <= energy p' /\ ((k < j)%nat -> energy q < energy p').
Proof.
  intros Hrun. apply indexed_after in Hrun as Hinv.
  split; [exact (ix_phases _ _ Hinv)|].
  split; [exact (indexed_length _ _ Hinv)|].
  intros i p nm Hi Hnm.
  destruct (PhaseData.phase_dict pd !! nm) as [q|] eqn:Hq.
  - destruct (ix_dict_some _ _ Hinv nm q Hq) as (j & Hj & Hn & Hmin).
    by exists j, q.
  - exfalso. eapply (ix_dict_none _ _ Hinv nm Hq p); [|exact Hnm].
    apply list_elem_of_lookup. by exists i.
Qed.

Lemma phase_dict_lowest_energy_witness :
  let ps := built (Fe2O3_phase (-3)) ++ built (Fe2O3_phase (-5)) in
  let pd := (PhaseData.add_phases ps PhaseData.init).1 in
  PhaseData.add_phases ps PhaseData.init = (pd, Ok tt) /\
  (Forall2 same_phase ps (PhaseData.phases pd) /\
   length (PhaseData.phases pd) = length ps /\
   forall i p nm, ps !! i = Some p -> name p = Ok nm ->
     exists j q,
       PhaseData.phase_dict pd !! nm = Some q /\
       added ps j q /\ name q = Ok nm /\
       forall k p', ps !! k = Some p' -> name p' = Ok nm ->
         energy q <= energy p' /\ ((k < j)%nat -> energy q < energy p')).
Proof.
  intros ps pd.
  assert (Hrun : PhaseData.add_phases ps PhaseData.init = (pd, Ok tt))
    by (vm_compute; reflexivity).
  split; [exact Hrun|exact (phase_dict_lowest_energy ps pd Hrun)].
Defined.

(** C4, as the code has it.  After [add_phase] has been called on the
    phases [ps] in turn: every element of [phases_by_elt[E]] is one of the
    phases added and has [E] among the keys of its composition, whatever
    the amount; every phase added that has the key [E] is in
    [phases_by_elt[E]]; and [phases_by_dim[d]] relates in the same way to
    the phases whose composition has [d] keys. *)
Theorem phases_by_key `{Env} (ps : list Phase) (pd : PhaseData.t) :
  PhaseData.add_phases ps PhaseData.init = (pd, Ok tt) ->
  (forall elt q,
      q ∈ set_elements (bucket (PhaseData.phases_by_elt pd) elt) ->
      exists j, added ps j q /\ elt ∈ dkeys (comp q)) /\
  (forall elt j p,
      ps !! j = Some p -> elt ∈ dkeys (comp p) ->
      exists q, same_phase p q /\
                holds (bucket (PhaseData.phases_by_elt pd) elt) q) /\
  (forall d q,
      q ∈ set_elements (bucket (PhaseData.phases_by_dim pd) d) ->
      exists j, added ps j q /\ length (comp q) = d) /\
  (forall d j p,
      ps !! j = Some p -> length (comp p) = d ->
      exists q, same_phase p q /\
                holds (bucket (PhaseData.phases_by_dim pd) d) q).
Proof.
  intros Hrun. apply indexed_after in Hrun as Hinv.
  split; [exact (ix_elt_sound _ _ Hinv)|].
  split; [exact (ix_elt_complete _ _ Hinv)|].
  split; [exact (ix_dim_sound _ _ Hinv)|exact (ix_dim_complete _ _ Hinv)].
Qed.

Lemma phases_by_key_witness :
  let ps := built (Fe2O3_phase (-3)) ++ built Fe_alone in
  let pd := (PhaseData.add_phases ps PhaseData.init).1 in
  PhaseData.add_phases ps PhaseData.init = (pd, Ok tt) /\
  ((forall elt q,
       q ∈ set_elements (bucket (PhaseData.phases_by_elt pd) elt) ->
       exists j, added ps j q /\ elt ∈ dkeys (comp q)) /\
   (forall elt j p,
       ps !! j = Some p -> elt ∈ dkeys (comp p) ->
       exists q, same_phase p q /\
                 holds (bucket (PhaseData.phases_by_elt pd) elt) q) /\
   (forall d q,
       q ∈ set_elements (bucket (PhaseData.phases_by_dim pd) d) ->
       exists j, added ps j q /\ length (comp q) = d) /\
   (forall d j p,
       ps !! j = Some p -> length (comp p) = d ->
       exists q, same_phase p q /\
                 holds (bucket (PhaseData.phases_by_dim pd) d) q)).
Proof.
  intros ps pd.
  assert (Hrun : PhaseData.add_phases ps PhaseData.init = (pd, Ok tt))
    by (vm_compute; reflexivity).
  split; [exact Hrun|exact (phases_by_key ps pd Hrun)].
Defined.

(** C4, as the specification words it, fails: after
    [add_phase(Phase({'Fe': 1, 'O': 0}, -1))] the set [phases_by_elt['O']]
    has an element, and the amount of O in it is zero. *)
Lemma phases_by_elt_zero_amount :
  let ps := built Fe_with_zero_O in
  exists pd q,
    PhaseData.add_phases ps PhaseData.init = (pd, Ok tt) /\
    q ∈ set_elements (bucket (PhaseData.phases_by_elt pd) "O"%string) /\
    added ps 0 q /\
    dget (comp q) "O" = Some 0.
Proof.
  intros ps. eexists. eexists.
  split; [vm_compute; reflexivity|].
  split; [apply list_elem_of_singleton; reflexivity|].
  split; [|reflexivity].
  eexists. split; [reflexivity|]. by exists 1%nat.
Qed.

(** ** Dictionaries *)

Lemma dget_dset_eq d k v : dget (dset d k v) k = Some v.
Proof.
  induction d as [|[k' v'] d IH]; cbn [dset dget].
  - by rewrite String.eqb_refl.
  - destruct (String.eqb k' k) eqn:E; cbn [dget]; rewrite E; [reflexivity|exact IH].
Qed.

Lemma dget_dset_ne d k k' v : k <> k' -> dget (dset d k v) k' = dget d k'.
Proof.
  intros Hne. induction d as [|[k0 v0] d IH]; cbn [dset dget].
  - apply String.eqb_neq in Hne. by rewrite Hne.
  - destruct (String.eqb k0 k) eqn:E; cbn [dget].
    + apply String.eqb_eq in E as ->. apply String.eqb_neq in Hne.
      by rewrite Hne.
    + by rewrite IH.
Qed.

Lemma dget_None d k : dget d k = None <-> k ∉ dkeys d.
Proof.
  unfold dkeys. induction d as [|[k' v] d IH]; cbn [dget map fst].
  - split; [intros _ Hk; by apply elem_of_nil in Hk|reflexivity].
  - rewrite not_elem_of_cons. destruct (String.eqb k' k) eqn:E.
    + apply String.eqb_eq in E as ->. split; [discriminate|]. by intros [? _].
    + apply String.eqb_neq in E. rewrite IH. split; [by split|by intros [_ ?]].
Qed.

Lemma dget_Some_elem d k v : dget d k = Some v -> (k, v) ∈ d.
Proof.
  induction d as [|[k' v'] d IH]; cbn [dget]; [discriminate|].
  destruct (String.eqb k' k) eqn:E.
  - apply String.eqb_eq in E as ->. intros [= ->]. apply elem_of_cons. by left.
  - intros Hd. apply elem_of_cons. right. by apply IH.
Qed.

Lemma dset_dset d k v w : dset (dset d k v) k w = dset d k w.
Proof.
  induction d as [|[k' v'] d IH]; cbn [dset].
  - by rewrite String.eqb_refl.
  - destruct (String.eqb k' k) eqn:E; cbn [dset]; rewrite E; [reflexivity|].
    by rewrite IH.
Qed.

Lemma getd_dset_eq d k v : getd (dset d k v) k = v.
Proof. unfold getd. by rewrite dget_dset_eq. Qed.

Lemma getd_dset_ne d k k' v : k <> k' -> getd (dset d k v) k' = getd d k'.
Proof. intros Hne. unfold getd. by rewrite dget_dset_ne. Qed.

Lemma dsum_dset d k v : dsum (dset d k v) == dsum d - getd d k + v.
Proof.
  unfold getd, dsum, dvalues.
  induction d as [|[k' v'] d IH]; cbn [dset dget map snd].
  - cbn. ring.
  - destruct (String.eqb k' k); cbn [map snd default from_option id];
      rewrite !qsum_cons; [ring|]. rewrite IH. ring.
Qed.

(** Reading a [defaultdict(float)] returns [getd] and leaves every amount,
    as [getd] reads it, and the total as they were. *)
Lemma dget_default_fst d k : (dget_default d k).1 = getd d k.
Proof. unfold dget_default, getd. by destruct (dget d k). Qed.

Lemma getd_dget_default d k k' : getd (dget_default d k).2 k' = getd d k'.
Proof.
  unfold dget_default. destruct (dget d k) eqn:Hk; cbn [snd]; [reflexivity|].
  destruct (decide (k = k')) as [<-|Hne].
  - rewrite getd_dset_eq. unfold getd. by rewrite Hk.
  - by apply getd_dset_ne.
Qed.

Lemma dsum_dget_default d k : dsum (dget_default d k).2 == dsum d.
Proof.
  unfold dget_default. destruct (dget d k) eqn:Hk; cbn [snd]; [reflexivity|].
  rewrite dsum_dset. unfold getd. rewrite Hk. cbn. ring.
Qed.

Lemma dget_dget_default_ne d k k' :
  k <> k' -> dget (dget_default d k).2 k' = dget d k'.
Proof.
  intros Hne. unfold dget_default. destruct (dget d k); cbn [snd]; [reflexivity|].
  by apply dget_dset_ne.
Qed.

Lemma dsub_unfold d k x :
  dsub d k x = dset (dget_default d k).2 k (getd d k - x).
Proof.
  unfold dsub. rewrite <- dget_default_fst. by destruct (dget_default d k).
Qed.

Lemma dget_dsub_eq d k x : dget (dsub d k x) k = Some (getd d k - x).
Proof. rewrite dsub_unfold. apply dget_dset_eq. Qed.

Lemma dget_dsub_ne d k k' x : k <> k' -> dget (dsub d k x) k' = dget d k'.
Proof.
  intros Hne. rewrite dsub_unfold, dget_dset_ne by done.
  by apply dget_dget_default_ne.
Qed.

Lemma getd_dsub_eq d k x : getd (dsub d k x) k = getd d k - x.
Proof. unfold getd at 1. by rewrite dget_dsub_eq. Qed.

Lemma getd_dsub_ne d k k' x : k <> k' -> getd (dsub d k x) k' = getd d k'.
Proof. intros Hne. unfold getd. by rewrite dget_dsub_ne. Qed.

Lemma dsum_dsub d k x : dsum (dsub d k x) == dsum d - x.
Proof.
  rewrite dsub_unfold, dsum_dset, getd_dget_default, dsum_dget_default. ring.
Qed.

(** ** The loops on the residual *)

Lemma getd_cons_eq k v (d : dict) : getd ((k, v) :: d) k = v.
Proof. unfold getd. cbn [dget]. by rewrite String.eqb_refl. Qed.

Lemma getd_cons_ne k k' v (d : dict) : k <> k' -> getd ((k, v) :: d) k' = getd d k'.
Proof.
  intros Hne. unfold getd. cbn [dget]. apply String.eqb_neq in Hne.
  by rewrite Hne.
Qed.

Lemma getd_absent d k : k ∉ dkeys d -> getd d k = 0.
Proof. intros Hk. apply dget_None in Hk. unfold getd. by rewrite Hk. Qed.

(** The inner loop takes [pres] times the target's amount off every key. *)
Lemma residual_inner_getd target pres d e :
  NoDup (dkeys target) ->
  getd (residual_inner target pres d) e == getd d e - pres * getd target e.
Proof.
  unfold residual_inner. revert d.
  induction target as [|[k a] target IH]; intros d Hnd; cbn [fold_left fst snd].
  - unfold getd at 3. cbn. ring.
  - apply NoDup_cons in Hnd as [Hk Hnd]. rewrite (IH _ Hnd).
    destruct (decide (k = e)) as [<-|Hne].
    + rewrite getd_dsub_eq, getd_cons_eq, (getd_absent target k Hk). ring.
    + rewrite getd_dsub_ne, getd_cons_ne by done. reflexivity.
Qed.

Lemma residual_inner_dsum target pres d :
  dsum (residual_inner target pres d) == dsum d - pres * dsum target.
Proof.
  unfold residual_inner. revert d.
  induction target as [|[k a] target IH]; intros d; cbn [fold_left fst snd].
  - unfold dsum at 3. cbn. ring.
  - rewrite IH, dsum_dsub. unfold dsum at 2 4, dvalues. cbn [map snd].
    rewrite qsum_cons. ring.
Qed.

Lemma residual_inner_other target pres d e :
  e ∉ dkeys target -> dget (residual_inner target pres d) e = dget d e.
Proof.
  unfold residual_inner. revert d.
  induction target as [|[k a] target IH]; intros d He; cbn [fold_left fst snd];
    [reflexivity|].
  apply not_elem_of_cons in He as [Hne He].
  rewrite (IH _ He). by apply dget_dsub_ne.
Qed.

Lemma pulled_start start target : pulled start target 0 start.
Proof. split; intros; [ring|ring|reflexivity]. Qed.


(** An item with amount zero makes the outer loop raise. *)
Lemma residual_outer_zero target items d :
  (exists ca, ca ∈ items /\ ca.2 == 0) ->
  (residual_outer target items d).2 = Raise ZeroDivisionError.
Proof.
  revert d. induction items as [|[c a] items IH]; intros d (ca & Hca & Hz).
  - by apply elem_of_nil in Hca.
  - cbn [residual_outer fst snd]. destruct (dget_default d c) as [y d1].
    destruct (Qeq_bool a 0) eqn:Ha.
    + apply Qeq_bool_iff in Ha. by rewrite (pydiv_zero y a Ha).
    + assert (Hne : ~ a == 0) by (intros Hq; apply Qeq_bool_iff in Hq; congruence).
      rewrite (pydiv_ok y a Hne). apply IH.
      apply elem_of_cons in Hca as [->|Hca]; [contradiction|]. by exists ca.
Qed.

(** ** Running [amt] and [fraction] on the store *)

Lemma bind_run {S A B} (m : M S A) (k : A -> M S B) s s' a :
  m s = (s', Ok a) -> (m ≫= k) s = k a s'.
Proof. intros Hm. unfold mbind, M_bind. by rewrite Hm. Qed.

Lemma bind_raise {S A B} (m : M S A) (k : A -> M S B) s s' e :
  m s = (s', Raise e) -> (m ≫= k) s = (s', Raise e).
Proof. intros Hm. unfold mbind, M_bind. by rewrite Hm. Qed.

Lemma bind_lift_ok {S A B} (r : result A) (k : A -> M S B) s a :
  r = Ok a -> (lift r ≫= k) s = k a s.
Proof. by intros ->. Qed.

Lemma bind_lift_raise {S A B} (r : result A) (k : A -> M S B) s e :
  r = Raise e -> (lift r ≫= k) s = (s, Raise e).
Proof. by intros ->. Qed.

Lemma alloc_run (h : heap) o : alloc o h = (h ++ [o], Ok (length h)).
Proof. reflexivity. Qed.

Lemma read_dict_run (h : heap) l d :
  h !! l = Some (ODict d) -> read_dict l h = (h, Ok d).
Proof. intros Hl. unfold read_dict. unfold_M. by rewrite Hl. Qed.

Lemma read_phase_run (h : heap) l p :
  h !! l = Some (OPhase p) -> read_phase l h = (h, Ok p).
Proof. intros Hl. unfold read_phase. unfold_M. by rewrite Hl. Qed.

Lemma lookup_last (h : heap) o : (h ++ [o]) !! length h = Some o.
Proof. by rewrite lookup_app_r, Nat.sub_diag by lia. Qed.

Lemma lookup_old (h : heap) o l x : h !! l = Some x -> (h ++ [o]) !! l = Some x.
Proof. intros Hl. by apply lookup_app_l_Some. Qed.

Lemma write_dict_last (h : heap) o d :
  write_dict (length h) d (h ++ [o]) = (h ++ [ODict d], Ok tt).
Proof.
  unfold write_dict, modify.
  by rewrite insert_app_r_alt, Nat.sub_diag by lia.
Qed.

Lemma getitem_default_last (h : heap) d k :
  getitem_default (length h) k (h ++ [ODict d]) =
    (h ++ [ODict (dget_default d k).2], Ok (dget_default d k).1).
Proof.
  unfold getitem_default.
  rewrite (bind_run _ _ _ _ _ (read_dict_run _ _ _ (lookup_last h _))).
  destruct (dget_default d k) as [v d'].
  rewrite (bind_run _ _ _ _ _ (write_dict_last h _ d')). reflexivity.
Qed.

Lemma setitem_last (h : heap) d k v :
  setitem (length h) k v (h ++ [ODict d]) = (h ++ [ODict (dset d k v)], Ok tt).
Proof.
  unfold setitem.
  rewrite (bind_run _ _ _ _ _ (read_dict_run _ _ _ (lookup_last h _))).
  apply write_dict_last.
Qed.

Lemma sum_values_run (h : heap) l d :
  h !! l = Some (ODict d) -> sum_values l h = (h, Ok (dsum d)).
Proof.
  intros Hl. unfold sum_values.
  by rewrite (bind_run _ _ _ _ _ (read_dict_run _ _ _ Hl)).
Qed.

(** [residual[k] -= x] on the newest object. *)
Lemma subtract_last (h : heap) d k x :
  (y ← getitem_default (length h) k; setitem (length h) k (y - x))
    (h ++ [ODict d]) = (h ++ [ODict (dsub d k x)], Ok tt).
Proof.
  rewrite (bind_run _ _ _ _ _ (getitem_default_last h d k)).
  rewrite setitem_last. unfold dsub. by destruct (dget_default d k).
Qed.

Lemma inner_loop_run (h : heap) pres items d :
  for_each items (fun ca2 : string * Q =>
      y ← getitem_default (length h) ca2.1;
      setitem (length h) ca2.1 (y - pres * ca2.2)) (h ++ [ODict d]) =
    (h ++ [ODict (residual_inner items pres d)], Ok tt).
Proof.
  unfold residual_inner. revert d.
  induction items as [|[k a] items IH]; intros d; [reflexivity|].
  cbn [for_each fold_left].
  rewrite (bind_run _ _ _ _ _ (subtract_last h d _ _)). apply IH.
Qed.

Lemma outer_body_run (h : heap) comp target c a d :
  h !! comp = Some (ODict target) ->
  (x ← getitem_default (length h) c;
   pres ← lift (pydiv x a);
   inner ← read_dict comp;
   for_each inner (fun ca2 : string * Q =>
     y ← getitem_default (length h) ca2.1;
     setitem (length h) ca2.1 (y - pres * ca2.2))) (h ++ [ODict d]) =
    match pydiv (dget_default d c).1 a with
    | Ok pres =>
        (h ++ [ODict (residual_inner target pres (dget_default d c).2)], Ok tt)
    | Raise e => (h ++ [ODict (dget_default d c).2], Raise e)
    end.
Proof.
  intros Hcomp.
  rewrite (bind_run _ _ _ _ _ (getitem_default_last h d c)). cbv beta.
  destruct (pydiv (dget_default d c).1 a) as [pres|e] eqn:Hdiv.
  - rewrite (bind_lift_ok (Ok pres) _ _ pres eq_refl).
    rewrite (bind_run _ _ _ _ _ (read_dict_run _ _ _ (lookup_old h _ _ _ Hcomp))).
    apply inner_loop_run.
  - by rewrite (bind_lift_raise (Raise e) _ _ e eq_refl).
Qed.

Lemma outer_loop_run (h : heap) comp target items d :
  h !! comp = Some (ODict target) ->
  for_each items (fun ca : string * Q =>
      x ← getitem_default (length h) ca.1;
      pres ← lift (pydiv x ca.2);
      inner ← read_dict comp;
      for_each inner (fun ca2 =>
        y ← getitem_default (length h) ca2.1;
        setitem (length h) ca2.1 (y - pres * ca2.2))) (h ++ [ODict d]) =
    (h ++ [ODict (residual_outer target items d).1],
     (residual_outer target items d).2).
Proof.
  intros Hcomp. revert d.
  induction items as [|[c a] items IH]; intros d; [reflexivity|].
  cbn [for_each residual_outer fst snd].
  pose proof (outer_body_run h comp target c a d Hcomp) as Hbody.
  destruct (dget_default d c) as [x d1]. cbn [fst snd] in Hbody.
  destruct (pydiv x a) as [pres|e].
  - rewrite (bind_run _ _ _ _ _ Hbody). apply IH.
  - by rewrite (bind_raise _ _ _ _ _ Hbody).
Qed.

(** [pull_out] on a store that holds the two dictionaries: the store gains
    the residual and nothing else changes. *)
Lemma pull_out_run (h : heap) src comp start target :
  h !! src = Some (ODict start) ->
  h !! comp = Some (ODict target) ->
  pull_out src comp h =
    let d := (residual_outer target target start).1 in
    match (residual_outer target target start).2 with
    | Raise e => (h ++ [ODict d], Raise e)
    | Ok _ =>
        match pydiv (dsum start - dsum d) (dsum target) with
        | Ok q => (h ++ [ODict (dset d "var" q)], Ok (length h))
        | Raise e => (h ++ [ODict (dset d "var" (dsum start - dsum d))], Raise e)
        end
    end.
Proof.
  intros Hsrc Hcomp. unfold pull_out.
  rewrite (bind_run _ _ _ _ _ (read_dict_run _ _ _ Hsrc)).
  rewrite (bind_run _ _ _ _ _ (alloc_run h _)).
  rewrite (bind_run _ _ _ _ _ (sum_values_run _ _ _ (lookup_last h _))).
  rewrite (bind_run _ _ _ _ _ (read_dict_run _ _ _ (lookup_old h _ _ _ Hcomp))).
  pose proof (outer_loop_run h comp target target start Hcomp) as Hloop.
  destruct (residual_outer target target start) as [d [[]|e]]; cbn [fst snd] in *.
  - rewrite (bind_run _ _ _ _ _ Hloop).
    rewrite (bind_run _ _ _ _ _ (sum_values_run _ _ _ (lookup_last h _))).
    rewrite (bind_run _ _ _ _ _ (setitem_last h _ _ _)).
    rewrite (bind_run _ _ _ _ _ (getitem_default_last h _ _)).
    assert (Hread : dget_default (dset d "var" (dsum start - dsum d)) "var"
                    = (dsum start - dsum d, dset d "var" (dsum start - dsum d))).
    { unfold dget_default. by rewrite dget_dset_eq. }
    rewrite Hread. cbn [fst snd].
    rewrite (bind_run _ _ _ _ _
               (sum_values_run _ _ _ (lookup_old h _ _ _ Hcomp))).
    destruct (pydiv (dsum start - dsum d) (dsum target)) as [q|e] eqn:Hdiv.
    + rewrite (bind_lift_ok (Ok q) _ _ q eq_refl).
      rewrite (bind_run _ _ _ _ _ (setitem_last h _ _ _)).
      by rewrite dset_dset.
    + by rewrite (bind_lift_raise (Raise e) _ _ e eq_refl).
  - by rewrite (bind_raise _ _ _ _ _ Hloop).
Qed.

Lemma amt_dict_run `{Env} (h : heap) self me t :
  h !! self = Some (OPhase me) ->
  amt self (TDict t) h = pull_out (comp_ref me) t h.
Proof.
  intros Hself. unfold amt.
  rewrite (bind_run _ _ h h t eq_refl).
  by rewrite (bind_run _ _ _ _ _ (read_phase_run _ _ _ Hself)).
Qed.

Lemma fraction_dict_run `{Env} (h : heap) self me t :
  h !! self = Some (OPhase me) ->
  fraction self (TDict t) h = pull_out (unit_comp_ref me) t h.
Proof.
  intros Hself. unfold fraction.
  rewrite (bind_run _ _ h h t eq_refl).
  by rewrite (bind_run _ _ _ _ _ (read_phase_run _ _ _ Hself)).
Qed.

Lemma pull_out_zero_amount (h : heap) src comp start target k a :
  h !! src = Some (ODict start) ->
  h !! comp = Some (ODict target) ->
  dget target k = Some a -> a == 0 ->
  outcome (pull_out src comp) h = Raise ZeroDivisionError.
Proof.
  intros Hsrc Hcomp Hk Ha. unfold outcome.
  rewrite (pull_out_run h src comp start target Hsrc Hcomp). cbv zeta.
  rewrite (residual_outer_zero target target start); [reflexivity|].
  exists (k, a). split; [by apply dget_Some_elem|exact Ha].
Qed.

(** C7. When the target mapping has a key whose amount is zero, [amt] and
    [fraction] end by raising [ZeroDivisionError]: the division
    [residual[c]/amt] raises and nothing in either body catches it. *)
Theorem zero_amount_raises `{Env} (h : heap) (self : loc) (me : PhaseObj)
    (start unit : dict) (t : loc) (target : dict) (k : string) (a : Q) :
  h !! self = Some (OPhase me) ->
  h !! comp_ref me = Some (ODict start) ->
  h !! unit_comp_ref me = Some (ODict unit) ->
  h !! t = Some (ODict target) ->
  dget target k = Some a -> a == 0 ->
  outcome (amt self (TDict t)) h = Raise ZeroDivisionError /\
  outcome (fraction self (TDict t)) h = Raise ZeroDivisionError.
Proof.
  intros Hself Hstart Hunit Ht Hk Ha. unfold outcome. split.
  - rewrite (amt_dict_run h self me t Hself).
    by eapply pull_out_zero_amount.
  - rewrite (fraction_dict_run h self me t Hself).
    by eapply pull_out_zero_amount.
Qed.

Lemma zero_amount_raises_witness :
  let h := store_of FeLi5O8_phase [("Li"%string, 2); ("O"%string, 0)] in
  h !! 3%nat = Some (OPhase (mkPhaseObj 0 1 2 (-1) (-14) (-1 # 14))) /\
  dget [("Li"%string, 2); ("O"%string, 0)] "O" = Some 0 /\
  outcome (amt 3%nat (TDict 4%nat)) h = Raise ZeroDivisionError /\
  outcome (fraction 3%nat (TDict 4%nat)) h = Raise ZeroDivisionError.
Proof.
  intros h. split; [reflexivity|]. split; [reflexivity|].
  eapply (zero_amount_raises h 3%nat _ _ _ 4%nat _ "O" 0);
    reflexivity.
Defined.

Lemma NoDup_dget d k v : NoDup (dkeys d) -> (k, v) ∈ d -> dget d k = Some v.
Proof.
  unfold dkeys. induction d as [|[k' v'] d IH]; cbn [map fst dget]; intros Hnd Hin.
  - by apply elem_of_nil in Hin.
  - apply NoDup_cons in Hnd as [Hk' Hnd].
    apply elem_of_cons in Hin as [[= -> ->]|Hin].
    + by rewrite String.eqb_refl.
    + destruct (String.eqb k' k) eqn:E; [|by apply IH].
      apply String.eqb_eq in E as ->. exfalso. apply Hk'.
      apply list_elem_of_fmap. by exists (k, v).
Qed.

Lemma dget_Some_key d k v : dget d k = Some v -> k ∈ dkeys d.
Proof.
  intros Hk. destruct (decide (k ∈ dkeys d)) as [|Hn]; [done|].
  apply dget_None in Hn. congruence.
Qed.



(** ** What [amt] and [fraction] leave untouched *)

Lemma keeps_ret {A} (h : heap) (a : A) (V : A -> Prop) :
  V a -> keeps h (mret a) V.
Proof. intros Ha s Hs. split; [exact Hs|]. by intros ? [= <-]. Qed.

Lemma keeps_bind {A B} (h : heap) (m : M heap A) (k : A -> M heap B)
    (V : A -> Prop) (W : B -> Prop) :
  keeps h m V -> (forall a, V a -> keeps h (k a) W) -> keeps h (m ≫= k) W.
Proof.
  intros Hm Hk s Hs. destruct (Hm s Hs) as [Hs' Hv].
  unfold mbind, M_bind. destruct (m s) as [s' [a|e]]; cbn [fst snd] in *.
  - by apply (Hk a (Hv a eq_refl)).
  - split; [exact Hs'|discriminate].
Qed.

Lemma keeps_weaken {A} (h : heap) (m : M heap A) (V W : A -> Prop) :
  keeps h m V -> (forall a, V a -> W a) -> keeps h m W.
Proof.
  intros Hm HVW s Hs. destruct (Hm s Hs) as [Hs' Hv].
  split; [exact Hs'|]. intros a Ha. by apply HVW, Hv.
Qed.

Lemma keeps_lift {A} (h : heap) (r : result A) : keeps h (lift r) (fun _ => True).
Proof. intros s Hs. by split. Qed.

Lemma keeps_read_dict (h : heap) l : keeps h (read_dict l) (fun _ => True).
Proof.
  intros s Hs. unfold read_dict. unfold_M.
  destruct (s !! l) as [[d|p]|]; by split.
Qed.

Lemma keeps_read_phase (h : heap) l : keeps h (read_phase l) (fun _ => True).
Proof.
  intros s Hs. unfold read_phase. unfold_M.
  destruct (s !! l) as [[d|p]|]; by split.
Qed.

(** A new object lies beyond every object of [h]. *)
Lemma keeps_alloc (h : heap) o : keeps h (alloc o) (fun l => (length h <= l)%nat).
Proof.
  intros s Hs. rewrite alloc_run. cbn [fst snd]. split.
  - etrans; [exact Hs|]. by apply prefix_app_r.
  - intros a [= <-]. by apply prefix_length.
Qed.

(** A write beyond [h] leaves [h] as it is. *)
Lemma keeps_write_dict (h : heap) l d :
  (length h <= l)%nat -> keeps h (write_dict l d) (fun _ => True).
Proof.
  intros Hl s [s' ->]. unfold write_dict, modify. cbn [fst snd].
  split; [|done]. rewrite insert_app_r_alt by done. by apply prefix_app_r.
Qed.

Lemma keeps_getitem_default (h : heap) l k :
  (length h <= l)%nat -> keeps h (getitem_default l k) (fun _ => True).
Proof.
  intros Hl. unfold getitem_default.
  eapply keeps_bind; [apply keeps_read_dict|]. intros d _.
  destruct (dget_default d k) as [v d'].
  eapply keeps_bind; [by apply keeps_write_dict|]. intros _ _.
  by apply keeps_ret.
Qed.

Lemma keeps_setitem (h : heap) l k v :
  (length h <= l)%nat -> keeps h (setitem l k v) (fun _ => True).
Proof.
  intros Hl. unfold setitem.
  eapply keeps_bind; [apply keeps_read_dict|]. intros d _.
  by apply keeps_write_dict.
Qed.

Lemma keeps_sum_values (h : heap) l : keeps h (sum_values l) (fun _ => True).
Proof.
  unfold sum_values. eapply keeps_bind; [apply keeps_read_dict|].
  intros d _. by apply keeps_ret.
Qed.

Lemma keeps_for_each {A} (h : heap) (xs : list A) (body : A -> M heap unit) :
  (forall x, keeps h (body x) (fun _ => True)) ->
  keeps h (for_each xs body) (fun _ => True).
Proof.
  intros Hbody. induction xs as [|x xs IH]; cbn [for_each].
  - by apply keeps_ret.
  - eapply keeps_bind; [apply Hbody|]. intros _ _. exact IH.
Qed.

Lemma keeps_pull_out (h : heap) src comp :
  keeps h (pull_out src comp) (fun r => (length h <= r)%nat).
Proof.
  unfold pull_out.
  eapply keeps_bind; [apply keeps_read_dict|]. intros d _.
  eapply keeps_bind; [apply keeps_alloc|]. intros residual Hres.
  eapply keeps_bind; [apply keeps_sum_values|]. intros tot _.
  eapply keeps_bind; [apply keeps_read_dict|]. intros outer _.
  eapply keeps_bind.
  { apply keeps_for_each. intros ca.
    eapply keeps_bind; [by apply keeps_getitem_default|]. intros x _.
    eapply keeps_bind; [apply keeps_lift|]. intros pres _.
    eapply keeps_bind; [apply keeps_read_dict|]. intros inner _.
    apply keeps_for_each. intros ca2.
    eapply keeps_bind; [by apply keeps_getitem_default|]. intros y _.
    by apply keeps_setitem. }
  intros _ _.
  eapply keeps_bind; [apply keeps_sum_values|]. intros s _.
  eapply keeps_bind; [by apply keeps_setitem|]. intros _ _.
  eapply keeps_bind; [by apply keeps_getitem_default|]. intros v _.
  eapply keeps_bind; [apply keeps_sum_values|]. intros total _.
  eapply keeps_bind; [apply keeps_lift|]. intros q _.
  eapply keeps_bind; [by apply keeps_setitem|]. intros _ _.
  by apply keeps_ret.
Qed.

Lemma keeps_amt `{Env} (h : heap) self t :
  keeps h (amt self t) (fun r => (length h <= r)%nat).
Proof.
  unfold amt. eapply keeps_bind with (V := fun _ => True).
  - destruct t as [l|s|l].
    + eapply keeps_bind; [apply keeps_read_phase|]. intros q _.
      by apply keeps_ret.
    + eapply keeps_bind; [apply keeps_lift|]. intros d _.
      eapply keeps_weaken; [apply keeps_alloc|done].
    + by apply keeps_ret.
  - intros comp _. eapply keeps_bind; [apply keeps_read_phase|].
    intros me _. apply keeps_pull_out.
Qed.

Lemma keeps_fraction `{Env} (h : heap) self t :
  keeps h (fraction self t) (fun r => (length h <= r)%nat).
Proof.
  unfold fraction. eapply keeps_bind with (V := fun _ => True).
  - destruct t as [l|s|l].
    + eapply keeps_bind; [apply keeps_read_phase|]. intros q _.
      by apply keeps_ret.
    + eapply keeps_bind; [apply keeps_lift|]. intros d _.
      eapply keeps_bind; [apply keeps_lift|]. intros u _.
      eapply keeps_weaken; [apply keeps_alloc|done].
    + by apply keeps_ret.
  - intros comp _. eapply keeps_bind; [apply keeps_read_phase|].
    intros me _. apply keeps_pull_out.
Qed.

(** C10. Whatever [amt] and [fraction] are called on and however they end,
    every object of the store before the call (the phase with its energy,
    its three compositions, the target) is the same object afterwards; and
    the dictionary they return is an object that did not exist before. *)
Theorem amt_fraction_frame `{Env} (h : heap) (self : loc) (t : target) :
  (forall l o, h !! l = Some o -> state_after (amt self t) h !! l = Some o) /\
  (forall l o, h !! l = Some o -> state_after (fraction self t) h !! l = Some o) /\
  (forall r, outcome (amt self t) h = Ok r -> h !! r = None) /\
  (forall r, outcome (fraction self t) h = Ok r -> h !! r = None).
Proof.
  destruct (keeps_amt h self t h) as [Ha Hra]; [reflexivity|].
  destruct (keeps_fraction h self t h) as [Hf Hrf]; [reflexivity|].
  unfold state_after, outcome. repeat split.
  - intros l o Hl. by eapply prefix_lookup_Some.
  - intros l o Hl. by eapply prefix_lookup_Some.
  - intros r Hr. apply lookup_ge_None. by apply Hra.
  - intros r Hr. apply lookup_ge_None. by apply Hrf.
Qed.

(** ** [add_phase] returns on the phases the constructor builds *)

Lemma Phase_init_inv `{Env} c e descr per_atom stab nm p :
  Phase_init c e descr per_atom stab nm = Ok p ->
  exists c' d u r,
    c = Some c' /\ as_mapping c' = Ok d /\
    unit_comp d = Ok u /\ reduce_comp d = Ok r /\
    _comp p = d /\ _unit_comp p = u /\ _nom_comp p = r /\
    custom_name p = (if nonempty nm then Some nm else None) /\
    phase_dict p = [].
Proof.
  unfold Phase_init. destruct c as [c'|]; [|discriminate].
  destruct e as [e|]; [|discriminate].
  destruct (as_mapping c') as [d|] eqn:Hd; [|discriminate].
  cbn [mbind result_bind].
  destruct (unit_comp d) as [u|] eqn:Hu; [|discriminate]. cbn [mbind result_bind].
  destruct (reduce_comp d) as [r|] eqn:Hr; [|discriminate]. cbn [mbind result_bind].
  intros Hset. exists c', d, u, r.
  split; [reflexivity|]. split; [exact Hd|]. split; [exact Hu|].
  split; [exact Hr|].
  destruct per_atom.
  - rewrite energy_set_run in Hset. cbv zeta in Hset.
    destruct (pydiv e _); [|discriminate]. by injection Hset as <-.
  - rewrite total_energy_set_run in Hset. cbv zeta in Hset.
    destruct (pydiv e (dsum _)); [|discriminate].
    destruct (pydiv e (natoms _)); [|discriminate]. by injection Hset as <-.
Qed.

Lemma truthy_nonempty nm :
  truthy (if nonempty nm then Some nm else None) =
    if nonempty nm then Some nm else None.
Proof. destruct nm; reflexivity. Qed.

(** Every phase the constructor builds can be taken in. *)
Lemma Phase_init_comparable {E : Env} {ES : EnvSpec E}
    c e descr per_atom stab nm p :
  Phase_init c e descr per_atom stab nm = Ok p -> comparable p.
Proof.
  intros Hp. apply Phase_init_inv in Hp
    as (c' & d & u & r & -> & Hd & Hu & Hr & Hc & Hun & Hnom & Hcn & Hpd).
  split.
  - destruct p as [? ? ? nom ? cn ? ? ? ? pd]. cbn in Hcn, Hpd, Hnom.
    subst cn pd. cbn [name]. rewrite truthy_nonempty.
    destruct (nonempty nm); [by eexists|apply format_comp_defined].
  - intros k Hk. unfold comp in Hk. rewrite Hc in Hk. rewrite Hun.
    rewrite <- (unit_comp_keys d u Hu) in Hk.
    destruct (dget u k) eqn:Hg; [by eexists|].
    apply dget_None in Hg. contradiction.
Qed.

Lemma comparable_set_index `{Env} i p : comparable p -> comparable (set_index i p).
Proof. intros [Hn Hk]. split; [by rewrite name_set_index|exact Hk]. Qed.

Lemma unit_comps_close_total mine theirs ks :
  (forall k, k ∈ ks -> is_Some (dget mine k) /\ is_Some (dget theirs k)) ->
  exists b, unit_comps_close mine theirs ks = Ok b.
Proof.
  induction ks as [|key ks IH]; intros Hks; cbn [unit_comps_close]; [by eexists|].
  destruct (Hks key) as [[u Hu] [v Hv]]; [apply elem_of_cons; by left|].
  unfold dgetitem. rewrite Hu, Hv. cbn [mbind result_bind].
  destruct (Qltb tol (Qabs (u - v))); [by eexists|].
  apply IH. intros k Hk. apply Hks, elem_of_cons. by right.
Qed.

(** [==] returns on two such phases. *)
Lemma Phase_eq_total `{Env} q p :
  comparable q -> comparable p -> exists b, Phase_eq q p = Ok b.
Proof.
  intros [_ Hq] [_ Hp]. unfold Phase_eq.
  destruct (keyset_eqb _ _) eqn:Hkeys; cbn [negb]; [|by eexists].
  destruct (Qltb tol _); [by eexists|].
  apply unit_comps_close_total. intros k Hk. split; [by apply Hq|].
  apply Hp. by apply (proj1 (keyset_eqb_spec _ _) Hkeys).
Qed.

Lemma set_find_total `{Env} (s : pyset) h p :
  (forall q, q ∈ set_elements s -> comparable q) -> comparable p ->
  exists b, set_find s h p = Ok b.
Proof.
  intros Hs Hp. induction s as [|[h' q] s IH]; cbn [set_find]; [by eexists|].
  assert (IH' : exists b, set_find s h p = Ok b).
  { apply IH. intros q' Hq'. apply Hs. unfold set_elements. cbn [map snd].
    apply elem_of_cons. by right. }
  destruct (hash_eqb h' h); [|exact IH'].
  destruct (Phase_eq_total q p) as [b ->]; [|exact Hp|].
  - apply Hs. unfold set_elements. cbn [map snd]. apply elem_of_cons. by left.
  - cbn [mbind result_bind]. destruct b; [by eexists|exact IH'].
Qed.

Lemma set_add_total `{Env} (s : pyset) p :
  (forall q, q ∈ set_elements s -> comparable q) -> comparable p ->
  exists s', set_add s p = Ok s' /\
             forall q, q ∈ set_elements s' -> comparable q.
Proof.
  intros Hs Hp. unfold set_add, Phase_hash.
  destruct (proj1 Hp) as [nm ->]. cbn [mbind result_bind].
  destruct (set_find_total s (nm, energy p) p Hs Hp) as [b ->].
  cbn [mbind result_bind]. eexists. split; [reflexivity|].
  destruct b; [exact Hs|]. intros q Hq. unfold set_elements in Hq.
  rewrite map_app in Hq. apply elem_of_app in Hq as [Hq|Hq]; [by apply Hs|].
  apply list_elem_of_singleton in Hq as ->. exact Hp.
Qed.

Lemma by_elt_add_run `{Env} elt p pd :
  PhaseData.by_elt_add elt p pd =
    match set_add (bucket (PhaseData.phases_by_elt pd) elt) p with
    | Ok s =>
        (PhaseData.mk (PhaseData._phases pd)
           (<[elt := s]> (PhaseData.phases_by_elt pd))
           (PhaseData.phases_by_dim pd) (PhaseData.phase_dict pd)
           (PhaseData.space pd), Ok tt)
    | Raise e => (PhaseData.by_elt_default elt pd, Raise e)
    end.
Proof.
  unfold PhaseData.by_elt_add, bucket, PhaseData.set_by_elt.
  unfold_M. unfold PhaseData.by_elt_default.
  destruct (PhaseData.phases_by_elt pd !! elt) as [s0|] eqn:Hm;
    cbn [PhaseData.phases_by_elt PhaseData._phases PhaseData.phases_by_dim
         PhaseData.phase_dict PhaseData.space].
  - rewrite Hm. cbn [default from_option id]. by destruct (set_add s0 p).
  - rewrite lookup_insert_eq. cbn [default from_option id].
    destruct (set_add [] p); [|reflexivity]. by rewrite insert_insert_eq.
Qed.

Lemma by_dim_add_run `{Env} d p pd :
  PhaseData.by_dim_add d p pd =
    match set_add (bucket (PhaseData.phases_by_dim pd) d) p with
    | Ok s =>
        (PhaseData.mk (PhaseData._phases pd) (PhaseData.phases_by_elt pd)
           (<[d := s]> (PhaseData.phases_by_dim pd)) (PhaseData.phase_dict pd)
           (PhaseData.space pd), Ok tt)
    | Raise e => (PhaseData.by_dim_default d pd, Raise e)
    end.
Proof.
  unfold PhaseData.by_dim_add, bucket, PhaseData.set_by_dim.
  unfold_M. unfold PhaseData.by_dim_default.
  destruct (PhaseData.phases_by_dim pd !! d) as [s0|] eqn:Hm;
    cbn [PhaseData.phases_by_elt PhaseData._phases PhaseData.phases_by_dim
         PhaseData.phase_dict PhaseData.space].
  - rewrite Hm. cbn [default from_option id]. by destruct (set_add s0 p).
  - rewrite lookup_insert_eq. cbn [default from_option id].
    destruct (set_add [] p); [|reflexivity]. by rewrite insert_insert_eq.
Qed.

Lemma by_elt_loop_total `{Env} ks p pd :
  comparable p ->
  (forall elt q, q ∈ set_elements (bucket (PhaseData.phases_by_elt pd) elt) ->
                 comparable q) ->
  exists pd', for_each ks (fun elt => PhaseData.by_elt_add elt p) pd = (pd', Ok tt).
Proof.
  intros Hp. revert pd. induction ks as [|k ks IH]; intros pd Hpd.
  - by eexists.
  - cbn [for_each].
    destruct (set_add_total (bucket (PhaseData.phases_by_elt pd) k) p (Hpd k) Hp)
      as (s & Hadd & Hs).
    pose proof (by_elt_add_run k p pd) as Hstep. rewrite Hadd in Hstep.
    rewrite (bind_run _ _ _ _ _ Hstep). apply IH.
    intros elt q. simpl_pd. destruct (decide (k = elt)) as [<-|Hne].
    + rewrite bucket_insert_eq. apply Hs.
    + rewrite bucket_insert_ne by done. apply Hpd.
Qed.

(** [add_phase] returns when the phase, and the phases in the sets so far,
    can be compared. *)
Lemma add_phase_returns `{Env} p pd :
  comparable p ->
  (forall elt q, q ∈ set_elements (bucket (PhaseData.phases_by_elt pd) elt) ->
                 comparable q) ->
  (forall d q, q ∈ set_elements (bucket (PhaseData.phases_by_dim pd) d) ->
               comparable q) ->
  exists pd', PhaseData.add_phase p pd = (pd', Ok tt).
Proof.
  intros Hp Helt Hdim. unfold PhaseData.add_phase.
  destruct (proj1 Hp) as [nm Hnm].
  rewrite (bind_lift_ok _ _ _ _ Hnm).
  rewrite (bind_run _ _ pd pd pd eq_refl). cbv zeta.
  set (p' := set_index (S (length (PhaseData._phases pd))) p).
  assert (Hp' : comparable p') by by apply comparable_set_index.
  destruct (keep_lowest_fields nm p' pd) as (Hok & F1 & F2 & F3 & F4 & F5).
  destruct (PhaseData.keep_lowest nm p' pd) as [pd0 r0] eqn:Hkeep.
  simpl_pd. subst r0. rewrite (bind_run _ _ _ _ _ Hkeep).
  rewrite (bind_run _ _ pd0 (PhaseData.append_phase p' pd0) tt eq_refl).
  destruct (by_elt_loop_total (dkeys (comp p')) p' (PhaseData.append_phase p' pd0) Hp')
    as [pd1 Hloop].
  { intros elt q. simpl_pd. rewrite F2. apply Helt. }
  rewrite (bind_run _ _ _ _ _ Hloop).
  apply by_elt_loop_ok in Hloop as (m' & _ & ->).
  pose proof (by_dim_add_run (length (comp p')) p'
                (PhaseData.mk (PhaseData._phases (PhaseData.append_phase p' pd0)) m'
                   (PhaseData.phases_by_dim (PhaseData.append_phase p' pd0))
                   (PhaseData.phase_dict (PhaseData.append_phase p' pd0))
                   (PhaseData.space (PhaseData.append_phase p' pd0)))) as Hstep.
  simpl_pd. rewrite F3 in Hstep |- *.
  destruct (set_add_total (bucket (PhaseData.phases_by_dim pd) (length (comp p')))
              p' (Hdim _) Hp') as (s & Hadd & _).
  rewrite Hadd in Hstep. rewrite (bind_run _ _ _ _ _ Hstep). by eexists.
Qed.

Lemma indexed_elements_comparable `{Env} ps pd :
  indexed ps pd -> Forall comparable ps ->
  (forall elt q, q ∈ set_elements (bucket (PhaseData.phases_by_elt pd) elt) ->
                 comparable q) /\
  (forall d q, q ∈ set_elements (bucket (PhaseData.phases_by_dim pd) d) ->
               comparable q).
Proof.
  intros Hinv Hps.
  assert (Hadded : forall j q, added ps j q -> comparable q).
  { intros j q (p & Hj & i & ->). apply comparable_set_index.
    eapply Forall_lookup_1; eassumption. }
  split.
  - intros elt q Hq. destruct (ix_elt_sound _ _ Hinv elt q Hq) as (j & Hj & _).
    by eapply Hadded.
  - intros d q Hq. destruct (ix_dim_sound _ _ Hinv d q Hq) as (j & Hj & _).
    by eapply Hadded.
Qed.

Lemma add_phases_returns_from `{Env} ps ps0 pd0 :
  indexed ps0 pd0 -> Forall comparable ps0 -> Forall comparable ps ->
  exists pd, PhaseData.add_phases ps pd0 = (pd, Ok tt).
Proof.
  unfold PhaseData.add_phases. revert ps0 pd0.
  induction ps as [|p ps IH]; intros ps0 pd0 Hinv Hps0 Hps; [by eexists|].
  apply Forall_cons in Hps as [Hp Hps].
  destruct (indexed_elements_comparable ps0 pd0 Hinv Hps0) as [Helt Hdim].
  destruct (add_phase_returns p pd0 Hp Helt Hdim) as [pd1 Hstep].
  cbn [for_each]. rewrite (bind_run _ _ _ _ _ Hstep).
  apply (IH (ps0 ++ [p])); [by eapply indexed_add_phase| |exact Hps].
  apply Forall_app. split; [exact Hps0|]. by apply Forall_singleton.
Qed.

(** On phases that can be compared, as the constructor builds them, every
    call of [add_phase] returns. *)
Lemma add_phases_returns `{Env} ps :
  Forall comparable ps ->
  exists pd, PhaseData.add_phases ps PhaseData.init = (pd, Ok tt).
Proof.
  intros Hps. apply (add_phases_returns_from ps [] PhaseData.init);
    [apply indexed_init|constructor|exact Hps].
Qed.

(** * Further properties of the containers *)

Lemma add_phases_cons_ok `{Env} p ps pd pd' :
  PhaseData.add_phases (p :: ps) pd = (pd', Ok tt) ->
  exists pd1, PhaseData.add_phase p pd = (pd1, Ok tt) /\
              PhaseData.add_phases ps pd1 = (pd', Ok tt).
Proof. apply for_each_cons_ok. Qed.

(** The elements gathered in [space] by calls that return. *)
Lemma space_after_from `{Env} ps pd0 pd :
  PhaseData.add_phases ps pd0 = (pd, Ok tt) ->
  forall elt, elt ∈ PhaseData.space pd <->
              elt ∈ PhaseData.space pd0 \/
              exists p, p ∈ ps /\ elt ∈ dkeys (comp p).
Proof.
  revert pd0. induction ps as [|p ps IH]; intros pd0 Hrun elt.
  - cbn in Hrun. injection Hrun as <-. split; [by left|].
    intros [?|(p & Hp & _)]; [done|]. by apply elem_of_nil in Hp.
  - apply add_phases_cons_ok in Hrun as (pd1 & Hstep & Hrest).
    rewrite (IH _ Hrest elt). apply add_phase_ok in Hstep. cbv zeta in Hstep.
    destruct Hstep as (nm & by_elt & by_dim & _ & _ & _ & ->). simpl_pd.
    rewrite elem_of_union, elem_of_list_to_set. split.
    + intros [[?|Hk]|(q & Hq & Hk)]; [by left| |].
      * right. exists p. split; [apply elem_of_cons; by left|exact Hk].
      * right. exists q. split; [apply elem_of_cons; by right|exact Hk].
    + intros [?|(q & Hq & Hk)]; [by left; left|].
      apply elem_of_cons in Hq as [->|Hq]; [left; by right|].
      right. by exists q.
Qed.

Lemma holds_nonempty `{Env} (s : pyset) q : holds s q -> s <> [].
Proof.
  intros [Hq|Hq] ->.
  - by apply elem_of_nil in Hq.
  - unfold set_contains in Hq. destruct (Phase_hash q); discriminate.
Qed.

(** X1. After [add_phase] has been called on the phases [ps] in turn, on a
    new PhaseData, [space] is the set of the keys of their compositions (a
    key with amount zero included), and an element is in [space] exactly
    when its set [phases_by_elt[E]] is not empty. *)
Theorem space_is_keys `{Env} (ps : list Phase) (pd : PhaseData.t) :
  PhaseData.add_phases ps PhaseData.init = (pd, Ok tt) ->
  (forall elt, elt ∈ PhaseData.space pd <->
               exists p, p ∈ ps /\ elt ∈ dkeys (comp p)) /\
  (forall elt, elt ∈ PhaseData.space pd <->
               bucket (PhaseData.phases_by_elt pd) elt <> []).
Proof.
  intros Hrun.
  assert (Hspace : forall elt, elt ∈ PhaseData.space pd <->
                               exists p, p ∈ ps /\ elt ∈ dkeys (comp p)).
  { intros elt. rewrite (space_after_from ps _ pd Hrun elt). cbn. split.
    - intros [Hin|?]; [|done]. by apply not_elem_of_empty in Hin.
    - by right. }
  split; [exact Hspace|].
  apply indexed_after in Hrun as Hinv. intros elt. rewrite Hspace. split.
  - intros (p & Hp & Hk). apply list_elem_of_lookup in Hp as [j Hj].
    destruct (ix_elt_complete _ _ Hinv elt j p Hj Hk) as (q & _ & Hq).
    by eapply holds_nonempty.
  - intros Hne.
    destruct (bucket (PhaseData.phases_by_elt pd) elt) as [|[h q] s] eqn:Hb;
      [done|].
    destruct (ix_elt_sound _ _ Hinv elt q) as (j & (p & Hj & i & ->) & Hk).
    { rewrite Hb. cbn. apply elem_of_cons. by left. }
    exists p. split; [|exact Hk]. apply list_elem_of_lookup. by exists j.
Qed.

Lemma space_is_keys_witness :
  let ps := built (Fe2O3_phase (-3)) ++ built Fe_with_zero_O in
  let pd := (PhaseData.add_phases ps PhaseData.init).1 in
  PhaseData.add_phases ps PhaseData.init = (pd, Ok tt) /\
  ((forall elt, elt ∈ PhaseData.space pd <->
                exists p, p ∈ ps /\ elt ∈ dkeys (comp p)) /\
   (forall elt, elt ∈ PhaseData.space pd <->
                bucket (PhaseData.phases_by_elt pd) elt <> [])).
Proof.
  intros ps pd.
  assert (Hrun : PhaseData.add_phases ps PhaseData.init = (pd, Ok tt))
    by (vm_compute; reflexivity).
  split; [exact Hrun|exact (space_is_keys ps pd Hrun)].
Defined.

(** One call that returns never takes anything away. *)
Lemma add_phase_grows `{Env} p pd pd' :
  PhaseData.add_phase p pd = (pd', Ok tt) ->
  PhaseData._phases pd `prefix_of` PhaseData._phases pd' /\
  PhaseData.space pd ⊆ PhaseData.space pd' /\
  (forall elt, bucket (PhaseData.phases_by_elt pd) elt
                 `prefix_of` bucket (PhaseData.phases_by_elt pd') elt) /\
  (forall d, bucket (PhaseData.phases_by_dim pd) d
               `prefix_of` bucket (PhaseData.phases_by_dim pd') d) /\
  (forall nm q, PhaseData.phase_dict pd !! nm = Some q ->
     exists q', PhaseData.phase_dict pd' !! nm = Some q' /\
                energy q' <= energy q).
Proof.
  intros Hrun. apply add_phase_ok in Hrun. cbv zeta in Hrun.
  destruct Hrun as (nm & by_elt & by_dim & _ & Helt & Hdim & ->). simpl_pd.
  split; [by apply prefix_app_r|]. split; [apply union_subseteq_l|].
  split; [intros elt; by eapply bucket_adds_prefix|].
  split; [intros d; by eapply bucket_adds_prefix|].
  intros nm' q Hq.
  set (p' := set_index (S (length (PhaseData._phases pd))) p) in *.
  destruct (decide (nm = nm')) as [<-|Hne].
  - rewrite Hq. destruct (Qltb (energy p') (energy q)) eqn:Hlt.
    + rewrite lookup_insert_eq. exists p'. split; [reflexivity|].
      apply Qlt_le_weak. by apply Qltb_true.
    + exists q. split; [exact Hq|apply Qle_refl].
  - exists q. split; [|apply Qle_refl].
    by rewrite (dict_step_other pd p' nm nm' Hne _ eq_refl).
Qed.

(** X2. [add_phase] and [add_phases] only add.  Whatever the PhaseData
    held before calls that return, afterwards [phases] starts with what it
    listed, [space] includes what it had, every set of [phases_by_elt] and
    [phases_by_dim] starts with its former elements, and every name of
    [phase_dict] is still there, with an energy that is not higher. *)
Theorem add_phases_only_add `{Env} (ps : list Phase) (pd0 pd : PhaseData.t) :
  PhaseData.add_phases ps pd0 = (pd, Ok tt) ->
  PhaseData.phases pd0 `prefix_of` PhaseData.phases pd /\
  PhaseData.space pd0 ⊆ PhaseData.space pd /\
  (forall elt, bucket (PhaseData.phases_by_elt pd0) elt
                 `prefix_of` bucket (PhaseData.phases_by_elt pd) elt) /\
  (forall d, bucket (PhaseData.phases_by_dim pd0) d
               `prefix_of` bucket (PhaseData.phases_by_dim pd) d) /\
  (forall nm q, PhaseData.phase_dict pd0 !! nm = Some q ->
     exists q', PhaseData.phase_dict pd !! nm = Some q' /\
                energy q' <= energy q).
Proof.
  unfold PhaseData.phases. revert pd0.
  induction ps as [|p ps IH]; intros pd0 Hrun.
  - cbn in Hrun. injection Hrun as <-.
    repeat split; try reflexivity. intros nm q Hq. exists q.
    split; [exact Hq|apply Qle_refl].
  - apply add_phases_cons_ok in Hrun as (pd1 & Hstep & Hrest).
    destruct (add_phase_grows _ _ _ Hstep) as (A1 & A2 & A3 & A4 & A5).
    destruct (IH _ Hrest) as (B1 & B2 & B3 & B4 & B5).
    split; [etrans; [exact A1|exact B1]|].
    split; [etrans; [exact A2|exact B2]|].
    split; [intros elt; etrans; [apply A3|apply B3]|].
    split; [intros d; etrans; [apply A4|apply B4]|].
    intros nm q Hq. destruct (A5 nm q Hq) as (q1 & Hq1 & Hle1).
    destruct (B5 nm q1 Hq1) as (q2 & Hq2 & Hle2).
    exists q2. split; [exact Hq2|]. by eapply Qle_trans.
Qed.

Lemma add_phases_only_add_witness :
  let pd0 := (PhaseData.add_phases (built (Fe2O3_phase (-3))) PhaseData.init).1 in
  let ps := built (Fe2O3_phase (-5)) ++ built Fe_alone in
  let pd := (PhaseData.add_phases ps pd0).1 in
  PhaseData.add_phases ps pd0 = (pd, Ok tt) /\
  (PhaseData.phases pd0 `prefix_of` PhaseData.phases pd /\
   PhaseData.space pd0 ⊆ PhaseData.space pd /\
   (forall elt, bucket (PhaseData.phases_by_elt pd0) elt
                  `prefix_of` bucket (PhaseData.phases_by_elt pd) elt) /\
   (forall d, bucket (PhaseData.phases_by_dim pd0) d
                `prefix_of` bucket (PhaseData.phases_by_dim pd) d) /\
   (forall nm q, PhaseData.phase_dict pd0 !! nm = Some q ->
      exists q', PhaseData.phase_dict pd !! nm = Some q' /\
                 energy q' <= energy q)).
Proof.
  intros pd0 ps pd.
  assert (Hrun : PhaseData.add_phases ps pd0 = (pd, Ok tt))
    by (vm_compute; reflexivity).
  split; [exact Hrun|exact (add_phases_only_add ps pd0 pd Hrun)].
Defined.

(** X3. The phase a call of [add_phase] has just added is the last of
    [phases], and its [index] is the length of [phases]: positions are
    counted from one. *)
Theorem add_phase_index_is_length `{Env} (p : Phase) (pd pd' : PhaseData.t) :
  PhaseData.add_phase p pd = (pd', Ok tt) ->
  exists q,
    last (PhaseData.phases pd') = Some q /\
    same_phase p q /\
    index q = Some (length (PhaseData.phases pd')) /\
    length (PhaseData.phases pd') = S (length (PhaseData.phases pd)).
Proof.
  intros Hrun. apply add_phase_ok in Hrun. cbv zeta in Hrun.
  destruct Hrun as (nm & by_elt & by_dim & _ & _ & _ & ->).
  unfold PhaseData.phases. simpl_pd. eexists.
  split; [apply last_snoc|]. split; [apply same_phase_set_index|].
  rewrite length_app. cbn. rewrite Nat.add_1_r. by split.
Qed.

Lemma add_phase_index_is_length_witness :
  let p := Fe_phase in
  let pd0 := (PhaseData.add_phases (built (Fe2O3_phase (-3))) PhaseData.init).1 in
  let pd := (PhaseData.add_phase p pd0).1 in
  PhaseData.add_phase p pd0 = (pd, Ok tt) /\
  exists q,
    last (PhaseData.phases pd) = Some q /\
    same_phase p q /\
    index q = Some (length (PhaseData.phases pd)) /\
    length (PhaseData.phases pd) = S (length (PhaseData.phases pd0)).
Proof.
  intros p pd0 pd.
  assert (Hrun : PhaseData.add_phase p pd0 = (pd, Ok tt))
    by (vm_compute; reflexivity).
  split; [exact Hrun|exact (add_phase_index_is_length p pd0 pd Hrun)].
Defined.


Lemma listed_add_phase `{Env} p pd pd' :
  listed pd -> PhaseData.add_phase p pd = (pd', Ok tt) -> listed pd'.
Proof.
  intros (Hd & He & Hn) Hrun. apply add_phase_ok in Hrun. cbv zeta in Hrun.
  destruct Hrun as (nm & by_elt & by_dim & _ & Helt & Hdim & ->).
  set (p' := set_index (S (length (PhaseData._phases pd))) p) in *.
  unfold listed, PhaseData.phases in *. simpl_pd.
  assert (Hold : forall q, q ∈ PhaseData._phases pd ->
                           q ∈ PhaseData._phases pd ++ [p'])
    by (intros q Hq; apply elem_of_app; by left).
  assert (Hnew : p' ∈ PhaseData._phases pd ++ [p']).
  { apply elem_of_app. right. by apply list_elem_of_singleton. }
  split; [|split].
  - intros nm' q Hq. destruct (decide (nm = nm')) as [<-|Hne].
    + destruct (PhaseData.phase_dict pd !! nm) as [held|] eqn:Hheld.
      * destruct (Qltb (energy p') (energy held)).
        -- rewrite lookup_insert_eq in Hq. by injection Hq as <-.
        -- rewrite Hheld in Hq. injection Hq as <-. by eapply Hold, Hd.
      * rewrite lookup_insert_eq in Hq. by injection Hq as <-.
    + rewrite (dict_step_other pd p' nm nm' Hne _ eq_refl) in Hq.
      by eapply Hold, Hd.
  - intros elt q Hq.
    destruct (bucket_adds_elements _ _ _ _ elt q Helt Hq) as [Hq'|[-> _]];
      [by eapply Hold, He|exact Hnew].
  - intros d q Hq.
    destruct (bucket_adds_elements _ _ _ _ d q Hdim Hq) as [Hq'|[-> _]];
      [by eapply Hold, Hn|exact Hnew].
Qed.

Lemma listed_init : listed PhaseData.init.
Proof.
  unfold listed, bucket. cbn. split; [|split].
  - intros nm q Hq. by rewrite lookup_empty in Hq.
  - intros elt q. rewrite lookup_empty. cbn. intros Hq.
    by apply elem_of_nil in Hq.
  - intros d q. rewrite lookup_empty. cbn. intros Hq.
    by apply elem_of_nil in Hq.
Qed.

(** X4. After any calls of [add_phase] that return, on a new PhaseData,
    every phase that [phase_dict] holds under a name, and every element of
    a set of [phases_by_elt] or [phases_by_dim], is one of the entries of
    [phases]: the indexes never refer to a phase the ordered list lacks. *)
Theorem indexes_within_phases `{Env} (ps : list Phase) (pd : PhaseData.t) :
  PhaseData.add_phases ps PhaseData.init = (pd, Ok tt) ->
  (forall nm q, PhaseData.phase_dict pd !! nm = Some q ->
                q ∈ PhaseData.phases pd) /\
  (forall elt q, q ∈ set_elements (bucket (PhaseData.phases_by_elt pd) elt) ->
                 q ∈ PhaseData.phases pd) /\
  (forall d q, q ∈ set_elements (bucket (PhaseData.phases_by_dim pd) d) ->
               q ∈ PhaseData.phases pd).
Proof.
  assert (Hgen : forall pd0, listed pd0 ->
            PhaseData.add_phases ps pd0 = (pd, Ok tt) -> listed pd).
  { induction ps as [|p ps IH]; intros pd0 Hl Hrun.
    - cbn in Hrun. by injection Hrun as <-.
    - apply add_phases_cons_ok in Hrun as (pd1 & Hstep & Hrest).
      eapply IH; [|exact Hrest]. by eapply listed_add_phase. }
  intros Hrun. exact (Hgen _ listed_init Hrun).
Qed.

Lemma indexes_within_phases_witness :
  let ps := built (Fe2O3_phase (-3)) ++ built (Fe2O3_phase (-5)) in
  let pd := (PhaseData.add_phases ps PhaseData.init).1 in
  PhaseData.add_phases ps PhaseData.init = (pd, Ok tt) /\
  ((forall nm q, PhaseData.phase_dict pd !! nm = Some q ->
                 q ∈ PhaseData.phases pd) /\
   (forall elt q, q ∈ set_elements (bucket (PhaseData.phases_by_elt pd) elt) ->
                  q ∈ PhaseData.phases pd) /\
   (forall d q, q ∈ set_elements (bucket (PhaseData.phases_by_dim pd) d) ->
                q ∈ PhaseData.phases pd)).
Proof.
  intros ps pd.
  assert (Hrun : PhaseData.add_phases ps PhaseData.init = (pd, Ok tt))
    by (vm_compute; reflexivity).
  split; [exact Hrun|exact (indexes_within_phases ps pd Hrun)].
Defined.

(** ** When [add_phase] raises *)

Lemma unit_comps_close_raise mine theirs ks e :
  unit_comps_close mine theirs ks = Raise e -> e = KeyError.
Proof.
  induction ks as [|k ks IH]; cbn [unit_comps_close]; [discriminate|].
  unfold dgetitem. destruct (dget mine k); [|by intros [= <-]].
  destruct (dget theirs k); [|by intros [= <-]]. cbn [mbind result_bind].
  destruct (Qltb tol _); [discriminate|exact IH].
Qed.

Lemma Phase_eq_raise q p e : Phase_eq q p = Raise e -> e = KeyError.
Proof.
  unfold Phase_eq. destruct (negb _); [discriminate|].
  destruct (Qltb tol _); [discriminate|]. apply unit_comps_close_raise.
Qed.

Lemma set_find_raise `{Env} (s : pyset) h p e :
  set_find s h p = Raise e -> e = KeyError.
Proof.
  induction s as [|[h' q] s IH]; cbn [set_find]; [discriminate|].
  destruct (hash_eqb h' h); [|exact IH].
  destruct (Phase_eq q p) as [[]|e'] eqn:Heq; cbn [mbind result_bind];
    [discriminate|exact IH|].
  intros [= <-]. by eapply Phase_eq_raise.
Qed.

Lemma set_add_raise `{Env} (s : pyset) p nm e :
  name p = Ok nm -> set_add s p = Raise e -> e = KeyError.
Proof.
  intros Hnm. unfold set_add, Phase_hash. rewrite Hnm. cbn [mbind result_bind].
  destruct (set_find s (nm, energy p) p) as [b|e'] eqn:Hf;
    cbn [mbind result_bind]; [discriminate|].
  intros [= <-]. by eapply set_find_raise.
Qed.


Lemma by_elt_add_any `{Env} elt p nm pd :
  name p = Ok nm ->
  listing (PhaseData.by_elt_add elt p pd).1 = listing pd /\
  forall e, (PhaseData.by_elt_add elt p pd).2 = Raise e -> e = KeyError.
Proof.
  intros Hnm. rewrite by_elt_add_run.
  destruct (set_add _ p) as [s|e'] eqn:Hadd; cbn [fst snd].
  - split; [reflexivity|discriminate].
  - split.
    + unfold PhaseData.by_elt_default.
      by destruct (PhaseData.phases_by_elt pd !! elt).
    + intros e [= <-]. by eapply set_add_raise.
Qed.

Lemma by_dim_add_any `{Env} d p nm pd :
  name p = Ok nm ->
  listing (PhaseData.by_dim_add d p pd).1 = listing pd /\
  forall e, (PhaseData.by_dim_add d p pd).2 = Raise e -> e = KeyError.
Proof.
  intros Hnm. rewrite by_dim_add_run.
  destruct (set_add _ p) as [s|e'] eqn:Hadd; cbn [fst snd].
  - split; [reflexivity|discriminate].
  - split.
    + unfold PhaseData.by_dim_default.
      by destruct (PhaseData.phases_by_dim pd !! d).
    + intros e [= <-]. by eapply set_add_raise.
Qed.

Lemma by_elt_loop_any `{Env} ks p nm pd :
  name p = Ok nm ->
  listing (for_each ks (fun elt => PhaseData.by_elt_add elt p) pd).1 = listing pd /\
  forall e, (for_each ks (fun elt => PhaseData.by_elt_add elt p) pd).2 = Raise e ->
            e = KeyError.
Proof.
  intros Hnm. revert pd. induction ks as [|k ks IH]; intros pd.
  - cbn. split; [reflexivity|discriminate].
  - cbn [for_each]. unfold mbind, M_bind.
    destruct (by_elt_add_any k p nm pd Hnm) as [Hl He].
    destruct (PhaseData.by_elt_add k p pd) as [pd1 [[]|e']]; cbn [fst snd] in *.
    + destruct (IH pd1) as [Hl1 He1]. split; [by rewrite Hl1|exact He1].
    + split; [exact Hl|]. intros e [= <-]. by apply He.
Qed.

(** What [add_phase] leaves, however it ends, once the name is known. *)
Lemma add_phase_any `{Env} p nm pd :
  name p = Ok nm ->
  let p' := set_index (S (length (PhaseData._phases pd))) p in
  PhaseData._phases (PhaseData.add_phase p pd).1 = PhaseData._phases pd ++ [p'] /\
  is_Some (PhaseData.phase_dict (PhaseData.add_phase p pd).1 !! nm) /\
  forall e, (PhaseData.add_phase p pd).2 = Raise e -> e = KeyError.
Proof.
  intros Hnm p'. unfold PhaseData.add_phase.
  rewrite (bind_lift_ok _ _ _ _ Hnm).
  rewrite (bind_run _ _ pd pd pd eq_refl). cbv zeta. fold p'.
  assert (Hnm' : name p' = Ok nm) by (unfold p'; by rewrite name_set_index).
  destruct (keep_lowest_fields nm p' pd) as (Hok & F1 & F2 & F3 & F4 & F5).
  destruct (PhaseData.keep_lowest nm p' pd) as [pd0 r0] eqn:Hkeep.
  simpl_pd. subst r0. rewrite (bind_run _ _ _ _ _ Hkeep).
  rewrite (bind_run _ _ pd0 (PhaseData.append_phase p' pd0) tt eq_refl).
  assert (Hdict : is_Some (PhaseData.phase_dict pd0 !! nm)).
  { rewrite F5. destruct (PhaseData.phase_dict pd !! nm) as [held|] eqn:Hheld.
    - destruct (Qltb (energy p') (energy held));
        rewrite ?lookup_insert_eq, ?Hheld; by eexists.
    - rewrite lookup_insert_eq. by eexists. }
  set (pd1 := PhaseData.append_phase p' pd0).
  assert (Hl1 : listing pd1 = (PhaseData._phases pd ++ [p'], PhaseData.phase_dict pd0)).
  { unfold listing, pd1. simpl_pd. by rewrite F1. }
  destruct (by_elt_loop_any (dkeys (comp p')) p' nm pd1 Hnm') as [Hl2 He2].
  unfold mbind, M_bind.
  destruct (for_each (dkeys (comp p')) _ pd1) as [pd2 [[]|e2]]; cbn [fst snd] in *.
  - destruct (by_dim_add_any (length (comp p')) p' nm pd2 Hnm') as [Hl3 He3].
    destruct (PhaseData.by_dim_add (length (comp p')) p' pd2) as [pd3 [[]|e3]];
      cbn [fst snd] in *.
    + unfold modify. cbn [fst snd]. unfold PhaseData.union_space. simpl_pd.
      rewrite Hl2, Hl1 in Hl3. unfold listing in Hl3. injection Hl3 as E1 E2.
      split; [exact E1|]. split; [by rewrite E2|discriminate].
    + rewrite Hl2, Hl1 in Hl3. unfold listing in Hl3. injection Hl3 as E1 E2.
      split; [exact E1|]. split; [by rewrite E2|].
      intros e [= <-]. by apply He3.
  - rewrite Hl1 in Hl2. unfold listing in Hl2. injection Hl2 as E1 E2.
    split; [exact E1|]. split; [by rewrite E2|].
    intros e [= <-]. by apply He2.
Qed.

(** X5. A call of [add_phase] that raises has stopped in one of two
    places.  Either [phase.name] raised: the exception is that one and the
    PhaseData is as it was.  Or the name was computed and a comparison
    inside a set raised [KeyError]: then the phase is already the last
    entry of [phases] and its name is a key of [phase_dict]. *)
Theorem add_phase_raise_cases `{Env} (p : Phase) (pd pd' : PhaseData.t) (e : exn) :
  PhaseData.add_phase p pd = (pd', Raise e) ->
  (name p = Raise e /\ pd' = pd) \/
  (e = KeyError /\
   exists nm, name p = Ok nm /\
     PhaseData.phases pd' =
       PhaseData.phases pd ++ [set_index (S (length (PhaseData.phases pd))) p] /\
     is_Some (PhaseData.phase_dict pd' !! nm)).
Proof.
  intros Hrun. destruct (name p) as [nm|e'] eqn:Hnm.
  - right. destruct (add_phase_any p nm pd Hnm) as (Hp & Hd & He).
    rewrite Hrun in Hp, Hd, He. cbn [fst snd] in *.
    split; [by apply He|]. exists nm. by repeat split.
  - left. unfold PhaseData.add_phase in Hrun.
    rewrite (bind_lift_raise _ _ _ _ Hnm) in Hrun. by injection Hrun as <- <-.
Qed.

Lemma add_phase_raise_cases_witness :
  PhaseData.add_phase nameless PhaseData.init
    = (PhaseData.init, Raise ZeroDivisionError) /\
  ((name nameless = Raise ZeroDivisionError /\ PhaseData.init = PhaseData.init) \/
   (ZeroDivisionError = KeyError /\
    exists nm, name nameless = Ok nm /\
      PhaseData.phases PhaseData.init =
        PhaseData.phases PhaseData.init
          ++ [set_index (S (length (PhaseData.phases PhaseData.init))) nameless] /\
      is_Some (PhaseData.phase_dict PhaseData.init !! nm))).
Proof.
  assert (Hrun : PhaseData.add_phase nameless PhaseData.init
                 = (PhaseData.init, Raise ZeroDivisionError))
    by (vm_compute; reflexivity).
  split; [exact Hrun|].
  exact (add_phase_raise_cases nameless PhaseData.init PhaseData.init
           ZeroDivisionError Hrun).
Defined.

(** * Further properties of [Phase] *)

(** ** Equality and hashing *)

Lemma keyset_eqb_sym a b : keyset_eqb a b = keyset_eqb b a.
Proof. unfold keyset_eqb. apply andb_comm. Qed.

(** X6. [==] on phases is symmetric: when [p == q] is [True], so is
    [q == p]. *)
Theorem Phase_eq_symmetric (p q : Phase) :
  Phase_eq p q = Ok true -> Phase_eq q p = Ok true.
Proof.
  unfold Phase_eq. rewrite (keyset_eqb_sym (dkeys (comp q))).
  rewrite (Qabs_Qminus (energy q)).
  destruct (keyset_eqb _ _) eqn:Hkeys; cbn [negb]; [|discriminate].
  destruct (Qltb tol _); [discriminate|].
  rewrite !unit_comps_close_spec. intros Hpq k Hk.
  apply (proj1 (keyset_eqb_spec _ _) Hkeys) in Hk.
  destruct (Hpq k Hk) as (u & v & Hu & Hv & Hc).
  exists v, u. split; [exact Hv|]. split; [exact Hu|].
  by rewrite Qabs_Qminus.
Qed.

Lemma Phase_eq_symmetric_witness :
  Phase_eq (Fe_at (-1)) (Fe_at (-1 + (1 # 2000000))) = Ok true /\
  Phase_eq (Fe_at (-1 + (1 # 2000000))) (Fe_at (-1)) = Ok true.
Proof.
  assert (H : Phase_eq (Fe_at (-1)) (Fe_at (-1 + (1 # 2000000))) = Ok true)
    by (vm_compute; reflexivity).
  split; [exact H|exact (Phase_eq_symmetric _ _ H)].
Defined.

Lemma unit_comps_close_same d ks :
  (forall k, k ∈ ks -> is_Some (dget d k)) ->
  unit_comps_close d d ks = Ok true.
Proof.
  intros Hks. apply unit_comps_close_spec. intros k Hk.
  destruct (Hks k Hk) as [u Hu]. exists u, u. do 2 (split; [exact Hu|]).
  apply Qabs_Qle_condition. unfold tol. split; lra.
Qed.

Lemma keyset_eqb_refl a : keyset_eqb a a = true.
Proof. by apply keyset_eqb_spec. Qed.

Lemma Phase_eq_by_energy (p q : Phase) :
  comp q = comp p -> _unit_comp q = _unit_comp p ->
  (forall k, k ∈ dkeys (comp p) -> is_Some (dget (_unit_comp p) k)) ->
  Phase_eq p q = Ok (Qle_bool (Qabs (energy p - energy q)) tol).
Proof.
  intros Hc Hu Hks. unfold Phase_eq. rewrite Hc, Hu, keyset_eqb_refl.
  cbn [negb]. rewrite (unit_comps_close_same _ _ Hks). unfold Qltb.
  by destruct (Qle_bool _ tol).
Qed.





Lemma set_find_no_hash `{Env} (s : pyset) h q :
  (forall h' x, (h', x) ∈ s -> hash_eqb h' h = false) ->
  set_find s h q = Ok false.
Proof.
  induction s as [|[h' x] s IH]; intros Hs; cbn [set_find]; [reflexivity|].
  rewrite (Hs h' x) by (apply elem_of_cons; by left).
  apply IH. intros h'' y Hy. apply (Hs h'' y), elem_of_cons. by right.
Qed.

(** X9. The hash decides before [==] is asked.  When no entry of a set
    has the hash of [q], [s.add(q)] appends [q] and [q in s] is [False],
    without [__eq__] being called: a set keeps two phases whose hashes
    differ apart even when [==] holds between them. *)
Theorem set_add_new_hash `{Env} (s : pyset) (q : Phase) (nm : string) :
  name q = Ok nm ->
  (forall h x, (h, x) ∈ s -> pyhash h <> pyhash (nm, energy q)) ->
  set_add s q = Ok (s ++ [((nm, energy q), q)]) /\
  set_contains s q = Ok false.
Proof.
  intros Hnm Hs. unfold set_add, set_contains, Phase_hash. rewrite Hnm.
  cbn [mbind result_bind].
  rewrite (set_find_no_hash s (nm, energy q) q); [by split|].
  intros h x Hx. unfold hash_eqb. apply Z.eqb_neq. by apply (Hs h x).
Qed.

Lemma set_add_new_hash_witness :
  let p := Fe_at (-1) in
  let q := Fe_at (-1 + (1 # 2097152)) in
  (name q = Ok "Fe"%string /\ Phase_eq p q = Ok true) /\
  set_add [(("Fe"%string, -1), p)] q
    = Ok ([(("Fe"%string, -1), p)] ++ [(("Fe"%string, energy q), q)]) /\
  set_contains [(("Fe"%string, -1), p)] q = Ok false.
Proof.
  intros p q. split; [split; vm_compute; reflexivity|].
  apply (set_add_new_hash [(("Fe"%string, -1), p)] q "Fe"); [reflexivity|].
  intros h x Hx. apply list_elem_of_singleton in Hx as [= -> ->].
  vm_compute. discriminate.
Defined.

(** ** The constructor and the setters *)


(** X12. A setter that raises has already stored what comes before the
    failing division.  When the nominal composition adds up to zero, the
    [energy] setter raises [ZeroDivisionError] with [energy] and
    [total_energy] assigned and [energy_pfu] as it was; when the composition
    adds up to zero, the [total_energy] setter raises it with [total_energy]
    assigned and the other two as they were. *)
Theorem setters_raise_midway (e : Q) (p : Phase) :
  (natoms p == 0 ->
   let p' := state_after (energy_set e) p in
   outcome (energy_set e) p = Raise ZeroDivisionError /\
   energy p' = e /\ total_energy p' = e * Phase_n p /\
   energy_pfu p' = energy_pfu p) /\
  (Phase_n p == 0 ->
   let p' := state_after (total_energy_set e) p in
   outcome (total_energy_set e) p = Raise ZeroDivisionError /\
   total_energy p' = e /\ energy p' = energy p /\
   energy_pfu p' = energy_pfu p).
Proof.
  unfold outcome, state_after. split; intros Hz; cbv zeta.
  - rewrite energy_set_run. cbv zeta. rewrite (pydiv_zero _ _ Hz).
    by repeat split.
  - rewrite total_energy_set_run. cbv zeta. unfold Phase_n in Hz.
    rewrite (pydiv_zero _ _ Hz). by repeat split.
Qed.

Lemma setters_raise_midway_witness :
  outcome (energy_set 1) no_atoms = Raise ZeroDivisionError /\
  outcome (total_energy_set 1) no_atoms = Raise ZeroDivisionError.
Proof.
  destruct (setters_raise_midway 1 no_atoms) as [A B].
  split; [apply A|apply B]; reflexivity.
Defined.

(** ** What [amt] and [fraction] extract *)

Lemma pulled_proper start target x x' d :
  x == x' -> pulled start target x d -> pulled start target x' d.
Proof.
  intros Hx [Hg Hs Ho]. split.
  - intros e. rewrite Hg, Hx. reflexivity.
  - rewrite Hs, Hx. reflexivity.
  - exact Ho.
Qed.

Lemma getd_Some d k v : dget d k = Some v -> getd d k = v.
Proof. intros Hd. unfold getd. by rewrite Hd. Qed.

(** The outer loop ends with the ratio of its last item. *)
Lemma residual_outer_last start target its c a d x :
  NoDup (dkeys target) ->
  (forall ca, ca ∈ its ++ [(c, a)] -> ca.1 ∈ dkeys target /\ ~ ca.2 == 0) ->
  dget target c = Some a ->
  pulled start target x d ->
  exists d',
    residual_outer target (its ++ [(c, a)]) d = (d', Ok tt) /\
    pulled start target (getd start c / a) d'.
Proof.
  intros Hnd Hitems Hc. revert d x Hitems.
  assert (Hstep : forall c0 a0 d x, c0 ∈ dkeys target -> ~ a0 == 0 ->
            pulled start target x d ->
            pulled start target (x + getd d c0 / a0)
              (residual_inner target (getd d c0 / a0) (dget_default d c0).2)).
  { intros c0 a0 d x Hc0 Ha0 [Hg Hs Ho]. split.
    - intros e. rewrite residual_inner_getd by done.
      rewrite getd_dget_default, Hg. ring.
    - rewrite residual_inner_dsum, dsum_dget_default, Hs. ring.
    - intros e He. rewrite residual_inner_other by done.
      rewrite dget_dget_default_ne; [by apply Ho|].
      intros ->. contradiction. }
  induction its as [|[c0 a0] its IH]; intros d x Hitems Hinv.
  - destruct (Hitems (c, a)) as [Hk Ha]; [by apply list_elem_of_singleton|].
    cbn [fst snd] in Hk, Ha. cbn [app residual_outer fst snd].
    destruct (dget_default d c) as [y d1] eqn:Hread.
    assert (Hy : y = getd d c) by (by rewrite <- dget_default_fst, Hread).
    assert (Hd1 : d1 = (dget_default d c).2) by (by rewrite Hread).
    rewrite (pydiv_ok y a Ha). subst y d1. eexists. split; [reflexivity|].
    apply (pulled_proper _ _ (x + getd d c / a)); [|by apply Hstep].
    rewrite (pulled_getd _ _ _ _ Hinv c), (getd_Some _ _ _ Hc). by field.
  - destruct (Hitems (c0, a0)) as [Hk Ha]; [apply elem_of_cons; by left|].
    cbn [fst snd] in Hk, Ha. cbn [app residual_outer fst snd].
    destruct (dget_default d c0) as [y d1] eqn:Hread.
    assert (Hy : y = getd d c0) by (by rewrite <- dget_default_fst, Hread).
    assert (Hd1 : d1 = (dget_default d c0).2) by (by rewrite Hread).
    rewrite (pydiv_ok y a0 Ha). subst y d1.
    apply (IH _ (x + getd d c0 / a0)).
    + intros ca Hca. apply Hitems, elem_of_cons. by right.
    + by apply Hstep.
Qed.

(** What [pull_out] returns once the loops have pulled [x] times the
    target out of the copy. *)
Lemma pull_out_pulled (h : heap) src comp start target x d :
  h !! src = Some (ODict start) ->
  h !! comp = Some (ODict target) ->
  residual_outer target target start = (d, Ok tt) ->
  pulled start target x d ->
  ~ dsum target == 0 ->
  ("var" ∉ dkeys target) -> ("var" ∉ dkeys start) ->
  exists r,
    pull_out src comp h = (h ++ [ODict r], Ok (length h)) /\
    getd r "var" == x /\
    (forall e, e <> "var"%string -> getd r e == getd start e - x * getd target e) /\
    (forall e, e ∉ dkeys target -> e <> "var"%string -> dget r e = dget start e).
Proof.
  intros Hsrc Hcomp Hrun [Hg Hs Ho] Hn Hvt Hvs.
  rewrite (pull_out_run h src comp start target Hsrc Hcomp). cbv zeta.
  rewrite Hrun. cbn [fst snd]. rewrite (pydiv_ok _ _ Hn).
  eexists. split; [reflexivity|]. rewrite getd_dset_eq. split; [|split].
  - rewrite Hs. by field.
  - intros e He. rewrite getd_dset_ne by done. apply Hg.
  - intros e He Hne. rewrite dget_dset_ne by done. by apply Ho.
Qed.

Lemma amt_phase_run `{Env} (h : heap) self me other q :
  h !! self = Some (OPhase me) ->
  h !! other = Some (OPhase q) ->
  amt self (TPhase other) h = pull_out (comp_ref me) (comp_ref q) h.
Proof.
  intros Hself Hother. unfold amt.
  rewrite (bind_run _ _ h h (comp_ref q)).
  - by rewrite (bind_run _ _ _ _ _ (read_phase_run _ _ _ Hself)).
  - by rewrite (bind_run _ _ _ _ _ (read_phase_run _ _ _ Hother)).
Qed.

Lemma fraction_phase_run `{Env} (h : heap) self me other q :
  h !! self = Some (OPhase me) ->
  h !! other = Some (OPhase q) ->
  fraction self (TPhase other) h = pull_out (unit_comp_ref me) (unit_comp_ref q) h.
Proof.
  intros Hself Hother. unfold fraction.
  rewrite (bind_run _ _ h h (unit_comp_ref q)).
  - by rewrite (bind_run _ _ _ _ _ (read_phase_run _ _ _ Hself)).
  - by rewrite (bind_run _ _ _ _ _ (read_phase_run _ _ _ Hother)).
Qed.

(** The loops of [pull_out] on a target whose last item is [(c, a)]. *)
Lemma pull_out_last (h : heap) src comp start its c a :
  let target := its ++ [(c, a)] in
  h !! src = Some (ODict start) ->
  h !! comp = Some (ODict target) ->
  NoDup (dkeys target) ->
  (forall e b, (e, b) ∈ target -> ~ b == 0) ->
  ("var" ∉ dkeys target) -> ("var" ∉ dkeys start) ->
  ~ dsum target == 0 ->
  exists r,
    pull_out src comp h = (h ++ [ODict r], Ok (length h)) /\
    getd r "var" == getd start c / a /\
    getd r c == 0 /\
    (forall e b, (e, b) ∈ target ->
                 getd r e == getd start e - (getd start c / a) * b) /\
    (forall e, e ∉ dkeys target -> e <> "var"%string -> dget r e = dget start e).
Proof.
  intros target Hsrc Hcomp Hnd Hnz Hvt Hvs Hn.
  assert (Hlast : (c, a) ∈ target).
  { apply elem_of_app. right. by apply list_elem_of_singleton. }
  assert (Hc : dget target c = Some a) by (by apply NoDup_dget).
  assert (Ha : ~ a == 0) by (by apply (Hnz c)).
  destruct (residual_outer_last start target its c a start 0 Hnd) as (d & Hrun & Hp).
  { intros [k b] Hin. cbn [fst snd]. split; [|by eapply Hnz].
    eapply dget_Some_key, NoDup_dget; [exact Hnd|exact Hin]. }
  { exact Hc. }
  { apply pulled_start. }
  destruct (pull_out_pulled h src comp start target _ d Hsrc Hcomp Hrun Hp Hn Hvt Hvs)
    as (r & Hr & Hvar & Hres & Hoth).
  exists r. split; [exact Hr|]. split; [exact Hvar|].
  assert (Hkey : forall e b, (e, b) ∈ target ->
            getd r e == getd start e - getd start c / a * b).
  { intros e b Hin. pose proof (NoDup_dget _ _ _ Hnd Hin) as He.
    rewrite Hres, (getd_Some _ _ _ He); [reflexivity|].
    intros ->. apply dget_Some_key in He. contradiction. }
  split; [|split; [exact Hkey|exact Hoth]].
  rewrite (Hkey c a Hlast). by field.
Qed.

(** X15. A phase pulled out of itself: [p.amt(p)] and [p.fraction(p)]
    return a dictionary with ['var'] equal to 1 and amount 0 under every
    other key, for a composition (unit composition) with distinct keys, no
    amount zero, no key ['var'] and a nonzero total.  The target is then
    the very dictionary the residual was copied from. *)
Theorem own_composition_pulled_out `{Env} (h : heap) (self : loc) (me : PhaseObj)
    (start : dict) :
  h !! self = Some (OPhase me) ->
  NoDup (dkeys start) ->
  (forall e b, (e, b) ∈ start -> ~ b == 0) ->
  ("var" ∉ dkeys start) ->
  ~ dsum start == 0 ->
  (h !! comp_ref me = Some (ODict start) ->
   exists r,
     amt self (TPhase self) h = (h ++ [ODict r], Ok (length h)) /\
     getd r "var" == 1 /\
     forall e, e <> "var"%string -> getd r e == 0) /\
  (h !! unit_comp_ref me = Some (ODict start) ->
   exists r,
     fraction self (TPhase self) h = (h ++ [ODict r], Ok (length h)) /\
     getd r "var" == 1 /\
     forall e, e <> "var"%string -> getd r e == 0).
Proof.
  intros Hself Hnd Hnz Hv Hn.
  assert (Hpull : forall src, h !! src = Some (ODict start) ->
            exists r,
              pull_out src src h = (h ++ [ODict r], Ok (length h)) /\
              getd r "var" == 1 /\
              forall e, e <> "var"%string -> getd r e == 0).
  { intros src Hsrc. destruct start as [|ca0 start0] using rev_ind.
    { exfalso. apply Hn. reflexivity. }
    clear IHstart0. destruct ca0 as [c a].
    assert (Hlast : (c, a) ∈ start0 ++ [(c, a)]).
    { apply elem_of_app. right. by apply list_elem_of_singleton. }
    assert (Ha : ~ a == 0) by (by apply (Hnz c)).
    destruct (pull_out_last h src src _ start0 c a Hsrc Hsrc Hnd Hnz Hv Hv Hn)
      as (r & Hr & Hvar & _ & Hres & Hoth).
    assert (Hx : getd (start0 ++ [(c, a)]) c / a == 1).
    { rewrite (getd_Some _ _ _ (NoDup_dget _ _ _ Hnd Hlast)). by field. }
    exists r. split; [exact Hr|]. split; [by rewrite Hvar|].
    intros e He. destruct (dget (start0 ++ [(c, a)]) e) as [b|] eqn:Hd.
    - rewrite (Hres e b (dget_Some_elem _ _ _ Hd)), Hx, (getd_Some _ _ _ Hd). ring.
    - unfold getd. rewrite Hoth, Hd; [reflexivity| |exact He].
      by apply dget_None. }
  split; intros Hstart.
  - rewrite (amt_phase_run h self me self me Hself Hself). by apply Hpull.
  - rewrite (fraction_phase_run h self me self me Hself Hself). by apply Hpull.
Qed.

Lemma own_composition_pulled_out_witness :
  let h := store_of Fe_alone [] in
  (exists r,
     amt 3%nat (TPhase 3%nat) h = (h ++ [ODict r], Ok (length h)) /\
     getd r "var" == 1 /\
     forall e, e <> "var"%string -> getd r e == 0) /\
  (exists r,
     fraction 3%nat (TPhase 3%nat) h = (h ++ [ODict r], Ok (length h)) /\
     getd r "var" == 1 /\
     forall e, e <> "var"%string -> getd r e == 0).
Proof.
  intros h.
  destruct (own_composition_pulled_out h 3%nat (mkPhaseObj 0 1 2 (-1) (-1) (-1))
              [("Fe"%string, 1)] eq_refl) as [A B].
  - apply (bool_decide_unpack _). vm_compute. reflexivity.
  - intros e b Hd. apply list_elem_of_singleton in Hd as [= -> ->]. discriminate.
  - apply dget_None. reflexivity.
  - vm_compute. discriminate.
  - split; [exact (A eq_refl)|exact (B eq_refl)].
Defined.

(** ** Composite phases *)

Lemma dadd_unfold d k x :
  dadd d k x = dset (dget_default d k).2 k (getd d k + x).
Proof.
  unfold dadd. rewrite <- dget_default_fst. by destruct (dget_default d k).
Qed.



Lemma dsum_dadd d k x : dsum (dadd d k x) == dsum d + x.
Proof.
  rewrite dadd_unfold, dsum_dset, getd_dget_default, dsum_dget_default. ring.
Qed.


Lemma add_scaled_dsum u f d :
  dsum (add_scaled u f d) == dsum d + dsum u * f.
Proof.
  unfold add_scaled. revert d.
  induction u as [|[k a] u IH]; intros d; cbn [fold_left fst snd].
  - unfold dsum at 3. cbn. ring.
  - rewrite IH, dsum_dadd. unfold dsum at 2 4, dvalues. cbn [map snd].
    rewrite qsum_cons. ring.
Qed.


Lemma mixture_from_dsum (pd : list (Phase * Q)) d :
  dsum (fold_left (fun comp pf => add_scaled (_unit_comp pf.1) pf.2 comp) pd d)
  == dsum d + qsum (map (fun pa => dsum (_unit_comp pa.1) * pa.2) pd).
Proof.
  revert d. induction pd as [|[q f] pd IH]; intros d; cbn [fold_left map fst snd].
  - cbn. ring.
  - rewrite IH, add_scaled_dsum, qsum_cons. ring.
Qed.


Lemma mixture_dsum pd :
  dsum (mixture pd) == qsum (map (fun pa => dsum (_unit_comp pa.1) * pa.2) pd).
Proof.
  unfold mixture. rewrite mixture_from_dsum. unfold dsum at 1. cbn. ring.
Qed.

Lemma from_phases_run `{Env} (pd : list (Phase * Q)) :
  length pd <> 1%nat ->
  from_phases pd =
    (_ ← mapM name (map fst pd);
     phase ← Phase_init (Some (CompDict (mixture pd)))
                        (Some (qsum (map (fun pa => pa.2 * energy pa.1) pd)))
                        "" false None "";
     Ok (set_phase_dict pd phase)).
Proof.
  intros Hlen. unfold from_phases. apply Nat.eqb_neq in Hlen. by rewrite Hlen.
Qed.




(** X17. [from_phases] raises when the accumulated composition adds up
    to zero, as it does for the empty mapping: the constructor it calls
    cannot divide the energy. *)
Theorem from_phases_zero_total {E : Env} {ES : EnvSpec E} (pd : list (Phase * Q)) :
  length pd <> 1%nat ->
  qsum (map (fun pa => dsum (_unit_comp pa.1) * pa.2) pd) == 0 ->
  exists x, from_phases pd = Raise x.
Proof.
  intros Hlen Hz. rewrite (from_phases_run pd Hlen).
  destruct (mapM name (map fst pd)) as [nms|x]; [|by exists x].
  cbn [mbind result_bind].
  destruct (Phase_init_zero_total (CompDict (mixture pd))
              (qsum (map (fun pa => pa.2 * energy pa.1) pd)) "" false None "")
    as [x Hx].
  - intros d [= <-]. by rewrite mixture_dsum.
  - exists x. by rewrite Hx.
Qed.

Lemma from_phases_zero_total_witness :
  exists x, @from_phases spec_env [] = Raise x.
Proof.
  apply (from_phases_zero_total (ES := spec_env_spec) []); [discriminate|reflexivity].
Defined.

(** ** Batches and assignment to [phases] *)

Lemma ingest_ok `{Env} per_atom d p pd :
  record_phase per_atom d = Ok p -> ingest per_atom d pd = PhaseData.add_phase p pd.
Proof.
  unfold record_phase, ingest.
  destruct (PhaseData.pyfloat (PhaseData.rec_delta_e d)) as [e|]; [|discriminate].
  cbn [mbind result_bind]. intros Hinit.
  rewrite (bind_lift_ok (Ok e) _ _ e eq_refl).
  by rewrite (bind_lift_ok _ _ _ p Hinit).
Qed.

Lemma ingest_raise `{Env} per_atom d x pd :
  record_phase per_atom d = Raise x -> ingest per_atom d pd = (pd, Raise x).
Proof.
  unfold record_phase, ingest.
  destruct (PhaseData.pyfloat (PhaseData.rec_delta_e d)) as [e|y].
  - cbn [mbind result_bind]. intros Hinit.
    rewrite (bind_lift_ok (Ok e) _ _ e eq_refl).
    by rewrite (bind_lift_raise _ _ _ x Hinit).
  - cbn [mbind result_bind]. intros [= <-]. reflexivity.
Qed.

Lemma read_api_data_run `{Env} ds per_atom pd :
  PhaseData.read_api_data (Some ds) per_atom pd = for_each ds (ingest per_atom) pd.
Proof. by destruct ds. Qed.

Lemma for_each_ingest `{Env} ds per_atom ps pd :
  mapM (record_phase per_atom) ds = Ok ps ->
  for_each ds (ingest per_atom) pd = PhaseData.add_phases ps pd.
Proof.
  revert ps pd. induction ds as [|d ds IH]; intros ps pd Hall.
  - injection Hall as <-. reflexivity.
  - cbn [mapM] in Hall.
    destruct (record_phase per_atom d) as [p|] eqn:Hd; [|discriminate].
    cbn [mbind result_bind] in Hall.
    destruct (mapM (record_phase per_atom) ds) as [ps'|] eqn:Hds; [|discriminate].
    cbn [mbind result_bind mret result_ret] in Hall. injection Hall as <-.
    unfold PhaseData.add_phases. cbn [for_each]. unfold mbind, M_bind.
    rewrite (ingest_ok per_atom d p pd Hd).
    destruct (PhaseData.add_phase p pd) as [pd1 [[]|x]]; [|reflexivity].
    apply (IH ps' pd1 eq_refl).
Qed.

Lemma for_each_app_ok {S A} (xs ys : list A) (body : A -> M S unit) s s1 :
  for_each xs body s = (s1, Ok tt) ->
  for_each (xs ++ ys) body s = for_each ys body s1.
Proof.
  revert s. induction xs as [|x xs IH]; intros s Hrun.
  - by injection Hrun as <-.
  - cbn [app for_each] in *. unfold mbind, M_bind in *.
    destruct (body x s) as [s' [[]|e]]; [|discriminate]. by apply IH.
Qed.

(** X18. [read_api_data] on a batch whose records all give a phase is
    [add_phases] on those phases, built as [Phase(name, float(delta_e),
    per_atom=per_atom)] in the order of the batch; without the key
    ['data'] it returns with the container as it was. *)
Theorem read_api_data_adds `{Env} (ds : list PhaseData.api_record)
    (per_atom : bool) (ps : list Phase) (pd : PhaseData.t) :
  mapM (record_phase per_atom) ds = Ok ps ->
  PhaseData.read_api_data (Some ds) per_atom pd = PhaseData.add_phases ps pd /\
  PhaseData.read_api_data None per_atom pd = (pd, Ok tt).
Proof.
  intros Hall. split; [|reflexivity].
  rewrite read_api_data_run. by apply for_each_ingest.
Qed.

(** X19. [read_api_data] stops at the first record that gives no phase,
    and keeps what it has added: when the records before it are added, a
    record without [delta_e] makes the call raise [TypeError] (from
    [float(None)], whatever its name), one with [delta_e] and without
    [name] makes it raise [PhaseError], and the container is left as the
    earlier records made it; the later records are not read. *)
Theorem read_api_data_stops `{Env} (ds1 ds2 : list PhaseData.api_record)
    (d : PhaseData.api_record) (per_atom : bool) (ps1 : list Phase)
    (pd pd1 : PhaseData.t) (x : exn) :
  mapM (record_phase per_atom) ds1 = Ok ps1 ->
  PhaseData.add_phases ps1 pd = (pd1, Ok tt) ->
  (PhaseData.rec_delta_e d = None /\ x = TypeError) \/
  (PhaseData.rec_delta_e d <> None /\ PhaseData.rec_name d = None /\ x = PhaseError) ->
  PhaseData.read_api_data (Some (ds1 ++ d :: ds2)) per_atom pd = (pd1, Raise x).
Proof.
  intros Hall Hadd Hbad. rewrite read_api_data_run.
  rewrite <- (for_each_ingest ds1 per_atom ps1 pd Hall) in Hadd.
  rewrite (for_each_app_ok _ _ _ _ _ Hadd). cbn [for_each].
  assert (Hd : record_phase per_atom d = Raise x).
  { unfold record_phase. destruct Hbad as [[Hn ->]|(Hs & Hn & ->)].
    - by rewrite Hn.
    - destruct (PhaseData.rec_delta_e d) as [e|]; [|done].
      cbn [PhaseData.pyfloat mbind result_bind]. rewrite Hn. reflexivity. }
  unfold mbind at 1, M_bind. by rewrite (ingest_raise per_atom d x pd1 Hd).
Qed.

Lemma read_api_data_adds_witness :
  let ps := built (Fe2O3_phase (-3)) ++ built Fe_alone in
  mapM (record_phase true) batch = Ok ps /\
  PhaseData.read_api_data (Some batch) true PhaseData.init
    = PhaseData.add_phases ps PhaseData.init /\
  PhaseData.read_api_data None true PhaseData.init = (PhaseData.init, Ok tt).
Proof.
  intros ps.
  assert (Hall : mapM (record_phase true) batch = Ok ps) by (vm_compute; reflexivity).
  split; [exact Hall|exact (read_api_data_adds batch true ps PhaseData.init Hall)].
Defined.

Lemma read_api_data_stops_witness :
  let ps1 := built (Fe2O3_phase (-3)) ++ built Fe_alone in
  let pd1 := (PhaseData.add_phases ps1 PhaseData.init).1 in
  let d := PhaseData.mk_record (Some "Li2O"%string) None in
  PhaseData.read_api_data (Some (batch ++ d :: batch)) true PhaseData.init
    = (pd1, Raise TypeError).
Proof.
  intros ps1 pd1 d.
  apply (read_api_data_stops batch batch d true ps1 PhaseData.init pd1 TypeError).
  - vm_compute. reflexivity.
  - vm_compute. reflexivity.
  - left. by split.
Defined.

(** X20. An assignment to [phases] that returns replaces the content:
    the list holds the assigned phases in order, [space] is the set of
    their keys, every phase under a name or in a set of an element is one
    of them, and the state reached does not depend on what the container
    held before. *)
Theorem phases_assignment_replaces `{Env} (ps : list Phase) (pd0 pd : PhaseData.t) :
  PhaseData.phases_set ps pd0 = (pd, Ok tt) ->
  Forall2 same_phase ps (PhaseData.phases pd) /\
  (forall elt, elt ∈ PhaseData.space pd <->
               exists p, p ∈ ps /\ elt ∈ dkeys (comp p)) /\
  (forall nm q, PhaseData.phase_dict pd !! nm = Some q -> exists j, added ps j q) /\
  (forall elt q, q ∈ set_elements (bucket (PhaseData.phases_by_elt pd) elt) ->
                 exists j, added ps j q) /\
  forall pd1, PhaseData.phases_set ps pd1 = (pd, Ok tt).
Proof.
  intros Hrun.
  assert (Hany : forall s, PhaseData.phases_set ps s
                           = PhaseData.add_phases ps PhaseData.init) by done.
  rewrite Hany in Hrun. pose proof (indexed_after ps pd Hrun) as Hix.
  split; [exact (ix_phases _ _ Hix)|]. split; [|split; [|split]].
  - intros elt. rewrite (space_after_from ps _ pd Hrun elt). split.
    + intros [Hin|Hp]; [|exact Hp]. by apply elem_of_empty in Hin.
    + intros Hp. by right.
  - intros nm q Hq. destruct (ix_dict_some _ _ Hix nm q Hq) as (j & Hj & _).
    by exists j.
  - intros elt q Hq. destruct (ix_elt_sound _ _ Hix elt q Hq) as (j & Hj & _).
    by exists j.
  - intros pd1. by rewrite Hany.
Qed.

Lemma phases_assignment_replaces_witness :
  let pd0 := (PhaseData.add_phases (built (Fe2O3_phase (-3))) PhaseData.init).1 in
  let ps := built Fe_alone in
  let pd := (PhaseData.add_phases ps PhaseData.init).1 in
  Forall2 same_phase ps (PhaseData.phases pd) /\
  (forall elt, elt ∈ PhaseData.space pd <->
               exists p, p ∈ ps /\ elt ∈ dkeys (comp p)) /\
  (forall nm q, PhaseData.phase_dict pd !! nm = Some q -> exists j, added ps j q) /\
  (forall elt q, q ∈ set_elements (bucket (PhaseData.phases_by_elt pd) elt) ->
                 exists j, added ps j q) /\
  forall pd1, PhaseData.phases_set ps pd1 = (pd, Ok tt).
Proof.
  intros pd0 ps pd. apply (phases_assignment_replaces ps pd0 pd).
  vm_compute. reflexivity.
Defined.

(** ** No phase twice in a set *)

Lemma set_find_false `{Env} (s : pyset) h p :
  set_find s h p = Ok false ->
  forall h' x, (h', x) ∈ s -> hash_eqb h' h = true -> Phase_eq x p = Ok false.
Proof.
  induction s as [|[h0 q] s IH]; intros Hfind h' x Hin Hh.
  - by apply elem_of_nil in Hin.
  - cbn [set_find] in Hfind. apply elem_of_cons in Hin as [[= -> ->]|Hin].
    + rewrite Hh in Hfind. destruct (Phase_eq q p) as [[]|]; [discriminate|done|discriminate].
    + destruct (hash_eqb h0 h); [|by eapply IH].
      destruct (Phase_eq q p) as [[]|]; [discriminate| |discriminate].
      by eapply IH.
Qed.

Lemma set_add_apart `{Env} (s s' : pyset) p :
  apart s -> set_add s p = Ok s' -> apart s'.
Proof.
  intros Hs. unfold set_add.
  destruct (Phase_hash p) as [h|]; [|discriminate]. cbn [mbind result_bind].
  destruct (set_find s h p) as [[]|] eqn:Hfind; [| |discriminate];
    cbn [mbind result_bind]; intros [= <-]; [exact Hs|].
  intros i j h1 x h2 y Hij Hi Hj Hh.
  destruct (decide (j < length s)%nat) as [Hlt|Hge].
  - rewrite lookup_app_l in Hi, Hj by lia.
    exact (Hs i j h1 x h2 y Hij Hi Hj Hh).
  - assert (Hjl : j = length s).
    { apply lookup_lt_Some in Hj. rewrite length_app in Hj. cbn in Hj. lia. }
    subst j. rewrite lookup_app_l in Hi by lia.
    rewrite lookup_app_r, Nat.sub_diag in Hj by lia. injection Hj as <- <-.
    eapply set_find_false; [exact Hfind| |exact Hh].
    by eapply list_elem_of_lookup_2.
Qed.

Lemma bucket_adds_apart `{Env} `{Countable K} p ks (m m' : gmap K pyset) :
  bucket_adds p ks m m' ->
  (forall k, apart (bucket m k)) -> forall k, apart (bucket m' k).
Proof.
  induction 1 as [m|k0 ks m s m' Hadd _ IH]; intros Hm; [exact Hm|].
  apply IH. intros k. destruct (decide (k0 = k)) as [->|Hne].
  - rewrite bucket_insert_eq. by eapply set_add_apart.
  - by rewrite bucket_insert_ne.
Qed.

Lemma all_apart_add_phase `{Env} p pd pd' :
  all_apart pd -> PhaseData.add_phase p pd = (pd', Ok tt) -> all_apart pd'.
Proof.
  intros [He Hd] Hrun. apply add_phase_ok in Hrun. cbv zeta in Hrun.
  destruct Hrun as (nm & by_elt & by_dim & _ & Helt & Hdim & ->).
  split; cbn [PhaseData.phases_by_elt PhaseData.phases_by_dim].
  - by eapply bucket_adds_apart.
  - by eapply bucket_adds_apart.
Qed.

Lemma all_apart_init `{Env} : all_apart PhaseData.init.
Proof.
  split; intros k i j h x h' y _ Hi; unfold bucket in Hi; cbn in Hi;
    rewrite lookup_empty in Hi; cbn in Hi; by rewrite lookup_nil in Hi.
Qed.

(** X21. The sets of a PhaseData hold no phase twice: calls of
    [add_phase] that return keep every set of [phases_by_elt] and
    [phases_by_dim] free of two entries with equal hashes whose phases
    compare equal, and a new PhaseData has only such sets. *)
Theorem sets_hold_no_equal_pair `{Env} (ps : list Phase) (pd0 pd : PhaseData.t) :
  all_apart pd0 ->
  PhaseData.add_phases ps pd0 = (pd, Ok tt) ->
  all_apart pd /\ all_apart PhaseData.init.
Proof.
  intros H0 Hrun. split.
  - revert pd0 H0 Hrun. induction ps as [|p ps IH]; intros pd0 H0 Hrun.
    + cbn in Hrun. by injection Hrun as <-.
    + apply add_phases_cons_ok in Hrun as (pd1 & Hstep & Hrest).
      eapply IH; [|exact Hrest]. by eapply all_apart_add_phase.
  - exact all_apart_init.
Qed.

Lemma sets_hold_no_equal_pair_witness :
  let ps := built (Fe2O3_phase (-3)) ++ built (Fe2O3_phase (-3)) ++ built Fe_alone in
  let pd := (PhaseData.add_phases ps PhaseData.init).1 in
  PhaseData.add_phases ps PhaseData.init = (pd, Ok tt) /\
  all_apart pd /\ all_apart PhaseData.init.
Proof.
  intros ps pd.
  assert (Hrun : PhaseData.add_phases ps PhaseData.init = (pd, Ok tt))
    by (vm_compute; reflexivity).
  split; [exact Hrun|].
  exact (sets_hold_no_equal_pair ps PhaseData.init pd all_apart_init Hrun).
Defined.

(** ** The space of a phase *)

Lemma Phase_space_keys (p : Phase) e :
  e ∈ Phase_space p <->
  exists v, (e, v) ∈ _unit_comp p /\ tol < Qabs v.
Proof.
  unfold Phase_space. rewrite elem_of_list_to_set, list_elem_of_fmap. split.
  - intros ([k v] & -> & Hin). apply list_elem_of_filter in Hin as [Hv Hin].
    cbn [fst snd] in *. exists v. split; [exact Hin|]. by apply Qltb_true.
  - intros (v & Hin & Hv). exists (e, v). split; [reflexivity|].
    apply list_elem_of_filter. split; [|exact Hin]. cbn [snd]. by apply Qltb_true.
Qed.

(** X22. [Phase.space] holds the keys of the unit composition whose
    amount exceeds [1e-6] in absolute value, and for a phase the
    constructor built and a PhaseData it was added to, [Phase.space] is
    within [PhaseData.space], which takes every key of the composition. *)
Theorem phase_space_within {E : Env} {ES : EnvSpec E}
    c e descr per_atom stab nm (p : Phase) (ps : list Phase) (pd : PhaseData.t) :
  Phase_init c e descr per_atom stab nm = Ok p ->
  p ∈ ps ->
  PhaseData.add_phases ps PhaseData.init = (pd, Ok tt) ->
  Phase_space p ⊆ PhaseData.space pd /\
  forall el, el ∈ Phase_space p <->
             exists v, (el, v) ∈ _unit_comp p /\ tol < Qabs v.
Proof.
  intros Hinit Hin Hrun. split; [|apply Phase_space_keys].
  intros el Hel. apply Phase_space_keys in Hel as (v & Hv & _).
  apply (space_after_from ps _ pd Hrun). right. exists p. split; [exact Hin|].
  destruct (Phase_init_inv _ _ _ _ _ _ _ Hinit)
    as (c' & d & u & r & _ & _ & Hu & _ & Hc & Hun & _).
  unfold comp. rewrite Hc, <- (unit_comp_keys d u Hu), <- Hun.
  apply list_elem_of_fmap. by exists (el, v).
Qed.

Lemma phase_space_within_witness :
  let p := the_phase Fe_with_zero_O in
  let pd := (PhaseData.add_phases [p] PhaseData.init).1 in
  Phase_space p ⊆ PhaseData.space pd /\
  forall el, el ∈ Phase_space p <->
             exists v, (el, v) ∈ _unit_comp p /\ tol < Qabs v.
Proof.
  intros p pd.
  apply (phase_space_within (ES := spec_env_spec)
           (Some (CompDict [("Fe"%string, 1); ("O"%string, 0)])) (Some (-1))
           "" true None "" p [p] pd).
  - vm_compute. reflexivity.
  - by apply list_elem_of_singleton.
  - vm_compute. reflexivity.
Defined.

(** * Binary floating point: what rounding keeps *)

(** ** The rounding of binary64 *)

Lemma pow2_pos (z : Z) : 0 < 2 ^ z.
Proof. apply Qpower_0_lt. reflexivity. Qed.

Lemma pow2_plus (a b : Z) : 2 ^ (a + b) == 2 ^ a * 2 ^ b.
Proof. apply Qpower_plus. discriminate. Qed.

Lemma pow2_inject (k : Z) : (0 <= k)%Z -> inject_Z (2 ^ k) == 2 ^ k.
Proof.
  intros Hk. rewrite Zpower_Qpower by exact Hk. reflexivity.
Qed.

(** [2 ** floor_log2 a <= a] for a positive [a]. *)
Lemma Qfloor_log2_le (a : Q) : 0 < a -> 2 ^ Qfloor_log2 a <= a.
Proof.
  intros Ha. unfold Qfloor_log2.
  set (n := Qnum a). set (d := Z.pos (Qden a)).
  destruct (Qle_bool (2 ^ (Z.log2 n - Z.log2 d)) a) eqn:E.
  - by apply Qle_bool_iff.
  - clear E.
    assert (Hn : (0 < n)%Z).
    { unfold n. destruct a as [an ad]. unfold Qlt in Ha. cbn in *. lia. }
    assert (Hd : (0 < d)%Z) by (unfold d; lia).
    destruct (Z.log2_spec n Hn) as [Hn1 _].
    destruct (Z.log2_spec d Hd) as [_ Hd2].
    pose proof (Z.log2_nonneg n) as Hln. pose proof (Z.log2_nonneg d) as Hld.
    assert (Hsplit : 2 ^ (Z.log2 n - Z.log2 d - 1)
                     == 2 ^ Z.log2 n * / 2 ^ (Z.log2 d + 1)).
    { replace (Z.log2 n - Z.log2 d - 1)%Z with (Z.log2 n + - (Z.log2 d + 1))%Z by lia.
      rewrite pow2_plus, Qpower_opp. reflexivity. }
    rewrite Hsplit.
    assert (Ea : a == inject_Z n / inject_Z d).
    { unfold n, d. destruct a as [an ad]. cbn [Qnum Qden]. apply Qmake_Qdiv. }
    assert (H1 : 2 ^ Z.log2 n <= inject_Z n).
    { rewrite <- pow2_inject by exact Hln. rewrite <- Zle_Qle. exact Hn1. }
    assert (H2 : inject_Z d <= 2 ^ (Z.log2 d + 1)).
    { rewrite <- pow2_inject by lia. rewrite <- Zle_Qle.
      replace (Z.log2 d + 1)%Z with (Z.succ (Z.log2 d)) by lia. lia. }
    assert (Hdq : 0 < inject_Z d) by (rewrite <- (Zlt_Qlt 0); exact Hd).
    pose proof (pow2_pos (Z.log2 d + 1)) as Hp.
    pose proof (pow2_pos (Z.log2 n)) as Hp'.
    set (P := 2 ^ Z.log2 n) in *. set (R := 2 ^ (Z.log2 d + 1)) in *.
    set (N := inject_Z n) in *. set (D := inject_Z d) in *.
    rewrite Ea. apply Qle_shift_div_l; [exact Hdq|].
    assert (E2 : P * / R * D == (P * D) / R) by (field; lra).
    rewrite E2. apply Qle_shift_div_r; [exact Hp|].
    apply Qle_trans with (P * R).
    + rewrite !(Qmult_comm P). apply Qmult_le_compat_r; [exact H2|lra].
    + apply Qmult_le_compat_r; [exact H1|lra].
Qed.

(** The nearest integer is within a half. *)
Lemma round_half_even_near (m : Q) :
  Qabs (inject_Z (round_half_even m) - m) <= 1 # 2.
Proof.
  unfold round_half_even. pose proof (Qfloor_le m) as Hlo.
  pose proof (Qlt_floor m) as Hhi. rewrite inject_Z_plus in Hhi.
  set (f := inject_Z (Qfloor m)) in *.
  assert (E1 : inject_Z 1 == 1) by reflexivity. rewrite E1 in Hhi.
  destruct (Qcompare_spec (m - f) (1 # 2)) as [He|Hl|Hg].
  - destruct (Z.even (Qfloor m)).
    + fold f. apply Qabs_Qle_condition. split; lra.
    + rewrite inject_Z_plus. fold f. rewrite E1.
      apply Qabs_Qle_condition. split; lra.
  - fold f. apply Qabs_Qle_condition. split; lra.
  - rewrite inject_Z_plus. fold f. rewrite E1.
    apply Qabs_Qle_condition. split; lra.
Qed.

(** [round64] has relative error at most [2 ** -53] on every number whose
    absolute value is at least [2 ** -1022], the smallest normal number. *)
Lemma round64_relative_error (x : Q) :
  2 ^ (-1022) <= Qabs x ->
  Qabs (round64 x - x) <= u64 * Qabs x.
Proof.
  intros Hx. unfold round64.
  destruct (Qeq_bool x 0) eqn:E0.
  { assert (Ez : x - x == 0) by ring. rewrite Ez.
    change (0 <= u64 * Qabs x).
    apply Qmult_le_0_compat; [discriminate|apply Qabs_nonneg]. }
  apply Qeq_bool_neq in E0.
  set (a := Qabs x) in *.
  set (q := Z.max (Qfloor_log2 a - 52) (-1074)).
  set (m := round_half_even (a / 2 ^ q)).
  set (y := inject_Z (Z.sgn (Qnum x) * m) * 2 ^ q).
  destruct (Qeq_bool y x) eqn:Ey.
  { assert (Ez : x - x == 0) by ring. rewrite Ez.
    change (0 <= u64 * a).
    apply Qmult_le_0_compat; [discriminate|apply Qabs_nonneg]. }
  clear Ey.
  assert (Ha : 0 < a).
  { pose proof (pow2_pos (-1022)). lra. }
  pose proof (pow2_pos q) as Hq.
  (* the last place is small against [a] *)
  assert (Hulp : 2 ^ q <= (2 * u64) * a).
  { assert (Hs : 2 ^ (q + 52) <= a).
    { unfold q. destruct (Z.max_spec (Qfloor_log2 a - 52) (-1074)) as [[_ ->]|[_ ->]].
      - exact Hx.
      - replace (Qfloor_log2 a - 52 + 52)%Z with (Qfloor_log2 a) by lia.
        by apply Qfloor_log2_le. }
    rewrite pow2_plus in Hs.
    assert (E52 : (2:Q) ^ 52 == 4503599627370496) by reflexivity.
    rewrite E52 in Hs. unfold u64. 
    assert (Ek : 2 * (1 # 9007199254740992) == 1 # 4503599627370496) by reflexivity.
    rewrite Ek. 
    assert (Ek2 : (1 # 4503599627370496) * a == a / 4503599627370496).
    { field. }
    rewrite Ek2. apply Qle_shift_div_l; [reflexivity|exact Hs]. }
  (* the distance of the rounded significand *)
  pose proof (round_half_even_near (a / 2 ^ q)) as Hm. fold m in Hm.
  assert (Hd : Qabs (inject_Z m * 2 ^ q - a) <= (1 # 2) * 2 ^ q).
  { assert (E1 : inject_Z m * 2 ^ q - a == (inject_Z m - a / 2 ^ q) * 2 ^ q).
    { field. lra. }
    rewrite E1, Qabs_Qmult, (Qabs_pos (2 ^ q)) by lra.
    apply Qmult_le_compat_r; [exact Hm|lra]. }
  (* the sign *)
  assert (Hsgn : Qabs (y - x) == Qabs (inject_Z m * 2 ^ q - a)).
  { unfold y, a. destruct x as [[|p|p] d].
    - exfalso. apply E0. reflexivity.
    - cbn [Qnum Z.sgn]. rewrite Z.mul_1_l.
      rewrite (Qabs_pos (Z.pos p # d)) by (unfold Qle; cbn; lia). reflexivity.
    - cbn [Qnum Z.sgn].
      assert (En : inject_Z (-1 * m) == - inject_Z m).
      { rewrite inject_Z_mult. 
        assert (inject_Z (-1) == -1) by reflexivity. rewrite H. ring. }
      rewrite En.
      rewrite (Qabs_neg (Z.neg p # d)) by (unfold Qle; cbn; lia).
      rewrite <- Qabs_opp. apply Qabs_wd. ring. }
  rewrite Hsgn. eapply Qle_trans; [exact Hd|]. 
  assert (Hfin : (1 # 2) * 2 ^ q <= (1 # 2) * (2 * u64 * a)).
  { rewrite !(Qmult_comm (1 # 2)). apply Qmult_le_compat_r; [exact Hulp|discriminate]. }
  eapply Qle_trans; [exact Hfin|]. 
  assert (Ef : (1 # 2) * (2 * u64 * a) == u64 * a) by ring.
  rewrite Ef. apply Qle_refl.
Qed.

(** ** Runs that do not round *)

Lemma Qsame_eq x y : Qsame x y = true -> x = y.
Proof.
  unfold Qsame. intros H. apply andb_true_iff in H as [Hn Hd].
  apply Z.eqb_eq in Hn. apply Pos.eqb_eq in Hd.
  destruct x, y. cbn in *. by subst.
Qed.

Lemma Qplus_assoc_eq (x y z : Q) : x + (y + z) = (x + y) + z.
Proof.
  destruct x as [a b], y as [c d], z as [e f]. unfold Qplus. cbn [Qnum Qden].
  f_equal; [|by rewrite Pos.mul_assoc].
  rewrite !Pos2Z.inj_mul. ring.
Qed.

Lemma Qplus_0_r_eq (x : Q) : x + 0 = x.
Proof.
  destruct x as [a b]. unfold Qplus. cbn [Qnum Qden].
  f_equal; [lia|lia].
Qed.

Lemma Qplus_0_l_eq (x : Q) : 0 + x = x.
Proof.
  destruct x as [a b]. unfold Qplus. cbn [Qnum Qden].
  f_equal. lia.
Qed.

Lemma sim_ret {A} (a : A) : sim (mret a) (mret a).
Proof. intros [h f] Hf. by split. Qed.

Lemma sim_ext {A} (mf : M Fl.machine A) (m m' : M heap A) :
  (forall h, m h = m' h) -> sim mf m -> sim mf m'.
Proof. intros Heq Hs s Hf. rewrite <- Heq. by apply Hs. Qed.

Lemma sim_bind {A B} (mf : M Fl.machine A) (m : M heap A)
    (kf : A -> M Fl.machine B) (k : A -> M heap B) :
  sim mf m -> (forall a, sim (kf a) (k a)) -> sim (mf ≫= kf) (m ≫= k).
Proof.
  intros Hm Hk s. unfold mbind, M_bind. specialize (Hm s).
  destruct (mf s) as [s1 [a|e]] eqn:Hrun; cbn [fst snd] in *.
  - intros Hf. destruct (Hk a s1 Hf) as [Hf1 Hrun1].
    destruct (Hm Hf1) as [Hf0 Hrun0]. split; [exact Hf0|].
    by rewrite Hrun0.
  - intros Hf. destruct (Hm Hf) as [Hf0 Hrun0]. split; [exact Hf0|].
    by rewrite Hrun0.
Qed.

Lemma sim_on_store {A} (m : M heap A) : sim (Fl.on_store m) m.
Proof.
  intros [h f]. unfold Fl.on_store. cbn [Fl.store Fl.exact].
  destruct (m h) as [h' r]. cbn. by split.
Qed.

Lemma sim_round rnd x : sim (Fl.round rnd x) (mret x).
Proof.
  intros [h f]. unfold Fl.round. cbn. intros Hf.
  apply andb_true_iff in Hf as [Hf Hx]. apply Qsame_eq in Hx.
  split; [exact Hf|]. by rewrite Hx.
Qed.

Lemma sim_raise {A} e : sim (raise e : M Fl.machine A) (raise e).
Proof. intros [h f] Hf. by split. Qed.

Lemma sim_fdiv rnd x y : sim (Fl.fdiv rnd x y) (lift (pydiv x y)).
Proof.
  unfold Fl.fdiv, pydiv. destruct (Qeq_bool y 0); [apply sim_raise|].
  apply sim_round.
Qed.

Lemma sim_for_each {A} (xs : list A) (bf : A -> M Fl.machine unit)
    (b : A -> M heap unit) :
  (forall x, sim (bf x) (b x)) -> sim (for_each xs bf) (for_each xs b).
Proof.
  intros Hb. induction xs as [|x xs IH]; cbn [for_each]; [apply sim_ret|].
  apply sim_bind; [apply Hb|]. intros _. exact IH.
Qed.

Lemma sim_sum_from rnd acc xs :
  sim (Fl.sum_from rnd acc xs) (mret (acc + qsum xs)).
Proof.
  revert acc. induction xs as [|x xs IH]; intros acc; cbn [Fl.sum_from].
  - cbn [qsum fold_right]. rewrite Qplus_0_r_eq. apply sim_ret.
  - eapply sim_ext; [|apply sim_bind; [apply sim_round|intros a; apply IH]].
    intros h. unfold_M. rewrite qsum_cons. by rewrite Qplus_assoc_eq.
Qed.

Lemma sim_sum_values rnd l : sim (Fl.sum_values rnd l) (sum_values l).
Proof.
  unfold Fl.sum_values, sum_values.
  apply sim_bind; [apply sim_on_store|]. intros d.
  eapply sim_ext; [|apply sim_sum_from]. intros h.
  unfold dsum. by rewrite Qplus_0_l_eq.
Qed.

Lemma sim_pull_out rnd src comp : sim (Fl.pull_out rnd src comp) (pull_out src comp).
Proof.
  unfold Fl.pull_out, pull_out.
  apply sim_bind; [apply sim_on_store|]. intros d.
  apply sim_bind; [apply sim_on_store|]. intros residual.
  apply sim_bind; [apply sim_sum_values|]. intros tot.
  apply sim_bind; [apply sim_on_store|]. intros outer.
  apply sim_bind.
  { apply sim_for_each. intros ca.
    apply sim_bind; [apply sim_on_store|]. intros x.
    apply sim_bind; [apply sim_fdiv|]. intros pres.
    apply sim_bind; [apply sim_on_store|]. intros inner.
    apply sim_for_each. intros ca2.
    apply sim_bind; [apply sim_on_store|]. intros y.
    eapply sim_ext;
      [|apply sim_bind; [apply sim_round|intros taken;
        apply sim_bind; [apply sim_round|intros left; apply sim_on_store]]].
    intros h. reflexivity. }
  intros _.
  apply sim_bind; [apply sim_sum_values|]. intros s.
  eapply sim_ext;
    [|apply sim_bind; [apply sim_round|intros pulled;
      apply sim_bind; [apply sim_on_store|intros ?;
      apply sim_bind; [apply sim_on_store|intros v;
      apply sim_bind; [apply sim_sum_values|intros total;
      apply sim_bind; [apply sim_fdiv|intros q;
      apply sim_bind; [apply sim_on_store|intros ?; apply sim_ret]]]]]]].
  intros h. reflexivity.
Qed.

Lemma sim_amt `{Env} rnd self t : sim (Fl.amt rnd self t) (amt self t).
Proof.
  unfold Fl.amt, amt.
  apply sim_bind; [apply sim_on_store|]. intros comp.
  apply sim_bind; [apply sim_on_store|]. intros me. apply sim_pull_out.
Qed.

Lemma sim_fraction `{Env} rnd self t :
  sim (Fl.fraction rnd self t) (fraction self t).
Proof.
  unfold Fl.fraction, fraction.
  apply sim_bind; [apply sim_on_store|]. intros comp.
  apply sim_bind; [apply sim_on_store|]. intros me. apply sim_pull_out.
Qed.

(** The exact run behind a rounded run that ends without rounding. *)
Lemma exact_run {A} (mf : M Fl.machine A) (m : M heap A) h s' r :
  sim mf m -> mf (Fl.mk_machine h true) = (s', r) -> Fl.exact s' = true ->
  m h = (Fl.store s', r).
Proof.
  intros Hs Hrun Hf. specialize (Hs (Fl.mk_machine h true)).
  rewrite Hrun in Hs. cbn [fst snd Fl.store] in Hs. by destruct (Hs Hf) as [_ ?].
Qed.

(** ** What a rounded run keeps whatever it rounds *)










(** ** The energy setters with rounding *)

Lemma fl_div_ok rnd x y : ~ y == 0 -> Fl.div rnd x y = Ok (rnd (x / y)).
Proof.
  intros Hy. unfold Fl.div. destruct (Qeq_bool y 0) eqn:E; [|reflexivity].
  apply Qeq_bool_iff in E. contradiction.
Qed.

Lemma fl_energy_set_run rnd e p :
  Fl.energy_set rnd e p =
    let p1 := set_total_energy_field
                (Fl.mul rnd e (Fl.sum rnd (dvalues (comp p))))
                (set_energy_field e p) in
    match Fl.div rnd e (Fl.sum rnd (dvalues (_nom_comp p))) with
    | Ok pfu => (set_energy_pfu_field pfu p1, Ok tt)
    | Raise x => (p1, Raise x)
    end.
Proof.
  unfold Fl.energy_set. unfold_M. destruct p. simpl_fields.
  by destruct (Fl.div rnd e _).
Qed.

Lemma fl_total_energy_set_run rnd e p :
  Fl.total_energy_set rnd e p =
    let p1 := set_total_energy_field e p in
    match Fl.div rnd e (Fl.sum rnd (dvalues (comp p))) with
    | Ok per_atom =>
        let p2 := set_energy_field per_atom p1 in
        match Fl.div rnd e (Fl.sum rnd (dvalues (_nom_comp p))) with
        | Ok pfu => (set_energy_pfu_field pfu p2, Ok tt)
        | Raise x => (p2, Raise x)
        end
    | Raise x => (p1, Raise x)
    end.
Proof.
  unfold Fl.total_energy_set. unfold_M. destruct p. simpl_fields.
  destruct (Fl.div rnd e _); [|reflexivity]. by destruct (Fl.div rnd e _).
Qed.

(** A quotient that is rounded with relative error [u], taken back to the
    dividend. *)
Lemma rounded_quotient_back (u x n q : Q) :
  ~ n == 0 ->
  Qabs (q - x / n) <= u * Qabs (x / n) ->
  Qabs (q * n - x) <= u * Qabs x.
Proof.
  intros Hn Hq.
  assert (Hpos : 0 < Qabs n).
  { destruct (Qlt_le_dec 0 (Qabs n)) as [|Hle]; [done|].
    exfalso. apply Hn. apply Qabs_Qle_condition in Hle. lra. }
  assert (E1 : q * n - x == (q - x / n) * n) by (by field).
  assert (E2 : x == x / n * n) by (by field).
  rewrite E1, Qabs_Qmult. rewrite E2 at 2. rewrite Qabs_Qmult.
  rewrite Qmult_assoc. apply Qmult_le_compat_r; [exact Hq|lra].
Qed.

(** A product and a quotient by the same number, each rounded with
    relative error [u]. *)
Lemma rounded_round_trip (u e n t q : Q) :
  0 <= u -> ~ n == 0 ->
  Qabs (t - e * n) <= u * Qabs (e * n) ->
  Qabs (q - t / n) <= u * Qabs (t / n) ->
  Qabs (q - e) <= (2 * u + u * u) * Qabs e.
Proof.
  intros Hu Hn Ht Hq.
  assert (Hpos : 0 < Qabs n).
  { destruct (Qlt_le_dec 0 (Qabs n)) as [|Hle]; [done|].
    exfalso. apply Hn. apply Qabs_Qle_condition in Hle. lra. }
  assert (HA : Qabs (t / n - e) <= u * Qabs e).
  { assert (E1 : t - e * n == (t / n - e) * n) by (by field).
    rewrite E1, !Qabs_Qmult, Qmult_assoc in Ht.
    apply Qmult_lt_0_le_reg_r in Ht; [exact Ht|exact Hpos]. }
  assert (HB : Qabs (t / n) <= Qabs e + Qabs (t / n - e)).
  { assert (E2 : t / n == e + (t / n - e)) by ring.
    rewrite E2 at 1. apply Qabs_triangle. }
  assert (HC : Qabs (q - e) <= Qabs (q - t / n) + Qabs (t / n - e)).
  { assert (E3 : q - e == (q - t / n) + (t / n - e)) by ring.
    rewrite E3 at 1. apply Qabs_triangle. }
  pose proof (Qabs_nonneg e) as He.
  assert (Hu1 : u * Qabs (t / n) <= u * (Qabs e + u * Qabs e)).
  { rewrite !(Qmult_comm u). apply Qmult_le_compat_r; [lra|exact Hu]. }
  assert (Hexp : u * (Qabs e + u * Qabs e) + u * Qabs e
                 == (2 * u + u * u) * Qabs e) by ring.
  rewrite <- Hexp. lra.
Qed.

(** C9, as the code has it.  For a composition whose unit and nominal
    forms exist and whose totals, as the setter computes them, are not
    zero, [Phase(comp, e, per_atom=True)] is built; its [energy] is [e];
    its [total_energy] is the rounded product of [e] and the total [n];
    and that divided by [n] is [e] up to the rounding of the product and
    of the quotient: when each is rounded with relative error at most
    [2 ** -53], as binary64 does unless the result overflows or underflows,
    the difference is at most [(2 u + u * u) * |e|] with [u = 2 ** -53],
    hence at most [1e-9] when [|e| <= 4e6]. *)
Theorem per_atom_round_trip `{Env} (rnd : Q -> Q) (composition unitc nom : dict)
    (e : Q) descr stab nm :
  unit_comp composition = Ok unitc ->
  reduce_comp composition = Ok nom ->
  let n := Fl.sum rnd (dvalues composition) in
  ~ n == 0 ->
  ~ Fl.sum rnd (dvalues nom) == 0 ->
  Qabs (rnd (e * n) - e * n) <= u64 * Qabs (e * n) ->
  Qabs (rnd (rnd (e * n) / n) - rnd (e * n) / n)
    <= u64 * Qabs (rnd (e * n) / n) ->
  exists p q,
    Fl.Phase_init rnd (Some (CompDict composition)) (Some e) descr true stab nm
      = Ok p /\
    comp p = composition /\
    energy p = e /\
    total_energy p = rnd (e * n) /\
    Fl.div rnd (total_energy p) n = Ok q /\
    Qabs (q - e) <= (2 * u64 + u64 * u64) * Qabs e /\
    (Qabs e <= 4000000 -> Qabs (q - e) <= 1 # 1000000000).
Proof.
  intros Hu Hr n Hn Hnom H1 H2.
  unfold Fl.Phase_init. cbn [as_mapping mbind result_bind]. rewrite Hu, Hr.
  cbn [mbind result_bind]. rewrite fl_energy_set_run. cbv zeta. simpl_fields.
  rewrite (fl_div_ok _ _ _ Hnom).
  eexists. exists (rnd (rnd (e * n) / n)). split; [reflexivity|].
  simpl_fields. split; [reflexivity|]. split; [reflexivity|].
  split; [reflexivity|]. unfold Fl.mul. fold n.
  split; [by apply fl_div_ok|].
  assert (Hb : Qabs (rnd (rnd (e * n) / n) - e) <= (2 * u64 + u64 * u64) * Qabs e).
  { by apply (rounded_round_trip u64 e n (rnd (e * n))). }
  split; [exact Hb|]. intros He.
  assert (Hc : (2 * u64 + u64 * u64) * Qabs e <= 1 # 1000000000).
  { unfold u64 in *. pose proof (Qabs_nonneg e). 
    assert (Hk : (2 * (1 # 9007199254740992)
                  + (1 # 9007199254740992) * (1 # 9007199254740992)) * 4000000
                 <= 1 # 1000000000) by (vm_compute; discriminate).
    eapply Qle_trans; [|exact Hk].
    rewrite !(Qmult_comm (2 * _ + _)). apply Qmult_le_compat_r; [exact He|].
    vm_compute. discriminate. }
  lra.
Qed.

Lemma per_atom_round_trip_witness :
  let n := Fl.sum round64 (dvalues Fe3) in
  exists p q,
    Fl.Phase_init round64 (Some (CompDict Fe3)) (Some large_energy) "" true None ""
      = Ok p /\
    comp p = Fe3 /\
    energy p = large_energy /\
    total_energy p = round64 (large_energy * n) /\
    Fl.div round64 (total_energy p) n = Ok q /\
    Qabs (q - large_energy) <= (2 * u64 + u64 * u64) * Qabs large_energy /\
    (Qabs large_energy <= 4000000 -> Qabs (q - large_energy) <= 1 # 1000000000).
Proof.
  apply (per_atom_round_trip round64 Fe3 [("Fe"%string, 1)] [("Fe"%string, 1)]
           large_energy "" None ""); try reflexivity; vm_compute; discriminate.
Defined.

(** C9, as the specification words it, fails for a large energy:
    [Phase({'Fe': 3}, 123456789.1)] has the energy it was given, and its
    [total_energy] divided by the total 3 is 123456789.09999998, more than
    [1e-9] away from it. *)
Lemma per_atom_round_trip_beyond_tolerance :
  let n := Fl.sum round64 (dvalues Fe3) in
  exists p q,
    Fl.Phase_init round64 (Some (CompDict Fe3)) (Some large_energy) "" true None ""
      = Ok p /\
    ~ dsum Fe3 == 0 /\
    energy p = large_energy /\
    Fl.div round64 (total_energy p) n = Ok q /\
    1 # 1000000000 < Qabs (q - large_energy).
Proof.
  intros n. eexists. eexists. split; [vm_compute; reflexivity|].
  split; [vm_compute; discriminate|]. split; [reflexivity|].
  split; [vm_compute; reflexivity|]. vm_compute. reflexivity.
Qed.

(** X11. An assignment to [total_energy] leaves the three views in step
    up to one rounding: when the totals of the composition and of the
    nominal composition, as computed, are not zero, the assignment returns,
    [total_energy] is the value assigned, and, each quotient being rounded
    with relative error at most [2 ** -53], [energy] times the total of the
    composition and [energy_pfu] times the total of the nominal
    composition differ from it by at most [2 ** -53] times its absolute
    value. *)
Theorem total_energy_assignment_in_step (rnd : Q -> Q) (e : Q) (p : Phase) :
  let n := Fl.sum rnd (dvalues (comp p)) in
  let m := Fl.sum rnd (dvalues (_nom_comp p)) in
  ~ n == 0 -> ~ m == 0 ->
  Qabs (rnd (e / n) - e / n) <= u64 * Qabs (e / n) ->
  Qabs (rnd (e / m) - e / m) <= u64 * Qabs (e / m) ->
  let p' := state_after (Fl.total_energy_set rnd e) p in
  outcome (Fl.total_energy_set rnd e) p = Ok tt /\
  total_energy p' = e /\
  Qabs (energy p' * n - e) <= u64 * Qabs e /\
  Qabs (energy_pfu p' * m - e) <= u64 * Qabs e /\
  comp p' = comp p.
Proof.
  intros n m Hn Hm H1 H2. unfold outcome, state_after.
  rewrite fl_total_energy_set_run. cbv zeta. fold n m.
  rewrite (fl_div_ok _ _ _ Hn), (fl_div_ok _ _ _ Hm). destruct p. simpl_fields.
  split; [reflexivity|]. split; [reflexivity|].
  split; [by apply rounded_quotient_back|].
  split; [by apply rounded_quotient_back|reflexivity].
Qed.

Lemma total_energy_assignment_in_step_witness :
  let p := Fe49 in
  let p' := state_after (Fl.total_energy_set round64 1) p in
  outcome (Fl.total_energy_set round64 1) p = Ok tt /\
  total_energy p' = 1 /\
  Qabs (energy p' * Fl.sum round64 (dvalues (comp p)) - 1) <= u64 * Qabs 1 /\
  Qabs (energy_pfu p' * Fl.sum round64 (dvalues (_nom_comp p)) - 1)
    <= u64 * Qabs 1 /\
  comp p' = comp p.
Proof.
  apply (total_energy_assignment_in_step round64 1 Fe49);
    vm_compute; discriminate.
Defined.

(** X10. The example of the class docstring, on its range: with [n] the
    computed total of the composition, [Phase(comp, e)] and
    [Phase(comp, e * n, per_atom=False)] are both built and have the same
    total energy; when the product and the quotient are rounded with
    relative error at most [2 ** -53], their energies per atom differ by at
    most [(2 u + u * u) * |e|], and for [|e| <= 4e9] each compares equal
    to the other. *)
Theorem per_atom_and_total_agree {E : Env} {ES : EnvSpec E} (rnd : Q -> Q)
    (composition unitc nom : dict) (e : Q) descr stab nm :
  unit_comp composition = Ok unitc ->
  reduce_comp composition = Ok nom ->
  let n := Fl.sum rnd (dvalues composition) in
  ~ n == 0 ->
  ~ Fl.sum rnd (dvalues nom) == 0 ->
  Qabs (rnd (e * n) - e * n) <= u64 * Qabs (e * n) ->
  Qabs (rnd (rnd (e * n) / n) - rnd (e * n) / n)
    <= u64 * Qabs (rnd (e * n) / n) ->
  Qabs e <= 4000000000 ->
  exists p1 p2,
    Fl.Phase_init rnd (Some (CompDict composition)) (Some e) descr true stab nm
      = Ok p1 /\
    Fl.Phase_init rnd (Some (CompDict composition)) (Some (Fl.mul rnd e n))
                  descr false stab nm = Ok p2 /\
    total_energy p2 = total_energy p1 /\
    Qabs (energy p2 - energy p1) <= (2 * u64 + u64 * u64) * Qabs e /\
    Phase_eq p1 p2 = Ok true /\ Phase_eq p2 p1 = Ok true.
Proof.
  intros Hu Hr n Hn Hnom H1 H2 He.
  unfold Fl.Phase_init. cbn [as_mapping mbind result_bind]. rewrite Hu, Hr.
  cbn [mbind result_bind].
  rewrite fl_energy_set_run, fl_total_energy_set_run. cbv zeta. simpl_fields.
  fold n. rewrite !(fl_div_ok _ _ _ Hnom), (fl_div_ok _ _ _ Hn).
  eexists. eexists. split; [reflexivity|]. split; [reflexivity|].
  simpl_fields. split; [reflexivity|]. unfold Fl.mul.
  assert (Hb : Qabs (rnd (rnd (e * n) / n) - e) <= (2 * u64 + u64 * u64) * Qabs e)
    by (by apply (rounded_round_trip u64 e n (rnd (e * n)))).
  split; [exact Hb|].
  assert (Hc : (2 * u64 + u64 * u64) * Qabs e <= tol).
  { assert (Hk : (2 * u64 + u64 * u64) * 4000000000 <= tol)
      by (vm_compute; discriminate).
    eapply Qle_trans; [|exact Hk].
    rewrite !(Qmult_comm (2 * _ + _)). apply Qmult_le_compat_r; [exact He|].
    vm_compute. discriminate. }
  assert (Hks : forall k, k ∈ dkeys composition -> is_Some (dget unitc k)).
  { intros k Hk. rewrite <- (unit_comp_keys composition unitc Hu) in Hk.
    destruct (dget unitc k) eqn:Hd; [by eexists|].
    apply dget_None in Hd. contradiction. }
  split.
  - rewrite Phase_eq_by_energy; [|reflexivity|reflexivity|exact Hks].
    simpl_fields.
    assert (Hle : Qabs (e - rnd (rnd (e * n) / n)) <= tol).
    { rewrite Qabs_Qminus. lra. }
    apply Qle_bool_iff in Hle. by rewrite Hle.
  - rewrite Phase_eq_by_energy; [|reflexivity|reflexivity|exact Hks].
    simpl_fields.
    assert (Hle : Qabs (rnd (rnd (e * n) / n) - e) <= tol) by lra.
    apply Qle_bool_iff in Hle. by rewrite Hle.
Qed.

Lemma per_atom_and_total_agree_witness :
  exists p1 p2,
    Fl.Phase_init round64 (Some (CompDict Fe2O3)) (Some (round64 (-164 # 100)))
                  "" true None "" = Ok p1 /\
    Fl.Phase_init round64 (Some (CompDict Fe2O3))
                  (Some (Fl.mul round64 (round64 (-164 # 100))
                                 (Fl.sum round64 (dvalues Fe2O3))))
                  "" false None "" = Ok p2 /\
    total_energy p2 = total_energy p1 /\
    Qabs (energy p2 - energy p1)
      <= (2 * u64 + u64 * u64) * Qabs (round64 (-164 # 100)) /\
    Phase_eq p1 p2 = Ok true /\ Phase_eq p2 p1 = Ok true.
Proof.
  apply (per_atom_and_total_agree (ES := spec_env_spec) round64 Fe2O3
           (match unit_comp Fe2O3 with Ok d => d | Raise _ => [] end)
           (match reduce_comp Fe2O3 with Ok d => d | Raise _ => [] end)
           (round64 (-164 # 100)) "" None "");
    try (vm_compute; reflexivity); vm_compute; discriminate.
Defined.

(** X13. What the loops of [amt] extract is fixed by the last key of the
    target, not by the scarcest element.  For a target mapping with
    distinct keys, no amount zero, no key ['var'] and a nonzero total, whose
    last item is [(c, a)], and a composition without key ['var']: a call
    [p.amt(t)] in which no operation rounds returns [r] with
    [r['var'] = p.comp[c] / a], [r[c] = 0], and
    [r[e] = p.comp[e] - (p.comp[c] / a) * t[e]] for every key [e] of [t],
    which is negative where [p] holds less of [e] than that. *)
Theorem amt_takes_last_ratio `{Env} (rnd : Q -> Q) (h : heap) (self : loc)
    (me : PhaseObj) (start : dict) (t : loc) (its : dict) (c : string) (a : Q)
    (s' : Fl.machine) (res : result loc) :
  let target := its ++ [(c, a)] in
  h !! self = Some (OPhase me) ->
  h !! comp_ref me = Some (ODict start) ->
  h !! t = Some (ODict target) ->
  NoDup (dkeys target) ->
  (forall e b, (e, b) ∈ target -> ~ b == 0) ->
  ("var" ∉ dkeys target) -> ("var" ∉ dkeys start) ->
  ~ dsum target == 0 ->
  Fl.amt rnd self (TDict t) (Fl.mk_machine h true) = (s', res) ->
  Fl.exact s' = true ->
  exists r,
    Fl.store s' = h ++ [ODict r] /\ res = Ok (length h) /\
    getd r "var" == getd start c / a /\
    getd r c == 0 /\
    (forall e b, (e, b) ∈ target ->
                 getd r e == getd start e - (getd start c / a) * b).
Proof.
  intros target Hself Hstart Ht Hnd Hnz Hvt Hvs Hn Hrun Hexact.
  pose proof (exact_run _ _ h s' _ (sim_amt rnd self (TDict t)) Hrun Hexact) as Hex.
  rewrite (amt_dict_run h self me t Hself) in Hex.
  destruct (pull_out_last h _ t start its c a Hstart Ht Hnd Hnz Hvt Hvs Hn)
    as (r & Hr & Hvar & Hc & Hres & _).
  rewrite Hr in Hex. injection Hex as Hst Hres'.
  exists r. by repeat split.
Qed.

Lemma amt_takes_last_ratio_witness :
  let h := store_of FeLi5O8_phase Li2O in
  let run := Fl.amt round64 3%nat (TDict 4%nat) (Fl.mk_machine h true) in
  exists r,
    Fl.store run.1 = h ++ [ODict r] /\ run.2 = Ok (length h) /\
    getd r "var" == getd FeLi5O8 "O" / 1 /\
    getd r "O" == 0 /\
    (forall e b, (e, b) ∈ Li2O ->
                 getd r e == getd FeLi5O8 e - (getd FeLi5O8 "O" / 1) * b).
Proof.
  intros h run.
  refine (amt_takes_last_ratio round64 h 3%nat
            (mkPhaseObj 0 1 2 (-1) (-14) (-1 # 14))
            FeLi5O8 4%nat [("Li"%string, 2)] "O" 1 run.1 run.2
            eq_refl eq_refl eq_refl _ _ _ _ _ _ _).
  - apply (bool_decide_unpack _). vm_compute. reflexivity.
  - intros e b Hd.
    apply elem_of_cons in Hd as [[= -> ->]|Hd]; [discriminate|].
    apply list_elem_of_singleton in Hd as [= -> ->]. discriminate.
  - apply dget_None. reflexivity.
  - apply dget_None. reflexivity.
  - vm_compute. discriminate.
  - apply surjective_pairing.
  - vm_compute. reflexivity.
Defined.

(** X14. [p.fraction(q)] for a phase [q] works on the two unit
    compositions: with [(c, a)] the last item of [q.unit_comp] (distinct
    keys, no amount zero, no key ['var'], nonzero total), a call in which
    no operation rounds returns [r] with [r['var'] = p.unit_comp[c] / a]
    and [r[e] = p.unit_comp[e] - r['var'] * q.unit_comp[e]] for every key
    [e] of [q.unit_comp]; the other entries of [p.unit_comp] are those of
    [r]. *)
Theorem fraction_of_phase `{Env} (rnd : Q -> Q) (h : heap) (self other : loc)
    (me q : PhaseObj) (start : dict) (its : dict) (c : string) (a : Q)
    (s' : Fl.machine) (res : result loc) :
  let target := its ++ [(c, a)] in
  h !! self = Some (OPhase me) ->
  h !! unit_comp_ref me = Some (ODict start) ->
  h !! other = Some (OPhase q) ->
  h !! unit_comp_ref q = Some (ODict target) ->
  NoDup (dkeys target) ->
  (forall e b, (e, b) ∈ target -> ~ b == 0) ->
  ("var" ∉ dkeys target) -> ("var" ∉ dkeys start) ->
  ~ dsum target == 0 ->
  Fl.fraction rnd self (TPhase other) (Fl.mk_machine h true) = (s', res) ->
  Fl.exact s' = true ->
  exists r,
    Fl.store s' = h ++ [ODict r] /\ res = Ok (length h) /\
    getd r "var" == getd start c / a /\
    (forall e b, (e, b) ∈ target -> getd r e == getd start e - getd r "var" * b) /\
    (forall e, e ∉ dkeys target -> e <> "var"%string -> dget r e = dget start e).
Proof.
  intros target Hself Hstart Hother Ht Hnd Hnz Hvt Hvs Hn Hrun Hexact.
  pose proof (exact_run _ _ h s' _ (sim_fraction rnd self (TPhase other))
                Hrun Hexact) as Hex.
  rewrite (fraction_phase_run h self me other q Hself Hother) in Hex.
  destruct (pull_out_last h _ _ start its c a Hstart Ht Hnd Hnz Hvt Hvs Hn)
    as (r & Hr & Hvar & _ & Hres & Hoth).
  rewrite Hr in Hex. injection Hex as Hst Hres'.
  exists r. split; [done|]. split; [done|]. split; [exact Hvar|].
  split; [|exact Hoth]. intros e b Hin. rewrite Hvar. by apply Hres.
Qed.

Lemma fraction_of_phase_witness :
  let h := store_pair FeO3_phase FeO_phase in
  let start := [("Fe"%string, 1 # 4); ("O"%string, 3 # 4)] in
  let target := [("Fe"%string, 1 # 2); ("O"%string, 1 # 2)] in
  let run := Fl.fraction round64 3%nat (TPhase 7%nat) (Fl.mk_machine h true) in
  exists r,
    Fl.store run.1 = h ++ [ODict r] /\ run.2 = Ok (length h) /\
    getd r "var" == getd start "O" / (1 # 2) /\
    (forall e b, (e, b) ∈ target -> getd r e == getd start e - getd r "var" * b) /\
    (forall e, e ∉ dkeys target -> e <> "var"%string -> dget r e = dget start e).
Proof.
  intros h start target run.
  refine (fraction_of_phase round64 h 3%nat 7%nat
            (mkPhaseObj 0 1 2 (-1) (-4) (-1 # 4))
            (mkPhaseObj 4 5 6 (-1) (-2) (-1 # 2))
            start [("Fe"%string, 1 # 2)] "O" (1 # 2) run.1 run.2
            eq_refl eq_refl eq_refl eq_refl _ _ _ _ _ _ _).
  - apply (bool_decide_unpack _). vm_compute. reflexivity.
  - intros e b Hd.
    apply elem_of_cons in Hd as [[= -> ->]|Hd]; [discriminate|].
    apply list_elem_of_singleton in Hd as [= -> ->]. discriminate.
  - apply dget_None. reflexivity.
  - apply dget_None. reflexivity.
  - vm_compute. discriminate.
  - apply surjective_pairing.
  - vm_compute. reflexivity.
Defined.


(** The example of the docstring, in binary64:
    [Phase({'Fe': 1, 'Li': 5, 'O': 8}, -1).amt(t)] for the mapping of
    [Li2O] with O visited before Li, the order that gives the docstring's
    values: no operation rounds, and the result holds ['var'] 2.5, Fe 1,
    O 5.5 and Li 0. *)
Lemma amt_docstring_example :
  let h := store_of FeLi5O8_phase O1Li2 in
  exists s' r,
    Fl.amt round64 3%nat (TDict 4%nat) (Fl.mk_machine h true) = (s', Ok 5%nat) /\
    Fl.exact s' = true /\
    Fl.store s' = h ++ [ODict r] /\
    getd r "var" == 5 # 2 /\
    getd r "Fe" == 1 /\ getd r "O" == 11 # 2 /\ getd r "Li" == 0.
Proof.
  intros h. eexists. eexists. split; [vm_compute; reflexivity|].
  split; [reflexivity|]. split; [reflexivity|].
  repeat split; vm_compute; reflexivity.
Qed.

(** In binary64 the residual is not exactly the composition less ['var']
    times the target: for [Phase({'Fe': 1, 'Li': 5, 'O': 8}, -1)] and the
    target [{'Li': 3, 'O': 7}] the call rounds, ['var'] is
    1.1428571428571428 and the residual of Li is 1.5714285714285718, which
    is not 5 less three times ['var']. *)
Lemma amt_residual_rounds :
  let h := store_of FeLi5O8_phase Li3O7 in
  exists s' r,
    Fl.amt round64 3%nat (TDict 4%nat) (Fl.mk_machine h true) = (s', Ok 5%nat) /\
    Fl.exact s' = false /\
    Fl.store s' = h ++ [ODict r] /\
    getd r "var" == 2573485501354569 # 2251799813685248 /\
    getd r "Li" == 7077085128725067 # 4503599627370496 /\
    ~ getd r "Li" == getd FeLi5O8 "Li" - getd r "var" * 3.
Proof.
  intros h. eexists. eexists. split; [vm_compute; reflexivity|].
  split; [reflexivity|]. split; [reflexivity|].
  split; [vm_compute; reflexivity|]. split; [vm_compute; reflexivity|].
  vm_compute. discriminate.
Qed.

(** In binary64, a product and the quotient by the same number: the
    round trip of an energy [e] through [e * n] and back, for results in
    the normal range. *)
Lemma round_trip_binary64 (e n : Q) :
  ~ n == 0 ->
  2 ^ (-1022) <= Qabs (e * n) ->
  2 ^ (-1022) <= Qabs (round64 (e * n) / n) ->
  Qabs (round64 (round64 (e * n) / n) - e) <= (2 * u64 + u64 * u64) * Qabs e.
Proof.
  intros Hn H1 H2.
  apply (rounded_round_trip u64 e n (round64 (e * n))); [discriminate|exact Hn| |].
  - by apply round64_relative_error.
  - by apply round64_relative_error.
Qed.
